(** * LightSail glasses firmware (LSG_Version_3/src/main.cpp)

    A shallow embedding of the mode controller ([handleSet], [buttonTask]),
    of the hue distribution ([fill_ring_with_exact_rainbow]) and of the
    render loop ([ledRingTask]) with its 27 modes, followed by the
    properties proved of them.

    Conventions.
    - [int] values are [Z] reduced by [int32] after each arithmetic step
      (two's complement wrap-around, what the target does on overflow);
      [uint8_t] and [uint16_t] values are reduced by [u8] and [u16].
      C's [%] is [Z.rem], C's [/] is [Z.quot].
    - [float] is IEEE-754 binary32 and [double] binary64, through the
      Standard Library's [SpecFloat] (round to nearest, ties to even).
    - The 96-pixel array [leds] is a [list CRGB]; a store outside the array
      makes the computation fail ([None]).
    - FastLED and Arduino calls whose code is not part of the repository
      (random numbers, the beat generators, colour conversion, scaling)
      are the fields of a [Platform]. *)

From Stdlib Require Import ZArith List Bool Lia.
From Stdlib Require Import Floats.SpecFloat.
From stdpp Require Import base list.
Import ListNotations.
Local Open Scope Z_scope.

(** ** Machine integers *)

Definition int32 (z : Z) : Z := (z + 2147483648) mod 4294967296 - 2147483648.
Definition u8 (z : Z) : Z := z mod 256.
Definition u16 (z : Z) : Z := z mod 65536.

Definition int_add (a b : Z) : Z := int32 (a + b).
Definition int_sub (a b : Z) : Z := int32 (a - b).
Definition int_mul (a b : Z) : Z := int32 (a * b).
Definition int_neg (a : Z) : Z := int32 (- a).
Definition int_rem (a b : Z) : Z := Z.rem a b.
Definition int_div (a b : Z) : Z := Z.quot a b.
Definition int_abs (a : Z) : Z := int32 (Z.abs a).

Declare Scope int_scope.
Delimit Scope int_scope with int.
Infix "+i" := int_add (at level 50, left associativity) : int_scope.
Infix "-i" := int_sub (at level 50, left associativity) : int_scope.
Infix "*i" := int_mul (at level 40, left associativity) : int_scope.
Infix "%i" := int_rem (at level 40, left associativity) : int_scope.
Infix "/i" := int_div (at level 40, left associativity) : int_scope.
Local Open Scope int_scope.

(** ** Hardware constants (lines 10-11, 25) *)

Definition NUM_LEDS : Z := 96.
Definition RING_LEDS : Z := 48.
Definition numModes : Z := 27.

(** ** Colours *)

Record CRGB := mkCRGB { red : Z; green : Z; blue : Z }.
Record CHSV := mkCHSV { hue : Z; sat : Z; val : Z }.

(** The [CHSV(h, s, v)] constructor: each argument is converted to
    [uint8_t]. *)
Definition chsv (h s v : Z) : CHSV := mkCHSV (u8 h) (u8 s) (u8 v).

(** FastLED's predefined colours [CRGB::Black], [White], [Blue], [Red]. *)
Definition Black : CRGB := mkCRGB 0 0 0.
Definition White : CRGB := mkCRGB 255 255 255.
Definition Blue : CRGB := mkCRGB 0 0 255.
Definition Red : CRGB := mkCRGB 255 0 0.

Definition CRGB_eqb (a b : CRGB) : bool :=
  (red a =? red b) && (green a =? green b) && (blue a =? blue b).

(** [CRGB::operator+=]: channel-wise saturating addition. *)
Definition qadd8 (a b : Z) : Z := Z.min (a + b) 255.
Definition CRGB_add (a b : CRGB) : CRGB :=
  mkCRGB (qadd8 (red a) (red b)) (qadd8 (green a) (green b))
         (qadd8 (blue a) (blue b)).

Definition byte_ok (z : Z) : Prop := 0 <= z <= 255.
Definition crgb_ok (c : CRGB) : Prop :=
  byte_ok (red c) /\ byte_ok (green c) /\ byte_ok (blue c).

(** ** binary32 and binary64 arithmetic *)

Module F32.
Definition t := spec_float.
Definition prec : Z := 24.
Definition emax : Z := 128.
Definition dprec : Z := 53.
Definition demax : Z := 1024.

Definition of_Z (z : Z) : t := binary_normalize prec emax z 0 false.
Definition double_of_Z (z : Z) : t := binary_normalize dprec demax z 0 false.
(** [double] to [float]: the value is rounded to 24 bits. *)
Definition of_double (x : t) : t :=
  match x with
  | S754_finite s m e => binary_normalize prec emax (cond_Zopp s (Zpos m)) e s
  | _ => x
  end.
(** [float] to [double]: the same value, written with 53 bits (exact). *)
Definition to_double (x : t) : t :=
  match x with
  | S754_finite s m e => binary_normalize dprec demax (cond_Zopp s (Zpos m)) e s
  | _ => x
  end.

Definition add : t -> t -> t := SFadd prec emax.
Definition sub : t -> t -> t := SFsub prec emax.
Definition ddiv : t -> t -> t := SFdiv dprec demax.
Definition dsub : t -> t -> t := SFsub dprec demax.
(** [x >= y] on doubles. *)
Definition dgeb (x y : t) : bool := SFleb y x.

(** Conversion to an integer type truncates toward zero. *)
Definition trunc (x : t) : Z :=
  match x with
  | S754_finite s m e =>
      cond_Zopp s
        match e with
        | Z0 => Zpos m
        | Zpos _ => Zpos m * 2 ^ e
        | Zneg p => Zpos m / 2 ^ Zpos p
        end
  | _ => 0
  end.
(** [(uint8_t)x]: truncation, then the low eight bits. For a value above
    255 the language leaves the result open; the target converts to a
    32-bit integer and keeps its low byte, which is what the hue wheel's
    wrap-around at 256 relies on. *)
Definition to_u8 (x : t) : Z := u8 (trunc x).
End F32.

(** ** Mode controller state (lines 24-26) *)

Record Config := mkConfig {
  currentMode : Z;
  ringBrightness : Z;
  (** the scale last handed to [FastLED.setBrightness] (a [uint8_t]) *)
  fastledBrightness : Z
}.

(** State after the global initialisers and [setup()] (line 851). *)
Definition initConfig : Config := mkConfig 0 50 (u8 50).

(** Assignments to the two globals, and [FastLED.setBrightness(b)]. *)
Definition set_currentMode (v : Z) (c : Config) : Config :=
  mkConfig v (ringBrightness c) (fastledBrightness c).
Definition set_ringBrightness (v : Z) (c : Config) : Config :=
  mkConfig (currentMode c) v (fastledBrightness c).
Definition FastLED_setBrightness (b : Z) (c : Config) : Config :=
  mkConfig (currentMode c) (ringBrightness c) (u8 b).

(** ** [handleSet] (lines 103-119)

    [mode] and [brightness] are the two request arguments after
    [toInt()]: [None] when [server.hasArg] is false. *)
Definition handleSet (mode brightness : option Z) (c : Config) : Config :=
  let c :=
    match mode with
    | Some modeVal =>
        if (0 <=? modeVal) && (modeVal <? numModes)
        then set_currentMode modeVal c
        else c
    | None => c
    end in
  match brightness with
  | Some brightVal =>
      if (0 <=? brightVal) && (brightVal <=? 255)
      then let c := set_ringBrightness brightVal c in
           FastLED_setBrightness (ringBrightness c) c
      else c
  | None => c
  end.

(** ** [buttonTask] (lines 784-841) *)

Inductive Level := LOW | HIGH.

Definition pressed (now last : Level) : bool :=
  match now, last with LOW, HIGH => true | _, _ => false end.

(** Lines 798-803. *)
Definition modeIncrement (c : Config) : Config :=
  set_currentMode ((currentMode c +i 1) %i numModes) c.

(** Lines 805-812. *)
Definition modeDecrement (c : Config) : Config :=
  let c := set_currentMode (currentMode c -i 1) c in
  if currentMode c <? 0 then set_currentMode (numModes -i 1) c else c.

(** Lines 814-822. *)
Definition brightnessIncrement (c : Config) : Config :=
  let c := set_ringBrightness (ringBrightness c +i 10) c in
  let c := if ringBrightness c >? 255 then set_ringBrightness 255 c else c in
  FastLED_setBrightness (ringBrightness c) c.

(** Lines 824-832. *)
Definition brightnessDecrement (c : Config) : Config :=
  let c := set_ringBrightness (ringBrightness c -i 10) c in
  let c := if ringBrightness c <? 0 then set_ringBrightness 0 c else c in
  FastLED_setBrightness (ringBrightness c) c.

(** The four pin levels read by [digitalRead] in one pass, and the four
    [last...State] locals. *)
Record Pins := mkPins {
  pinModeInc : Level; pinModeDec : Level;
  pinBrightInc : Level; pinBrightDec : Level
}.

Definition initPins : Pins := mkPins HIGH HIGH HIGH HIGH.

(** One pass of the [while (1)] body of [buttonTask]: the four edge tests
    in source order, then the [last...State] update. *)
Definition buttonTask_iter (now last : Pins) (c : Config) : Config * Pins :=
  let c := if pressed (pinModeInc now) (pinModeInc last)
           then modeIncrement c else c in
  let c := if pressed (pinModeDec now) (pinModeDec last)
           then modeDecrement c else c in
  let c := if pressed (pinBrightInc now) (pinBrightInc last)
           then brightnessIncrement c else c in
  let c := if pressed (pinBrightDec now) (pinBrightDec last)
           then brightnessDecrement c else c in
  (c, now).

(** ** Collaborators outside the repository

    One value of [World] is everything the FastLED and Arduino calls depend
    on besides their arguments: the random generators' seeds and the
    millisecond clock. Every call that reads it may also change it. *)
Record Platform := mkPlatform {
  World : Type;
  (** Arduino [random(howbig)] *)
  random : Z -> World -> Z * World;
  (** FastLED [random8()] *)
  random8 : World -> Z * World;
  (** FastLED [random8(min, lim)] *)
  random8_between : Z -> Z -> World -> Z * World;
  (** FastLED [beatsin8(bpm, lowest, highest)] *)
  beatsin8 : Z -> Z -> Z -> World -> Z * World;
  (** FastLED [beatsin16(bpm, lowest, highest, timebase, phase)] *)
  beatsin16 : Z -> Z -> Z -> Z -> Z -> World -> Z * World;
  (** the passage of [ms] milliseconds in [vTaskDelay] *)
  sleep : Z -> World -> World;
  (** the [CHSV] to [CRGB] conversion of an assignment *)
  hsv2rgb_rainbow : CHSV -> CRGB;
  (** [CRGB::nscale8(scale)] *)
  nscale8 : CRGB -> Z -> CRGB;
  sin8 : Z -> Z;
  inoise8 : Z -> Z
}.

(** What the renderer relies on: the documented result ranges. *)
Record PlatformOK (P : Platform) : Prop := mkPlatformOK {
  random_range : forall n w, 0 < n -> 0 <= fst (random P n w) < n;
  random8_range : forall w, 0 <= fst (random8 P w) <= 255;
  random8_between_range :
    forall lo lim w, 0 <= lo < lim -> lim <= 256 ->
                     lo <= fst (random8_between P lo lim w) < lim;
  beatsin8_range :
    forall bpm lo hi w, 0 <= lo <= hi -> hi <= 255 ->
                        lo <= fst (beatsin8 P bpm lo hi w) <= hi;
  beatsin16_range :
    forall bpm lo hi tb ph w, 0 <= lo <= hi -> hi <= 65535 ->
                              lo <= fst (beatsin16 P bpm lo hi tb ph w) <= hi;
  hsv2rgb_ok : forall c, crgb_ok (hsv2rgb_rainbow P c);
  nscale8_ok : forall c k, crgb_ok c -> crgb_ok (nscale8 P c k)
}.

(** What the render task does that is visible from outside. *)
Inductive Event :=
| EvShow (frame : list CRGB)   (* FastLED.show() *)
| EvDelay (ms : Z).            (* vTaskDelay(ms / portTICK_PERIOD_MS) *)

(** ** Persistent state of [ledRingTask] (its [static] locals), by mode *)

Record Rainbow := mkRainbow { startHueRing1 : Z; startHueRing2 : Z }.
Record Wipe := mkWipe {
  wipeExp : Z; wipeColor : CRGB; sideWipeInitialized : bool }.
Record Running := mkRunning { runIndex1 : Z; runIndex2 : Z }.
Record Laser := mkLaser { laserPos1 : Z; laserPos2 : Z }.
Record Strobe := mkStrobe { strobeOn : bool; strobeCount : Z }.
Record Comets := mkComets { cometPos1 : Z; cometPos2 : Z }.
Record Bounce := mkBounce {
  bouncePos1 : Z; bounceDir1 : Z; bouncePos2 : Z; bounceDir2 : Z }.
Record Bar := mkBar { barPos1 : Z; barPos2 : Z }.
Record Ripple := mkRipple { rippleCenter1 : Z; rippleCenter2 : Z }.
(** [shockCenter1] and [shockCenter2] have a run-time initialiser
    ([random(RING_LEDS)]): [None] until case 22 is first executed. *)
Record Shock := mkShock {
  shockExp : Z; shockCenter1 : option Z; shockCenter2 : option Z }.
Record Slice := mkSlice { slicePos1 : Z; slicePos2 : Z }.
Record Gap := mkGap { gapPos1 : Z; gapPos2 : Z }.

Record Statics := mkStatics {
  rainbow : Rainbow;
  theatreOffset : Z;
  wipe : Wipe;
  gHue : Z;
  toggle : bool;
  running : Running;
  laser : Laser;
  strobe : Strobe;
  comets : Comets;
  bounce : Bounce;
  swirlX : Z;
  bar : Bar;
  ripple : Ripple;
  pulseCounter : Z;
  shock : Shock;
  dropCounter : Z;
  slice : Slice;
  gap : Gap
}.

(** The static initialisers (lines 137-152 and inside the cases). *)
Definition initStatics : Statics :=
  mkStatics (mkRainbow 0 0) 0 (mkWipe 0 Blue false) 0 false
            (mkRunning 0 0) (mkLaser 0 0) (mkStrobe false 0) (mkComets 0 0)
            (mkBounce 0 1 0 1) 0 (mkBar 0 0) (mkRipple 0 0) 0
            (mkShock 0 None None) 0 (mkSlice 0 0) (mkGap 0 0).

(** Assignment to one group of statics. *)
Definition set_rainbow v (s : Statics) : Statics :=
  mkStatics v (theatreOffset s) (wipe s) (gHue s) (toggle s) (running s)
    (laser s) (strobe s) (comets s) (bounce s) (swirlX s) (bar s) (ripple s)
    (pulseCounter s) (shock s) (dropCounter s) (slice s) (gap s).
Definition set_theatreOffset v (s : Statics) : Statics :=
  mkStatics (rainbow s) v (wipe s) (gHue s) (toggle s) (running s) (laser s)
    (strobe s) (comets s) (bounce s) (swirlX s) (bar s) (ripple s)
    (pulseCounter s) (shock s) (dropCounter s) (slice s) (gap s).
Definition set_wipe v (s : Statics) : Statics :=
  mkStatics (rainbow s) (theatreOffset s) v (gHue s) (toggle s) (running s)
    (laser s) (strobe s) (comets s) (bounce s) (swirlX s) (bar s) (ripple s)
    (pulseCounter s) (shock s) (dropCounter s) (slice s) (gap s).
Definition set_gHue v (s : Statics) : Statics :=
  mkStatics (rainbow s) (theatreOffset s) (wipe s) v (toggle s) (running s)
    (laser s) (strobe s) (comets s) (bounce s) (swirlX s) (bar s) (ripple s)
    (pulseCounter s) (shock s) (dropCounter s) (slice s) (gap s).
Definition set_toggle v (s : Statics) : Statics :=
  mkStatics (rainbow s) (theatreOffset s) (wipe s) (gHue s) v (running s)
    (laser s) (strobe s) (comets s) (bounce s) (swirlX s) (bar s) (ripple s)
    (pulseCounter s) (shock s) (dropCounter s) (slice s) (gap s).
Definition set_running v (s : Statics) : Statics :=
  mkStatics (rainbow s) (theatreOffset s) (wipe s) (gHue s) (toggle s) v
    (laser s) (strobe s) (comets s) (bounce s) (swirlX s) (bar s) (ripple s)
    (pulseCounter s) (shock s) (dropCounter s) (slice s) (gap s).
Definition set_laser v (s : Statics) : Statics :=
  mkStatics (rainbow s) (theatreOffset s) (wipe s) (gHue s) (toggle s)
    (running s) v (strobe s) (comets s) (bounce s) (swirlX s) (bar s)
    (ripple s) (pulseCounter s) (shock s) (dropCounter s) (slice s) (gap s).
Definition set_strobe v (s : Statics) : Statics :=
  mkStatics (rainbow s) (theatreOffset s) (wipe s) (gHue s) (toggle s)
    (running s) (laser s) v (comets s) (bounce s) (swirlX s) (bar s)
    (ripple s) (pulseCounter s) (shock s) (dropCounter s) (slice s) (gap s).
Definition set_comets v (s : Statics) : Statics :=
  mkStatics (rainbow s) (theatreOffset s) (wipe s) (gHue s) (toggle s)
    (running s) (laser s) (strobe s) v (bounce s) (swirlX s) (bar s)
    (ripple s) (pulseCounter s) (shock s) (dropCounter s) (slice s) (gap s).
Definition set_bounce v (s : Statics) : Statics :=
  mkStatics (rainbow s) (theatreOffset s) (wipe s) (gHue s) (toggle s)
    (running s) (laser s) (strobe s) (comets s) v (swirlX s) (bar s)
    (ripple s) (pulseCounter s) (shock s) (dropCounter s) (slice s) (gap s).
Definition set_swirlX v (s : Statics) : Statics :=
  mkStatics (rainbow s) (theatreOffset s) (wipe s) (gHue s) (toggle s)
    (running s) (laser s) (strobe s) (comets s) (bounce s) v (bar s)
    (ripple s) (pulseCounter s) (shock s) (dropCounter s) (slice s) (gap s).
Definition set_bar v (s : Statics) : Statics :=
  mkStatics (rainbow s) (theatreOffset s) (wipe s) (gHue s) (toggle s)
    (running s) (laser s) (strobe s) (comets s) (bounce s) (swirlX s) v
    (ripple s) (pulseCounter s) (shock s) (dropCounter s) (slice s) (gap s).
Definition set_ripple v (s : Statics) : Statics :=
  mkStatics (rainbow s) (theatreOffset s) (wipe s) (gHue s) (toggle s)
    (running s) (laser s) (strobe s) (comets s) (bounce s) (swirlX s)
    (bar s) v (pulseCounter s) (shock s) (dropCounter s) (slice s) (gap s).
Definition set_pulseCounter v (s : Statics) : Statics :=
  mkStatics (rainbow s) (theatreOffset s) (wipe s) (gHue s) (toggle s)
    (running s) (laser s) (strobe s) (comets s) (bounce s) (swirlX s)
    (bar s) (ripple s) v (shock s) (dropCounter s) (slice s) (gap s).
Definition set_shock v (s : Statics) : Statics :=
  mkStatics (rainbow s) (theatreOffset s) (wipe s) (gHue s) (toggle s)
    (running s) (laser s) (strobe s) (comets s) (bounce s) (swirlX s)
    (bar s) (ripple s) (pulseCounter s) v (dropCounter s) (slice s) (gap s).
Definition set_dropCounter v (s : Statics) : Statics :=
  mkStatics (rainbow s) (theatreOffset s) (wipe s) (gHue s) (toggle s)
    (running s) (laser s) (strobe s) (comets s) (bounce s) (swirlX s)
    (bar s) (ripple s) (pulseCounter s) (shock s) v (slice s) (gap s).
Definition set_slice v (s : Statics) : Statics :=
  mkStatics (rainbow s) (theatreOffset s) (wipe s) (gHue s) (toggle s)
    (running s) (laser s) (strobe s) (comets s) (bounce s) (swirlX s)
    (bar s) (ripple s) (pulseCounter s) (shock s) (dropCounter s) v (gap s).
Definition set_gap v (s : Statics) : Statics :=
  mkStatics (rainbow s) (theatreOffset s) (wipe s) (gHue s) (toggle s)
    (running s) (laser s) (strobe s) (comets s) (bounce s) (swirlX s)
    (bar s) (ripple s) (pulseCounter s) (shock s) (dropCounter s) (slice s)
    v.

(** ** The render task's machine: pixel array, collaborators, output *)

Record Machine (P : Platform) := mkMachine {
  leds : list CRGB;
  world : World P;
  out : list Event
}.
Arguments mkMachine {P} _ _ _.
Arguments leds {P} _.
Arguments world {P} _.
Arguments out {P} _.

(** A computation reads and writes the machine and fails ([None]) on a
    store or load outside [leds]. *)
Definition M (P : Platform) (A : Type) : Type :=
  Machine P -> option (A * Machine P).

Definition ret {P A} (a : A) : M P A := fun s => Some (a, s).
Definition bind {P A B} (m : M P A) (k : A -> M P B) : M P B :=
  fun s => match m s with
           | Some (a, s') => k a s'
           | None => None
           end.

Declare Scope monad_scope.
Delimit Scope monad_scope with monad.
Notation "x <- m ;; k" := (bind m (fun x => k))
  (at level 100, m at next level, right associativity) : monad_scope.
Notation "m ;; k" := (bind m (fun _ => k))
  (at level 100, right associativity) : monad_scope.
Local Open Scope monad_scope.

Section Engine.
Context (P : Platform).

Definition in_leds (i : Z) : bool := (0 <=? i) && (i <? NUM_LEDS).

(** [leds[i] = c] *)
Definition store (i : Z) (c : CRGB) : M P unit := fun s =>
  if in_leds i && (i <? Z.of_nat (length (leds s)))
  then Some (tt, mkMachine (<[Z.to_nat i := c]> (leds s)) (world s) (out s))
  else None.

(** the value of [leds[i]] *)
Definition load (i : Z) : M P CRGB := fun s =>
  if in_leds i
  then match leds s !! Z.to_nat i with
       | Some c => Some (c, s)
       | None => None
       end
  else None.

(** [leds[i] += c] *)
Definition add_led (i : Z) (c : CRGB) : M P unit :=
  old <- load i ;; store i (CRGB_add old c).

(** [for (i = lo; i < hi; i++) body] *)
Fixpoint for_loop (n : nat) (i : Z) (body : Z -> M P unit) : M P unit :=
  match n with
  | O => ret tt
  | S n' => body i ;; for_loop n' (i + 1) body
  end.
Definition for_ (lo hi : Z) (body : Z -> M P unit) : M P unit :=
  for_loop (Z.to_nat (hi - lo)) lo body.

(** [fill_solid(leds + ring, n, c)] *)
Definition fill_solid (ring n : Z) (c : CRGB) : M P unit :=
  for_ 0 n (fun i => store (ring + i) c).

(** [fadeToBlackBy(leds + ring, n, fadeBy)]: every pixel is scaled by
    [255 - fadeBy]. *)
Definition fadeToBlackBy (ring n fadeBy : Z) : M P unit :=
  for_ 0 n (fun i =>
    c <- load (ring + i) ;; store (ring + i) (nscale8 P c (u8 (255 - fadeBy)))).

(** [FastLED.show()] *)
Definition show : M P unit := fun s =>
  Some (tt, mkMachine (leds s) (world s) (out s ++ [EvShow (leds s)])).

(** [vTaskDelay(ms / portTICK_PERIOD_MS)] *)
Definition delay (ms : Z) : M P unit := fun s =>
  Some (tt, mkMachine (leds s) (sleep P ms (world s)) (out s ++ [EvDelay ms])).

(** A call of a collaborator that reads, and may change, the world. *)
Definition ask (f : World P -> Z * World P) : M P Z := fun s =>
  let '(z, w) := f (world s) in Some (z, mkMachine (leds s) w (out s)).

(** An assignment of a [CHSV] to a pixel converts it. *)
Definition hsv (h s v : Z) : CRGB := hsv2rgb_rainbow P (chsv h s v).

(** *** [fill_ring_with_exact_rainbow] (lines 63-79) *)

Definition baseIncrement : F32.t := F32.of_double (F32.double_of_Z 5).
Definition exactStep (ringSize : Z) : F32.t :=
  F32.of_double (F32.ddiv (F32.double_of_Z 256) (F32.double_of_Z ringSize)).
Definition fractional (ringSize : Z) : F32.t :=
  F32.sub (exactStep ringSize) baseIncrement.

(** The updates of [hue] and [error] of one pass of the loop body
    (lines 72-77). *)
Definition rainbow_next (frac hue error : F32.t) : F32.t * F32.t :=
  let hue := F32.add hue baseIncrement in
  let error := F32.add error frac in
  if F32.dgeb (F32.to_double error) (F32.double_of_Z 1)
  then (F32.add hue (F32.of_Z 1),
        F32.of_double (F32.dsub (F32.to_double error) (F32.double_of_Z 1)))
  else (hue, error).

(** The loop of lines 70-78, [n] passes from index [i]. *)
Fixpoint rainbow_loop (n : nat) (ring i : Z) (frac hue error : F32.t)
  : M P unit :=
  match n with
  | O => ret tt
  | S n' =>
      store (ring + i) (hsv (F32.to_u8 hue) 255 255) ;;
      let '(hue, error) := rainbow_next frac hue error in
      rainbow_loop n' ring (i + 1) frac hue error
  end.

(** [ring] is the offset of the first pixel of the ring in [leds]. *)
Definition fill_ring_with_exact_rainbow (ring ringSize startHue : Z)
  : M P unit :=
  rainbow_loop (Z.to_nat ringSize) ring 0 (fractional ringSize)
               (F32.of_Z startHue) (F32.of_double (F32.double_of_Z 0)).
End Engine.

Arguments store {P} _ _ _.
Arguments load {P} _ _.
Arguments add_led {P} _ _.
Arguments for_loop {P} _ _ _.
Arguments for_ {P} _ _ _.
Arguments fill_solid {P} _ _ _.
Arguments fadeToBlackBy {P} _ _ _.
Arguments show {P}.
Arguments delay {P} _.
Arguments ask {P} _.
Arguments rainbow_loop {P} _ _ _ _ _ _.
Arguments fill_ring_with_exact_rainbow {P} _ _ _.

(** ** The cases of [ledRingTask]'s [switch] (lines 156-725)

    Each case takes the statics it uses and returns their new values. *)
Section Modes.
Context (P : Platform).
Abbreviation M := (M P).
Abbreviation hsv := (hsv P).

(** Case 0, rainbow cycle (lines 157-164). *)
Definition case0 (s : Rainbow) : M Rainbow :=
  fill_ring_with_exact_rainbow 0 RING_LEDS (startHueRing1 s) ;;
  fill_ring_with_exact_rainbow RING_LEDS RING_LEDS (startHueRing2 s) ;;
  let s := mkRainbow (u8 (startHueRing1 s + 1)) (u8 (startHueRing2 s + 1)) in
  show ;; delay 10 ;; ret s.

(** Case 1, solid blue (lines 166-170). *)
Definition case1 : M unit :=
  fill_solid 0 NUM_LEDS Blue ;; show ;; delay 50.

(** Case 2, flash white (lines 172-180). *)
Definition case2 (toggle : bool) : M bool :=
  fill_solid 0 NUM_LEDS (if toggle then White else Black) ;;
  let toggle := negb toggle in
  show ;; delay 100 ;; ret toggle.

(** Case 3, theatre chase (lines 182-194). *)
Definition case3 (theatreOffset : Z) : M Z :=
  fill_solid 0 NUM_LEDS Black ;;
  for_ 0 NUM_LEDS (fun i =>
    if (i +i theatreOffset) %i 3 =? 0 then store i White else ret tt) ;;
  let theatreOffset := u8 (theatreOffset + 1) in
  show ;; delay 50 ;; ret theatreOffset.

(** Case 4, side wipe (lines 196-237). *)
Definition case4 (s : Wipe) : M Wipe :=
  s <- (if negb (sideWipeInitialized s)
        then fill_solid 0 NUM_LEDS Black ;;
             show ;;
             let s := mkWipe 0 (wipeColor s) true in
             delay 50 ;; ret s
        else ret s) ;;
  let idx1 := wipeExp s in
  let idx2 := 47 -i wipeExp s in
  (if idx1 <=? idx2
   then store idx1 (wipeColor s) ;; store idx2 (wipeColor s)
   else ret tt) ;;
  let idx3 := 48 +i wipeExp s in
  let idx4 := 95 -i wipeExp s in
  (if idx3 <=? idx4
   then store idx3 (wipeColor s) ;; store idx4 (wipeColor s)
   else ret tt) ;;
  show ;; delay 15 ;;
  let e := wipeExp s +i 1 in
  if e >? 24
  then ret (mkWipe 0 (if CRGB_eqb (wipeColor s) Blue then Red else Blue)
                   (sideWipeInitialized s))
  else ret (mkWipe e (wipeColor s) (sideWipeInitialized s)).

(** Case 5, sparkle (lines 239-247). *)
Definition case5 : M unit :=
  fadeToBlackBy 0 NUM_LEDS 10 ;;
  pos <- ask (random P NUM_LEDS) ;;
  h <- ask (random P 256) ;;
  store pos (hsv h 200 255) ;;
  show ;; delay 30.

(** Case 6, sinelon (lines 249-266). *)
Definition case6 (gHue : Z) : M Z :=
  fadeToBlackBy 0 NUM_LEDS 20 ;;
  pos1 <- ask (beatsin8 P 10 0 (RING_LEDS - 1)) ;;
  add_led pos1 (hsv gHue 200 255) ;;
  pos2 <- ask (beatsin8 P 10 0 (RING_LEDS - 1)) ;;
  let pos2Mapped := u8 ((RING_LEDS - 1) -i pos2) in
  add_led (RING_LEDS +i pos2Mapped) (hsv (gHue +i 64) 200 255) ;;
  show ;; delay 20 ;;
  ret (u8 (gHue + 1)).

(** Case 7, juggle (lines 268-285). *)
Definition case7 (gHue : Z) : M Z :=
  fadeToBlackBy 0 NUM_LEDS 20 ;;
  for_ 0 4 (fun i =>
    pos <- ask (beatsin16 P (u16 (7 +i i)) 0 (RING_LEDS - 1) 0
                          (u16 (i *i 1000))) ;;
    add_led pos (hsv (gHue +i i *i 32) 200 255)) ;;
  for_ 0 4 (fun i =>
    pos <- ask (beatsin16 P (u16 (7 +i i)) 0 (RING_LEDS - 1) 0
                          (u16 (i *i 1000))) ;;
    let posMapped := u8 ((RING_LEDS - 1) -i pos) in
    add_led (RING_LEDS +i posMapped) (hsv (gHue +i 128 +i i *i 32) 200 255)) ;;
  show ;; delay 20 ;;
  ret (u8 (gHue + 1)).

(** Case 8, running lights (lines 287-303). *)
Definition case8 (s : Running) : M Running :=
  fadeToBlackBy 0 NUM_LEDS 50 ;;
  store (runIndex1 s) White ;;
  store (runIndex2 s +i RING_LEDS) White ;;
  show ;; delay 30 ;;
  ret (mkRunning ((runIndex1 s +i 1) %i RING_LEDS)
                 ((runIndex2 s +i 1) %i RING_LEDS)).

(** Case 9, laser sweep (lines 305-329). *)
Definition case9 (s : Laser) (gHue : Z) : M (Laser * Z) :=
  let bandWidth := 3 in
  fadeToBlackBy 0 NUM_LEDS 40 ;;
  for_ 0 bandWidth (fun i =>
    let pos := (laserPos1 s +i i) %i RING_LEDS in
    store pos (hsv gHue 255 255)) ;;
  for_ 0 bandWidth (fun i =>
    let pos := (laserPos2 s +i i) %i RING_LEDS in
    let mappedPos := (RING_LEDS - 1) -i pos in
    store (RING_LEDS +i mappedPos) (hsv (gHue +i 64) 255 255)) ;;
  show ;; delay 20 ;;
  ret (mkLaser ((laserPos1 s +i 1) %i RING_LEDS)
               ((laserPos2 s +i 1) %i RING_LEDS),
       u8 (gHue + 1)).

(** Case 10, strobe fade (lines 331-356); [bright] is the value read
    from [ringBrightness]. *)
Definition case10 (bright : Z) (s : Strobe) (gHue : Z) : M (Strobe * Z) :=
  s <- (if strobeOn s
        then fill_solid 0 NUM_LEDS (hsv gHue 255 bright) ;;
             show ;; delay 30 ;;
             let n := strobeCount s +i 1 in
             if n >? 2 then ret (mkStrobe false 0)
             else ret (mkStrobe (strobeOn s) n)
        else fadeToBlackBy 0 NUM_LEDS 80 ;;
             show ;; delay 30 ;;
             r <- ask (random8 P) ;;
             if r <? 50 then ret (mkStrobe true (strobeCount s))
             else ret s) ;;
  ret (s, u8 (gHue + 1)).

(** Case 11, orbiting comets (lines 358-377). *)
Definition case11 (s : Comets) (gHue : Z) : M (Comets * Z) :=
  fadeToBlackBy 0 NUM_LEDS 40 ;;
  store (cometPos1 s) (hsv gHue 255 255) ;;
  store (cometPos2 s) (hsv (gHue +i 32) 255 255) ;;
  let mapped1 := (RING_LEDS - 1) -i cometPos1 s in
  let mapped2 := (RING_LEDS - 1) -i cometPos2 s in
  store (RING_LEDS +i mapped1) (hsv (gHue +i 64) 255 255) ;;
  store (RING_LEDS +i mapped2) (hsv (gHue +i 96) 255 255) ;;
  show ;; delay 30 ;;
  ret (mkComets ((cometPos1 s +i 1) %i RING_LEDS)
                ((cometPos2 s +i 2) %i RING_LEDS),
       u8 (gHue + 1)).

(** Case 12, colour bounce (lines 379-403). *)
Definition case12 (s : Bounce) (gHue : Z) : M (Bounce * Z) :=
  fadeToBlackBy 0 NUM_LEDS 50 ;;
  store (bouncePos1 s) (hsv gHue 255 255) ;;
  let mappedBounce := (RING_LEDS - 1) -i bouncePos2 s in
  store (RING_LEDS +i mappedBounce) (hsv (gHue +i 64) 255 255) ;;
  show ;; delay 40 ;;
  let pos1 := bouncePos1 s +i bounceDir1 s in
  let dir1 := if (pos1 >=? RING_LEDS - 1) || (pos1 <=? 0)
              then int_neg (bounceDir1 s) else bounceDir1 s in
  let pos2 := bouncePos2 s +i bounceDir2 s in
  let dir2 := if (pos2 >=? RING_LEDS - 1) || (pos2 <=? 0)
              then int_neg (bounceDir2 s) else bounceDir2 s in
  ret (mkBounce pos1 dir1 pos2 dir2, u8 (gHue + 1)).

(** Case 13, psychedelic swirl (lines 405-422). *)
Definition case13 (bright : Z) (swirlX : Z) : M Z :=
  for_ 0 RING_LEDS (fun i =>
    let noise := inoise8 P (u16 (i *i 40 +i swirlX)) in
    store i (hsv noise 255 bright)) ;;
  for_ 0 RING_LEDS (fun i =>
    let noise := inoise8 P (u16 (i *i 40 +i swirlX)) in
    let mapped := (RING_LEDS - 1) -i i in
    store (RING_LEDS +i mapped) (hsv (noise +i 64) 255 bright)) ;;
  show ;; delay 20 ;;
  ret (u16 (swirlX + 30)).

(** Case 14, neon grid (lines 424-448). *)
Definition case14 (bright : Z) (gHue : Z) : M Z :=
  let stripeWidth := 4 in
  let offset := gHue %i (stripeWidth *i 2) in
  for_ 0 RING_LEDS (fun i =>
    if (i +i offset) %i (stripeWidth *i 2) <? stripeWidth
    then store i (hsv gHue 255 bright)
    else store i Black) ;;
  for_ 0 RING_LEDS (fun i =>
    let mapped := (RING_LEDS - 1) -i i in
    if (i +i offset) %i (stripeWidth *i 2) <? stripeWidth
    then store (RING_LEDS +i mapped) (hsv (gHue +i 64) 255 bright)
    else store (RING_LEDS +i mapped) Black) ;;
  show ;; delay 30 ;;
  ret (u8 (gHue + 1)).

(** Case 15, echo waves (lines 450-466). *)
Definition case15 (gHue : Z) : M Z :=
  for_ 0 RING_LEDS (fun i =>
    let bri := sin8 P (u8 (i *i 10 +i gHue)) in
    store i (hsv gHue 255 bri)) ;;
  for_ 0 RING_LEDS (fun i =>
    let bri := sin8 P (u8 (i *i 10 +i gHue)) in
    let mapped := (RING_LEDS - 1) -i i in
    store (RING_LEDS +i mapped) (hsv (gHue +i 96) 255 bri)) ;;
  show ;; delay 20 ;;
  ret (u8 (gHue + 1)).

(** Case 16, firefly dance (lines 468-486). *)
Definition case16 (gHue : Z) : M Z :=
  fadeToBlackBy 0 NUM_LEDS 30 ;;
  r <- ask (random8 P) ;;
  (if r <? 80
   then pos <- ask (random P RING_LEDS) ;;
        store pos (hsv gHue 200 255)
   else ret tt) ;;
  r <- ask (random8 P) ;;
  (if r <? 80
   then pos <- ask (random P RING_LEDS) ;;
        let mapped := (RING_LEDS - 1) -i pos in
        store (RING_LEDS +i mapped) (hsv (gHue +i 64) 200 255)
   else ret tt) ;;
  show ;; delay 30 ;;
  ret (u8 (gHue + 1)).

(** Case 17, spinning bar (lines 488-511). *)
Definition case17 (bright : Z) (s : Bar) (gHue : Z) : M (Bar * Z) :=
  let barWidth := 6 in
  fill_solid 0 RING_LEDS Black ;;
  for_ 0 barWidth (fun i =>
    let pos := (barPos1 s +i i) %i RING_LEDS in
    store pos (hsv gHue 255 bright)) ;;
  fill_solid RING_LEDS RING_LEDS Black ;;
  for_ 0 barWidth (fun i =>
    let pos := (barPos2 s +i i) %i RING_LEDS in
    let mapped := (RING_LEDS - 1) -i pos in
    store (RING_LEDS +i mapped) (hsv (gHue +i 64) 255 bright)) ;;
  show ;; delay 30 ;;
  ret (mkBar ((barPos1 s +i 1) %i RING_LEDS)
             ((barPos2 s +i 1) %i RING_LEDS),
       u8 (gHue + 1)).

(** Arduino's [constrain(amt, low, high)] macro. *)
Definition constrain (amt low high : Z) : Z :=
  if amt <? low then low else if amt >? high then high else amt.

(** The brightness of pixel [i] of a ripple centred at [center]
    (lines 517-521). *)
Definition ripple_bri (i center : Z) : Z :=
  let d := int_abs (i -i center) in
  let d := Z.min d (RING_LEDS -i d) in
  let bri := u8 (255 -i d *i (255 /i (RING_LEDS /i 2))) in
  u8 (constrain bri 0 255).

(** Case 18, liquid ripple (lines 513-540). *)
Definition case18 (s : Ripple) (gHue : Z) : M (Ripple * Z) :=
  for_ 0 RING_LEDS (fun i =>
    store i (hsv gHue 255 (ripple_bri i (rippleCenter1 s)))) ;;
  for_ 0 RING_LEDS (fun i =>
    let bri := ripple_bri i (rippleCenter2 s) in
    let mapped := (RING_LEDS - 1) -i i in
    store (RING_LEDS +i mapped) (hsv (gHue +i 128) 255 bri)) ;;
  show ;; delay 40 ;;
  ret (mkRipple ((rippleCenter1 s +i 1) %i RING_LEDS)
                ((rippleCenter2 s +i 1) %i RING_LEDS),
       u8 (gHue + 1)).

(** Case 19, full throttle pulse (lines 542-551). *)
Definition case19 (gHue : Z) : M Z :=
  pulseVal <- ask (beatsin8 P 30 220 255) ;;
  fill_solid 0 NUM_LEDS (hsv gHue 255 pulseVal) ;;
  show ;; delay 20 ;;
  ret (u8 (gHue + 1)).

(** Case 20, rave strobe (lines 553-563). *)
Definition case20 (gHue : Z) : M Z :=
  fill_solid 0 RING_LEDS (hsv gHue 255 255) ;;
  fill_solid RING_LEDS RING_LEDS (hsv (gHue +i 64) 255 255) ;;
  show ;; delay 20 ;;
  ret (u8 (gHue + 5)).

(** Case 21, thunder pulse (lines 565-579). *)
Definition case21 (pulseCounter : Z) (gHue : Z) : M (Z * Z) :=
  let baseBri := 220 in
  let flashBri := 255 in
  let bri := if pulseCounter %i 60 <? 5 then flashBri else baseBri in
  fill_solid 0 NUM_LEDS (hsv gHue 255 bri) ;;
  show ;; delay 30 ;;
  ret ((pulseCounter +i 1) %i 60, u8 (gHue + 1)).

(** The distance test of lines 591-593. *)
Definition shock_lit (i center shockExp : Z) : bool :=
  let d := int_abs (i -i center) in
  let d := if d >? RING_LEDS /i 2 then RING_LEDS -i d else d in
  d <=? shockExp.

(** The initialiser of a [static int x = random(RING_LEDS)], run on the
    first pass only. *)
Definition static_random (x : option Z) : M Z :=
  match x with
  | Some v => ret v
  | None => v <- ask (random P RING_LEDS) ;; ret (int32 v)
  end.

(** Case 22, shockwave (lines 581-618). *)
Definition case22 (s : Shock) (gHue : Z) : M (Shock * Z) :=
  shockCenter1 <- static_random (shockCenter1 s) ;;
  shockCenter2 <- static_random (shockCenter2 s) ;;
  fill_solid 0 NUM_LEDS Black ;;
  for_ 0 RING_LEDS (fun i =>
    if shock_lit i shockCenter1 (shockExp s)
    then store i (hsv gHue 255 255) else ret tt) ;;
  for_ 0 RING_LEDS (fun i =>
    if shock_lit i shockCenter2 (shockExp s)
    then let mapped := (RING_LEDS - 1) -i i in
         store (RING_LEDS +i mapped) (hsv (gHue +i 32) 255 255)
    else ret tt) ;;
  show ;; delay 10 ;;
  let e := shockExp s +i 3 in
  if e >? 12
  then c1 <- ask (random P RING_LEDS) ;;
       c2 <- ask (random P RING_LEDS) ;;
       ret (mkShock 0 (Some (int32 c1)) (Some (int32 c2)), u8 (gHue + 1))
  else ret (mkShock e (Some shockCenter1) (Some shockCenter2), gHue).

(** Case 23, bass drop (lines 620-634). *)
Definition case23 (dropCounter : Z) (gHue : Z) : M (Z * Z) :=
  (if dropCounter %i 4 =? 0
   then fill_solid 0 NUM_LEDS (hsv gHue 255 255)
   else fill_solid 0 NUM_LEDS Black) ;;
  show ;; delay 100 ;;
  ret (dropCounter +i 1, u8 (gHue + 3)).

(** Case 24, dynamic bar graph (lines 636-664). *)
Definition case24 (gHue : Z) : M Z :=
  let bars := 3 in
  let barWidth := RING_LEDS /i bars in
  for_ 0 bars (fun b =>
    height1 <- ask (random8_between P 1 (u8 (barWidth +i 1))) ;;
    height2 <- ask (random8_between P 1 (u8 (barWidth +i 1))) ;;
    for_ 0 barWidth (fun i =>
      let idx := b *i barWidth +i i in
      if i <? height1
      then store idx (hsv ((gHue +i b *i 40) %i 256) 255 255)
      else store idx Black) ;;
    for_ 0 barWidth (fun i =>
      let revIdx := b *i barWidth +i (barWidth -i 1 -i i) in
      if i <? height2
      then store (RING_LEDS +i revIdx)
                 (hsv ((gHue +i 128 +i b *i 40) %i 256) 255 255)
      else store (RING_LEDS +i revIdx) Black)) ;;
  show ;; delay 80 ;;
  ret (u8 (gHue + 1)).

(** Case 25, sonic slicer (lines 666-690). *)
Definition case25 (s : Slice) (gHue : Z) : M (Slice * Z) :=
  let sliceWidth := 6 in
  fadeToBlackBy 0 NUM_LEDS 80 ;;
  for_ 0 sliceWidth (fun i =>
    let pos := (slicePos1 s +i i) %i RING_LEDS in
    store pos (hsv gHue 255 255)) ;;
  for_ 0 sliceWidth (fun i =>
    let pos := (slicePos2 s +i i) %i RING_LEDS in
    let mapped := (RING_LEDS - 1) -i pos in
    store (RING_LEDS +i mapped) (hsv (gHue +i 64) 255 255)) ;;
  show ;; delay 10 ;;
  ret (mkSlice ((slicePos1 s +i 2) %i RING_LEDS)
               ((slicePos2 s +i 2) %i RING_LEDS),
       u8 (gHue + 2)).

(** Case 26, radial surge (lines 692-718). *)
Definition case26 (s : Gap) (gHue : Z) : M (Gap * Z) :=
  let gapWidth := 4 in
  fill_solid 0 RING_LEDS (hsv gHue 255 255) ;;
  fill_solid RING_LEDS RING_LEDS (hsv (gHue +i 64) 255 255) ;;
  for_ 0 gapWidth (fun i =>
    let pos := (gapPos1 s +i i) %i RING_LEDS in
    store pos Black) ;;
  for_ 0 gapWidth (fun i =>
    let pos := (gapPos2 s +i i) %i RING_LEDS in
    let mapped := (RING_LEDS - 1) -i pos in
    store (RING_LEDS +i mapped) Black) ;;
  show ;; delay 50 ;;
  ret (mkGap ((gapPos1 s +i 3) %i RING_LEDS)
             ((gapPos2 s +i 3) %i RING_LEDS),
       u8 (gHue + 1)).

(** The [default] label (lines 720-724). *)
Definition case_default : M unit :=
  fill_solid 0 NUM_LEDS Black ;; show ;; delay 50.

(** One pass of the [while (1)] body of [ledRingTask]: [mode] and
    [bright] are the values read from the volatile globals
    [currentMode] and [ringBrightness]. *)
Definition ledRingTask_iter (mode bright : Z) (st : Statics) : M Statics :=
  match mode with
  | 0 => s <- case0 (rainbow st) ;; ret (set_rainbow s st)
  | 1 => case1 ;; ret st
  | 2 => t <- case2 (toggle st) ;; ret (set_toggle t st)
  | 3 => o <- case3 (theatreOffset st) ;; ret (set_theatreOffset o st)
  | 4 => s <- case4 (wipe st) ;; ret (set_wipe s st)
  | 5 => case5 ;; ret st
  | 6 => g <- case6 (gHue st) ;; ret (set_gHue g st)
  | 7 => g <- case7 (gHue st) ;; ret (set_gHue g st)
  | 8 => s <- case8 (running st) ;; ret (set_running s st)
  | 9 => r <- case9 (laser st) (gHue st) ;;
         ret (set_gHue (snd r) (set_laser (fst r) st))
  | 10 => r <- case10 bright (strobe st) (gHue st) ;;
          ret (set_gHue (snd r) (set_strobe (fst r) st))
  | 11 => r <- case11 (comets st) (gHue st) ;;
          ret (set_gHue (snd r) (set_comets (fst r) st))
  | 12 => r <- case12 (bounce st) (gHue st) ;;
          ret (set_gHue (snd r) (set_bounce (fst r) st))
  | 13 => x <- case13 bright (swirlX st) ;; ret (set_swirlX x st)
  | 14 => g <- case14 bright (gHue st) ;; ret (set_gHue g st)
  | 15 => g <- case15 (gHue st) ;; ret (set_gHue g st)
  | 16 => g <- case16 (gHue st) ;; ret (set_gHue g st)
  | 17 => r <- case17 bright (bar st) (gHue st) ;;
          ret (set_gHue (snd r) (set_bar (fst r) st))
  | 18 => r <- case18 (ripple st) (gHue st) ;;
          ret (set_gHue (snd r) (set_ripple (fst r) st))
  | 19 => g <- case19 (gHue st) ;; ret (set_gHue g st)
  | 20 => g <- case20 (gHue st) ;; ret (set_gHue g st)
  | 21 => r <- case21 (pulseCounter st) (gHue st) ;;
          ret (set_gHue (snd r) (set_pulseCounter (fst r) st))
  | 22 => r <- case22 (shock st) (gHue st) ;;
          ret (set_gHue (snd r) (set_shock (fst r) st))
  | 23 => r <- case23 (dropCounter st) (gHue st) ;;
          ret (set_gHue (snd r) (set_dropCounter (fst r) st))
  | 24 => g <- case24 (gHue st) ;; ret (set_gHue g st)
  | 25 => r <- case25 (slice st) (gHue st) ;;
          ret (set_gHue (snd r) (set_slice (fst r) st))
  | 26 => r <- case26 (gap st) (gHue st) ;;
          ret (set_gHue (snd r) (set_gap (fst r) st))
  | _ => case_default ;; ret st
  end.

(** The code of [ledRingTask] before its loop (lines 147-149), run once
    when the task starts. *)
Definition ledRingTask_entry (mode : Z) (st : Statics) : Statics :=
  if negb (mode =? 4)
  then set_wipe (mkWipe (wipeExp (wipe st)) (wipeColor (wipe st)) false) st
  else st.
End Modes.

(** A schedule of render passes: the mode read by each successive pass of
    the loop, at a fixed brightness. *)
Fixpoint run_modes (P : Platform) (modes : list Z) (bright : Z) (st : Statics)
  : M P Statics :=
  match modes with
  | [] => ret st
  | m :: ms => st' <- ledRingTask_iter P m bright st ;; run_modes P ms bright st'
  end.

(** ** The whole firmware between two task switches *)

Record System (P : Platform) := mkSystem {
  config : Config;          (* currentMode, ringBrightness *)
  lastPins : Pins;          (* buttonTask's last...State *)
  ringStarted : bool;       (* has ledRingTask reached its loop *)
  statics : Statics;
  machine : Machine P
}.
Arguments mkSystem {P} _ _ _ _ _.
Arguments config {P} _.
Arguments lastPins {P} _.
Arguments ringStarted {P} _.
Arguments statics {P} _.
Arguments machine {P} _.

(** State at the end of [setup()]: the global array [leds] is
    zero-initialised. *)
Definition boot {P} (w : World P) : System P :=
  mkSystem initConfig initPins false initStatics
           (mkMachine (replicate (Z.to_nat NUM_LEDS) Black) w []).

(** The system after a [/set] request. *)
Definition sys_handleSet {P} (mode brightness : option Z) (s : System P)
  : System P :=
  mkSystem (handleSet mode brightness (config s)) (lastPins s)
           (ringStarted s) (statics s) (machine s).

(** The system after one pass of the button loop reading [now]. *)
Definition sys_buttons {P} (now : Pins) (s : System P) : System P :=
  mkSystem (fst (buttonTask_iter now (lastPins s) (config s)))
           (snd (buttonTask_iter now (lastPins s) (config s)))
           (ringStarted s) (statics s) (machine s).

(** The system after the render task has run up to its loop. *)
Definition sys_ring_entry {P} (s : System P) : System P :=
  mkSystem (config s) (lastPins s) true
           (ledRingTask_entry (currentMode (config s)) (statics s))
           (machine s).

(** The system after one pass of the render loop. *)
Definition sys_ring_iter {P} (s : System P) : option (System P) :=
  match ledRingTask_iter P (currentMode (config s)) (ringBrightness (config s))
                         (statics s) (machine s) with
  | Some (st', m') => Some (mkSystem (config s) (lastPins s) true st' m')
  | None => None
  end.

(** The system after the clock and the generators moved to [w]. *)
Definition sys_world {P} (w : World P) (s : System P) : System P :=
  mkSystem (config s) (lastPins s) (ringStarted s) (statics s)
           (mkMachine (leds (machine s)) w (out (machine s))).

(** One step of one task: a [/set] request, a pass of the button loop, the
    start of the render task, a pass of the render loop; the clock and the
    generators may move between two steps. A request and a button pass are
    taken whole here, which is what the render task's own state (statics,
    pixels, output) depends on; [wstep] takes the two writers of the
    globals access by access. *)
Inductive step {P} : System P -> System P -> Prop :=
| step_handleSet s mode brightness :
    step s (sys_handleSet mode brightness s)
| step_buttons s now :
    step s (sys_buttons now s)
| step_ring_entry s :
    ringStarted s = false -> step s (sys_ring_entry s)
| step_ring_iter s s' :
    ringStarted s = true -> sys_ring_iter s = Some s' -> step s s'
| step_world s w :
    step s (sys_world w s).

Inductive reachable {P} : System P -> Prop :=
| reach_boot w : reachable (boot w)
| reach_step s s' : reachable s -> step s s' -> reachable s'.

(** ** Invariants *)

Definition config_ok (c : Config) : Prop :=
  0 <= currentMode c <= 26 /\ 0 <= ringBrightness c <= 255.

Definition mach_ok {P} (m : Machine P) : Prop :=
  length (leds m) = Z.to_nat NUM_LEDS /\ Forall crgb_ok (leds m).

Definition pos_ok (z : Z) : Prop := 0 <= z < RING_LEDS.

Definition bounce_ok (pos dir : Z) : Prop :=
  0 <= pos <= 47 /\ (dir = 1 \/ dir = -1) /\
  (pos = 0 -> dir = 1) /\ (pos = 47 -> dir = -1).

Definition wipe_ok (w : Wipe) : Prop :=
  0 <= wipeExp w <= 24 /\ (wipeColor w = Blue \/ wipeColor w = Red).

Record statics_ok (st : Statics) : Prop := mkStaticsOK {
  ok_wipe : wipe_ok (wipe st);
  ok_run1 : pos_ok (runIndex1 (running st));
  ok_run2 : pos_ok (runIndex2 (running st));
  ok_laser1 : pos_ok (laserPos1 (laser st));
  ok_laser2 : pos_ok (laserPos2 (laser st));
  ok_comet1 : pos_ok (cometPos1 (comets st));
  ok_comet2 : pos_ok (cometPos2 (comets st));
  ok_bounce1 : bounce_ok (bouncePos1 (bounce st)) (bounceDir1 (bounce st));
  ok_bounce2 : bounce_ok (bouncePos2 (bounce st)) (bounceDir2 (bounce st));
  ok_bar1 : pos_ok (barPos1 (bar st));
  ok_bar2 : pos_ok (barPos2 (bar st));
  ok_slice1 : pos_ok (slicePos1 (slice st));
  ok_slice2 : pos_ok (slicePos2 (slice st));
  ok_gap1 : pos_ok (gapPos1 (gap st));
  ok_gap2 : pos_ok (gapPos2 (gap st))
}.

Definition system_ok {P} (s : System P) : Prop :=
  config_ok (config s) /\ statics_ok (statics s) /\ mach_ok (machine s).

(** Termination with a result [a] satisfying [Q], from every well-formed
    machine and leaving one. *)
Definition safe {P A} (m : M P A) (Q : A -> Prop) : Prop :=
  forall s, mach_ok s ->
    exists a s', m s = Some (a, s') /\ mach_ok s' /\ Q a.

(** ** A concrete platform

    The world is a counter that every call advances; results are reduced
    into the requested range. A colour keeps its three HSV bytes
    unconverted, so that the array shows the hue each pixel was given. *)
Definition demoPlatform : Platform :=
  mkPlatform Z
    (fun n w => (w mod n, w + 1))
    (fun w => (w mod 256, w + 1))
    (fun lo lim w => (lo + w mod (lim - lo), w + 1))
    (fun _ lo hi w => (lo + w mod (hi - lo + 1), w + 1))
    (fun _ lo hi _ _ w => (lo + w mod (hi - lo + 1), w + 1))
    (fun ms w => w + ms)
    (fun c => mkCRGB (u8 (hue c)) (u8 (sat c)) (u8 (val c)))
    (fun c k => mkCRGB (red c * u8 k / 256) (green c * u8 k / 256)
                       (blue c * u8 k / 256))
    (fun x => u8 x)
    (fun x => u8 x).

(** The hues that the loop of [fill_ring_with_exact_rainbow] passes to
    [CHSV], in order. *)
Fixpoint rainbow_hues (n : nat) (frac hue error : F32.t) : list Z :=
  match n with
  | O => []
  | S n' =>
      F32.to_u8 hue ::
      (let '(hue, error) := rainbow_next frac hue error in
       rainbow_hues n' frac hue error)
  end.

Definition exact_rainbow_hues (ringSize startHue : Z) : list Z :=
  rainbow_hues (Z.to_nat ringSize) (fractional ringSize)
               (F32.of_Z startHue) (F32.of_double (F32.double_of_Z 0)).

(** Base step 5 and one more unit on every third pixel. *)
Definition hue_at (startHue i : Z) : Z := u8 (startHue + 5 * i + i / 3).

(** [leds] with the [n] pixels from [ring] replaced by the colours [cs]. *)
Fixpoint write_at (i : nat) (cs : list CRGB) (l : list CRGB) : list CRGB :=
  match cs with
  | [] => l
  | c :: cs' => write_at (S i) cs' (<[i := c]> l)
  end.

(** ** Definitions used by the statements below *)

Definition Zrange (n : nat) : list Z := map Z.of_nat (seq 0 n).

Fixpoint Zlist_eqb (l1 l2 : list Z) : bool :=
  match l1, l2 with
  | [], [] => true
  | a :: l1', b :: l2' => (a =? b) && Zlist_eqb l1' l2'
  | _, _ => false
  end.

(** The float loop gives [hue_at] at each of the 48 pixels. *)
Definition hues_check (startHue : Z) : bool :=
  Zlist_eqb (exact_rainbow_hues 48 startHue) (map (hue_at startHue) (Zrange 48)).

(** Consecutive hues are 5 apart, 6 at every third pixel. *)
Definition gap_check (startHue i : Z) : bool :=
  (hue_at startHue (i + 1) - hue_at startHue i) mod 256
  =? (if (i + 1) mod 3 =? 0 then 6 else 5).

(** The distance from the starting hue, going up the hue wheel. *)
Definition hue_offset (startHue i : Z) : Z :=
  (hue_at startHue i - startHue) mod 256.

Definition offset_check (startHue i : Z) : bool :=
  hue_offset startHue i =? 5 * i + i / 3.

(** The statics that one pass of case 4 leaves (lines 199-205 and
    230-235), whatever the array holds. *)
Definition wipe_next (w : Wipe) : Wipe :=
  let w := if sideWipeInitialized w then w else mkWipe 0 (wipeColor w) true in
  let e := wipeExp w +i 1 in
  if e >? 24
  then mkWipe 0 (if CRGB_eqb (wipeColor w) Blue then Red else Blue)
              (sideWipeInitialized w)
  else mkWipe e (wipeColor w) (sideWipeInitialized w).

(** The side-wipe invariant: counter within a cycle, colour one of the
    two, and the counter still 0 while the flag has never been set. *)
Definition wipe_inv (w : Wipe) : Prop :=
  wipe_ok w /\ (sideWipeInitialized w = false -> wipeExp w = 0).

(** The render task starts, mode 4 is requested and rendered three times,
    mode 0 is requested and rendered once. *)
Definition back_to_mode0 {P} (w : World P) : option (System P) :=
  s1 ← sys_ring_iter (sys_handleSet (Some 4) None (sys_ring_entry (boot w)));
  s2 ← sys_ring_iter s1;
  s3 ← sys_ring_iter s2;
  sys_ring_iter (sys_handleSet (Some 0) None s3).

(** ** [gammaCorrect] (lines 56-60)

    [pow] is the C library's, on doubles. *)
Definition dmul : F32.t -> F32.t -> F32.t := SFmul F32.dprec F32.demax.

Definition gammaCorrect (pow : F32.t -> F32.t -> F32.t) (value : Z) : Z :=
  let normalized :=
    F32.of_double (F32.ddiv (F32.double_of_Z value) (F32.double_of_Z 255)) in
  let normalized :=
    F32.of_double
      (pow (F32.to_double normalized)
           (F32.ddiv (F32.double_of_Z 22) (F32.double_of_Z 10))) in
  F32.to_u8 (dmul (F32.to_double normalized) (F32.double_of_Z 255)).

(** ** [statusLEDTask] (lines 732-779) *)

Record StatusStatics := mkStatus {
  statusBrightness : Z;
  increasing : bool;
  statusHue : Z;
  pulseRestarted : bool;
  redState : bool
}.

Definition initStatus : StatusStatics := mkStatus 0 true 0 false false.

Definition NUM_PARTITIONS : Z := 12.
Definition hueStep : Z := u8 (256 /i NUM_PARTITIONS).
Definition brightnessStep : Z := 3.

(** The heartbeat update of lines 752-769. *)
Definition heartbeat (s : StatusStatics) : StatusStatics :=
  if increasing s
  then let b := statusBrightness s +i brightnessStep in
       if b >=? 255
       then mkStatus 255 false (statusHue s) false (redState s)
       else mkStatus b (increasing s) (statusHue s) false (redState s)
  else let b := statusBrightness s -i brightnessStep in
       if b <=? 0
       then if negb (pulseRestarted s)
            then mkStatus 0 true (u8 (statusHue s + hueStep)) true (redState s)
            else mkStatus 0 true (statusHue s) (pulseRestarted s) (redState s)
       else mkStatus b (increasing s) (statusHue s) (pulseRestarted s)
                     (redState s).

(** One pass of the loop: [stations] is [WiFi.softAPgetStationNum()].
    The result is the new statics, the colour handed to
    [statusLED.setPixelColor] and the delay in milliseconds. *)
Definition statusLEDTask_iter (P : Platform) (pow : F32.t -> F32.t -> F32.t)
    (stations : Z) (s : StatusStatics) : StatusStatics * CRGB * Z :=
  if stations =? 0
  then let r := negb (redState s) in
       (mkStatus (statusBrightness s) (increasing s) (statusHue s)
                 (pulseRestarted s) r,
        if r then mkCRGB 255 0 0 else mkCRGB 0 0 0,
        200)
  else let s := heartbeat s in
       let correctedBrightness := gammaCorrect pow (u8 (statusBrightness s)) in
       (s, hsv2rgb_rainbow P (chsv (statusHue s) 255 correctedBrightness), 10).

(** The statics after the passes whose station counts are [ns], in order. *)
Fixpoint status_run (P : Platform) (pow : F32.t -> F32.t -> F32.t)
    (ns : list Z) (s : StatusStatics) : StatusStatics :=
  match ns with
  | [] => s
  | n :: ns' => status_run P pow ns' (fst (fst (statusLEDTask_iter P pow n s)))
  end.

(** The heartbeat invariant: brightness a multiple of 3 within [0,255], hue
    a byte, and no restart pending while the brightness falls. *)
Definition status_ok (s : StatusStatics) : Prop :=
  0 <= statusBrightness s <= 255 /\ statusBrightness s mod 3 = 0
  /\ 0 <= statusHue s <= 255
  /\ (increasing s = false -> pulseRestarted s = false).

(** The number of passes in [ns] made with a station connected, and
    whether the number of the others is odd. *)
Definition connected_passes (ns : list Z) : nat :=
  length (List.filter (fun n => negb (n =? 0)) ns).
Definition odd_disconnected (ns : list Z) : bool :=
  Nat.odd (length (List.filter (fun n => n =? 0) ns)).

Definition set_redState (r : bool) (s : StatusStatics) : StatusStatics :=
  mkStatus (statusBrightness s) (increasing s) (statusHue s)
           (pulseRestarted s) r.

(** ** What a pass of the render loop lets out *)

(** [m] neither shows nor waits. *)
Definition quiet {P A} (m : M P A) : Prop :=
  forall s a s', m s = Some (a, s') -> out s' = out s.

(** [m] neither shows nor waits nor writes a pixel. *)
Definition still {P A} (m : M P A) : Prop :=
  forall s a s', m s = Some (a, s') -> out s' = out s /\ leds s' = leds s.

(** [m] shows once, the array as it leaves it, and then waits [d] ms. *)
Definition shows_once {P A} (d : Z) (m : M P A) : Prop :=
  forall s a s', m s = Some (a, s') ->
                 out s' = out s ++ [EvShow (leds s'); EvDelay d].

(** The [vTaskDelay] argument of each case, in milliseconds. *)
Definition mode_delay (mode : Z) : Z :=
  match mode with
  | 0 => 10 | 1 => 50 | 2 => 100 | 3 => 50 | 4 => 15 | 5 => 30 | 6 => 20
  | 7 => 20 | 8 => 30 | 9 => 20 | 10 => 30 | 11 => 30 | 12 => 40 | 13 => 20
  | 14 => 30 | 15 => 20 | 16 => 30 | 17 => 30 | 18 => 40 | 19 => 20
  | 20 => 20 | 21 => 30 | 22 => 10 | 23 => 100 | 24 => 80 | 25 => 10
  | 26 => 50 | _ => 50
  end.

(** By how much a case advances the shared hue counter [gHue]; case 22
    advances it only when its wave restarts. *)
Definition gHue_step (mode : Z) : Z :=
  match mode with
  | 20 => 5 | 23 => 3 | 25 => 2
  | 6 | 7 | 9 | 10 | 11 | 12 | 14 | 15 | 16 | 17 | 18 | 19 | 21 | 24 | 26 => 1
  | _ => 0
  end.

(** ** Invariants of the per-ring counters *)

(** The two rings' counters move together: equal in the modes that keep
    one per ring, and comet 2 at twice comet 1's position modulo 48. *)
Definition paired (st : Statics) : Prop :=
  startHueRing1 (rainbow st) = startHueRing2 (rainbow st)
  /\ runIndex1 (running st) = runIndex2 (running st)
  /\ laserPos1 (laser st) = laserPos2 (laser st)
  /\ bouncePos1 (bounce st) = bouncePos2 (bounce st)
  /\ bounceDir1 (bounce st) = bounceDir2 (bounce st)
  /\ barPos1 (bar st) = barPos2 (bar st)
  /\ rippleCenter1 (ripple st) = rippleCenter2 (ripple st)
  /\ slicePos1 (slice st) = slicePos2 (slice st)
  /\ gapPos1 (gap st) = gapPos2 (gap st)
  /\ 0 <= cometPos1 (comets st) < 48
  /\ cometPos2 (comets st) = (2 * cometPos1 (comets st)) mod 48.

(** The ranges the counters without an index role stay in. *)
Definition counters_ok (st : Statics) : Prop :=
  0 <= startHueRing1 (rainbow st) <= 255
  /\ 0 <= startHueRing2 (rainbow st) <= 255
  /\ 0 <= theatreOffset st <= 255
  /\ 0 <= gHue st <= 255
  /\ 0 <= swirlX st <= 65535
  /\ 0 <= pulseCounter st <= 59
  /\ 0 <= strobeCount (strobe st) <= 2
  /\ (0 <= shockExp (shock st) <= 12 /\ shockExp (shock st) mod 3 = 0)
  /\ 0 <= rippleCenter1 (ripple st) <= 47
  /\ 0 <= rippleCenter2 (ripple st) <= 47
  /\ -2147483648 <= dropCounter st < 2147483648.

(** The state after [setup()], the start of the render task and a request
    for [mode], on the concrete platform. *)
Definition demo_start (mode : Z) : System demoPlatform :=
  sys_handleSet (Some mode) None (sys_ring_entry (boot (P := demoPlatform) 0)).

(** ** Checks on the hue loop *)

Definition sf_eqb (x y : spec_float) : bool :=
  match x, y with
  | S754_zero a, S754_zero b => Bool.eqb a b
  | S754_infinity a, S754_infinity b => Bool.eqb a b
  | S754_nan, S754_nan => true
  | S754_finite a m e, S754_finite b n f =>
      Bool.eqb a b && (m =? n)%positive && (e =? f)
  | _, _ => false
  end.

(** On the integer [h] the float additions of the loop are exact. *)
Definition int_float_check (h : Z) : bool :=
  sf_eqb (F32.add (F32.of_Z h) baseIncrement) (F32.of_Z (h + 5))
  && sf_eqb (F32.add (F32.of_Z h) (F32.of_Z 1)) (F32.of_Z (h + 1))
  && (F32.trunc (F32.of_Z h) =? h).

(** ** Loops of conditional stores *)

(** The array after [for (j = i; j < i + n; j++) if (b j) leds[g j] = c j]. *)
Fixpoint paint (n : nat) (i : Z) (b : Z -> bool) (g : Z -> Z) (c : Z -> CRGB)
  (l : list CRGB) : list CRGB :=
  match n with
  | O => l
  | S n' =>
      paint n' (i + 1) b g c (if b i then <[Z.to_nat (g i) := c i]> l else l)
  end.

(** The pixels of both rings that [k] passes of the side wipe, counted
    from 0, have painted. *)
Definition wipe_painted (e k j : Z) : bool :=
  ((e <=? j mod 48) && (j mod 48 <? e + k))
  || ((47 - (e + k) <? j mod 48) && (j mod 48 <=? 47 - e)).

(** ** The bouncing dot *)

(** The move of one ring's position and direction at the end of case 12
    (lines 393-396, 397-400). *)
Definition bounce_move (pd : Z * Z) : Z * Z :=
  let pos := fst pd +i snd pd in
  (pos, if (pos >=? RING_LEDS - 1) || (pos <=? 0)
        then int_neg (snd pd) else snd pd).

Definition bounce_next (s : Bounce) : Bounce :=
  let r1 := bounce_move (bouncePos1 s, bounceDir1 s) in
  let r2 := bounce_move (bouncePos2 s, bounceDir2 s) in
  mkBounce (fst r1) (snd r1) (fst r2) (snd r2).

Definition pair_eqb (a b : Z * Z) : bool :=
  (fst a =? fst b) && (snd a =? snd b).

(** ** Which pixels a computation settles *)

(** Run on two machines with the same world whose arrays agree on the
    pixels in [S], [m] gives the same result and the same world, and
    arrays that agree on the pixels in [S']. *)
Definition covers {P A} (S : Z -> Prop) (m : M P A) (S' : Z -> Prop) : Prop :=
  forall s1 s2 a s1',
    world s1 = world s2 ->
    length (leds s1) = length (leds s2) ->
    (forall k, S k -> leds s1 !! Z.to_nat k = leds s2 !! Z.to_nat k) ->
    m s1 = Some (a, s1') ->
    exists s2',
      m s2 = Some (a, s2')
      /\ world s1' = world s2'
      /\ length (leds s1') = length (leds s2')
      /\ forall k, S' k -> leds s1' !! Z.to_nat k = leds s2' !! Z.to_nat k.

(** [m] reads no pixel. *)
Definition keeps {P A} (m : M P A) : Prop := forall S, covers S m S.

Definition all96 (k : Z) : Prop := 0 <= k < 96.

(** The cases that store to every pixel before they show the array; the
    others fade or overpaint what the array holds. *)
Definition repaints (mode : Z) : bool :=
  match mode with
  | 4 | 5 | 6 | 7 | 8 | 9 | 10 | 11 | 12 | 16 | 25 => false
  | _ => true
  end.

(** ** Distances on a ring *)

(** The number of pixels between [i] and [c] the short way round a ring
    of 48. *)
Definition ring_dist (i c : Z) : Z :=
  Z.min (Z.abs (i - c)) (48 - Z.abs (i - c)).

Definition lit_count (c e : Z) : nat :=
  length (List.filter (fun i => shock_lit i c e) (Zrange 48)).

(** ** Well-formed output *)

(** A trace made of frames of 96 pixels, each followed by a wait of
    between 10 and 100 ms. *)
Inductive paced : list Event -> Prop :=
| paced_nil : paced []
| paced_cons f d t :
    length f = Z.to_nat NUM_LEDS -> Forall crgb_ok f -> 10 <= d <= 100 ->
    paced t -> paced (EvShow f :: EvDelay d :: t).

(** ** The two writers of the globals, access by access

    [handleSet] runs in the web-server task and the four handlers in the
    button task, both at priority 1 on the one core, so a task switch can
    fall between any two accesses to the volatile globals [currentMode]
    and [ringBrightness]. Here every read and every write of a global, and
    the call of [FastLED.setBrightness], is a step of its own; the value a
    task has read and not yet used is part of its position. *)

(** Where the web task stands in [handleSet] (lines 103-116). *)
Inductive WebPc :=
| WIdle                                   (* outside [handleSet] *)
| WMode (modeVal : Z) (brightness : option Z)
                                          (* l.107, before the store *)
| WBright (brightVal : Z)                 (* l.113, before the store *)
| WRead                                   (* l.114, before the read *)
| WCall (t : Z).                          (* l.114, before the call *)

(** The brightness part of [handleSet] (lines 110-112): the guard is on
    the local [brightVal]. *)
Definition web_bright (brightness : option Z) : WebPc :=
  match brightness with
  | Some brightVal =>
      if (0 <=? brightVal) && (brightVal <=? 255) then WBright brightVal
      else WIdle
  | None => WIdle
  end.

(** Entry of [handleSet] with the two arguments after [toInt()]
    (lines 104-106). *)
Definition web_start (mode brightness : option Z) : WebPc :=
  match mode with
  | Some modeVal =>
      if (0 <=? modeVal) && (modeVal <? numModes) then WMode modeVal brightness
      else web_bright brightness
  | None => web_bright brightness
  end.

(** One access of the web task. *)
Definition web_step (pc : WebPc) (c : Config) : WebPc * Config :=
  match pc with
  | WIdle => (WIdle, c)
  | WMode modeVal brightness => (web_bright brightness, set_currentMode modeVal c)
  | WBright brightVal => (WRead, set_ringBrightness brightVal c)
  | WRead => (WCall (ringBrightness c), c)
  | WCall t => (WIdle, FastLED_setBrightness t c)
  end.

Inductive Handler := HModeInc | HModeDec | HBrightInc | HBrightDec.

(** Where the button task stands in a handler; [t] is the value it has
    read from the global. *)
Inductive BtnPc :=
| BIdle                  (* outside the handlers *)
| BIncStore (t : Z)      (* l.799, before the store of [(t + 1) % numModes] *)
| BDecStore (t : Z)      (* l.806, before the store of [t - 1] *)
| BDecTest               (* l.807, before the read *)
| BDecFix (t : Z)        (* l.807-808, before the store of [numModes - 1] *)
| BUpStore (t : Z)       (* l.815, before the store of [t + 10] *)
| BUpTest                (* l.816, before the read *)
| BUpFix (t : Z)         (* l.816-817, before the store of 255 *)
| BUpRead                (* l.818, before the read *)
| BUpCall (t : Z)        (* l.818, before the call *)
| BDownStore (t : Z)     (* l.825, before the store of [t - 10] *)
| BDownTest              (* l.826, before the read *)
| BDownFix (t : Z)       (* l.826-827, before the store of 0 *)
| BDownRead              (* l.828, before the read *)
| BDownCall (t : Z).     (* l.828, before the call *)

(** The first access of a handler: the read of the global it updates. *)
Definition btn_begin (h : Handler) (c : Config) : BtnPc :=
  match h with
  | HModeInc => BIncStore (currentMode c)
  | HModeDec => BDecStore (currentMode c)
  | HBrightInc => BUpStore (ringBrightness c)
  | HBrightDec => BDownStore (ringBrightness c)
  end.

(** One access of the button task inside a handler. *)
Definition btn_step (pc : BtnPc) (c : Config) : BtnPc * Config :=
  match pc with
  | BIdle => (BIdle, c)
  | BIncStore t => (BIdle, set_currentMode ((t +i 1) %i numModes) c)
  | BDecStore t => (BDecTest, set_currentMode (t -i 1) c)
  | BDecTest => (BDecFix (currentMode c), c)
  | BDecFix t =>
      (BIdle, if t <? 0 then set_currentMode (numModes -i 1) c else c)
  | BUpStore t => (BUpTest, set_ringBrightness (t +i 10) c)
  | BUpTest => (BUpFix (ringBrightness c), c)
  | BUpFix t => (BUpRead, if t >? 255 then set_ringBrightness 255 c else c)
  | BUpRead => (BUpCall (ringBrightness c), c)
  | BUpCall t => (BIdle, FastLED_setBrightness t c)
  | BDownStore t => (BDownTest, set_ringBrightness (t -i 10) c)
  | BDownTest => (BDownFix (ringBrightness c), c)
  | BDownFix t => (BDownRead, if t <? 0 then set_ringBrightness 0 c else c)
  | BDownRead => (BDownCall (ringBrightness c), c)
  | BDownCall t => (BIdle, FastLED_setBrightness t c)
  end.

(** The handlers that one pass of the button loop runs, in source order
    (lines 798, 805, 814, 824): those whose pin shows a falling edge. *)
Definition handlers_of (now last : Pins) : list Handler :=
  (if pressed (pinModeInc now) (pinModeInc last) then [HModeInc] else [])
  ++ (if pressed (pinModeDec now) (pinModeDec last) then [HModeDec] else [])
  ++ (if pressed (pinBrightInc now) (pinBrightInc last)
      then [HBrightInc] else [])
  ++ (if pressed (pinBrightDec now) (pinBrightDec last)
      then [HBrightDec] else []).

(** The globals and the positions of the two writers; [todo] are the
    handlers that the current pass of the button loop has still to run and
    [seen] the pin levels it has read. *)
Record Writers := mkWriters {
  globals : Config;
  web : WebPc;
  btn : BtnPc;
  todo : list Handler;
  seen : Pins
}.

Definition initWriters : Writers :=
  mkWriters initConfig WIdle BIdle [] initPins.

(** A [/set] request arrives. *)
Definition w_request (mode brightness : option Z) (s : Writers) : Writers :=
  mkWriters (globals s) (web_start mode brightness) (btn s) (todo s) (seen s).

(** The web task makes its next access. *)
Definition w_web (s : Writers) : Writers :=
  mkWriters (snd (web_step (web s) (globals s)))
            (fst (web_step (web s) (globals s))) (btn s) (todo s) (seen s).

(** The button task starts a pass of its loop and reads the pins
    (lines 792-795). *)
Definition w_pass (now : Pins) (s : Writers) : Writers :=
  mkWriters (globals s) (web s) BIdle (handlers_of now (seen s)) now.

(** The button task enters the next handler of the pass. *)
Definition w_begin (s : Writers) : Writers :=
  match todo s with
  | h :: rest =>
      mkWriters (globals s) (web s) (btn_begin h (globals s)) rest (seen s)
  | [] => s
  end.

(** The button task makes its next access. *)
Definition w_btn (s : Writers) : Writers :=
  mkWriters (snd (btn_step (btn s) (globals s))) (web s)
            (fst (btn_step (btn s) (globals s))) (todo s) (seen s).

(** One access of one of the two tasks. *)
Inductive wstep : Writers -> Writers -> Prop :=
| ws_request s mode brightness :
    web s = WIdle -> wstep s (w_request mode brightness s)
| ws_web s :
    web s <> WIdle -> wstep s (w_web s)
| ws_pass s now :
    btn s = BIdle -> todo s = [] -> wstep s (w_pass now s)
| ws_begin s :
    btn s = BIdle -> todo s <> [] -> wstep s (w_begin s)
| ws_btn s :
    btn s <> BIdle -> wstep s (w_btn s).

Inductive wreachable : Writers -> Prop :=
| wreach_init : wreachable initWriters
| wreach_step s s' : wreachable s -> wstep s s' -> wreachable s'.

(** Runs in which the two writers take turns: after every step at most
    one of them is inside a handler. *)
Definition one_at_a_time (s : Writers) : Prop :=
  web s = WIdle \/ btn s = BIdle.

Inductive sreachable : Writers -> Prop :=
| sreach_init : sreachable initWriters
| sreach_step s s' :
    sreachable s -> wstep s s' -> one_at_a_time s' -> sreachable s'.

(** A task run on its own to the end of its handler. *)
Fixpoint web_solo (fuel : nat) (pc : WebPc) (c : Config) : Config :=
  match fuel, pc with
  | O, _ => c
  | _, WIdle => c
  | S fuel', _ => web_solo fuel' (fst (web_step pc c)) (snd (web_step pc c))
  end.

Fixpoint btn_solo (fuel : nat) (pc : BtnPc) (c : Config) : Config :=
  match fuel, pc with
  | O, _ => c
  | _, BIdle => c
  | S fuel', _ => btn_solo fuel' (fst (btn_step pc c)) (snd (btn_step pc c))
  end.

Definition handler_run (h : Handler) : Config -> Config :=
  match h with
  | HModeInc => modeIncrement
  | HModeDec => modeDecrement
  | HBrightInc => brightnessIncrement
  | HBrightDec => brightnessDecrement
  end.

(** What holds of the globals at each position of the button task. *)
Definition btn_inv (pc : BtnPc) (c : Config) : Prop :=
  match pc with
  | BIdle | BUpRead | BDownRead => config_ok c
  | BIncStore t | BDecStore t => config_ok c /\ 0 <= t <= 26
  | BDecTest => -1 <= currentMode c <= 26 /\ 0 <= ringBrightness c <= 255
  | BDecFix t =>
      0 <= ringBrightness c <= 255
      /\ -1 <= currentMode c <= 26 /\ (0 <= t -> 0 <= currentMode c)
  | BUpStore t | BDownStore t | BUpCall t | BDownCall t =>
      config_ok c /\ 0 <= t <= 255
  | BUpTest => 0 <= currentMode c <= 26 /\ 0 <= ringBrightness c <= 265
  | BUpFix t =>
      0 <= currentMode c <= 26
      /\ 0 <= ringBrightness c <= 265 /\ (t <= 255 -> ringBrightness c <= 255)
  | BDownTest => 0 <= currentMode c <= 26 /\ -10 <= ringBrightness c <= 255
  | BDownFix t =>
      0 <= currentMode c <= 26
      /\ -10 <= ringBrightness c <= 255 /\ (0 <= t -> 0 <= ringBrightness c)
  end.

(** The values the web task is about to store are in range. *)
Definition web_inv (pc : WebPc) : Prop :=
  match pc with
  | WMode modeVal _ => 0 <= modeVal <= 26
  | WBright brightVal => 0 <= brightVal <= 255
  | _ => True
  end.

(** What holds when the writers take turns: the scale of FastLED follows
    [ringBrightness]. *)
Definition in_sync (c : Config) : Prop :=
  fastledBrightness c = ringBrightness c /\ 0 <= ringBrightness c <= 255.

Definition web_sync (pc : WebPc) (c : Config) : Prop :=
  match pc with
  | WIdle | WMode _ _ => in_sync c
  | WBright brightVal => 0 <= brightVal <= 255
  | WRead => 0 <= ringBrightness c <= 255
  | WCall t => t = ringBrightness c /\ 0 <= t <= 255
  end.

Definition btn_sync (pc : BtnPc) (c : Config) : Prop :=
  match pc with
  | BIdle | BIncStore _ | BDecStore _ | BDecTest | BDecFix _ => in_sync c
  | BUpStore t | BDownStore t => 0 <= t <= 255
  | BUpTest => 0 <= ringBrightness c <= 265
  | BUpFix t => t = ringBrightness c /\ 0 <= t <= 265
  | BDownTest => -10 <= ringBrightness c <= 255
  | BDownFix t => t = ringBrightness c /\ -10 <= t <= 255
  | BUpRead | BDownRead => 0 <= ringBrightness c <= 255
  | BUpCall t | BDownCall t => t = ringBrightness c /\ 0 <= t <= 255
  end.

Definition sync_inv (s : Writers) : Prop :=
  match web s, btn s with
  | WIdle, pc => btn_sync pc (globals s)
  | pc, BIdle => web_sync pc (globals s)
  | _, _ => False
  end.

(** The mode-down button goes down in mode 0: the pass reads the pins,
    enters the handler, reads [currentMode] and stores [currentMode - 1]
    (line 806). *)
Definition mode_down_at_0 : Writers :=
  w_btn (w_begin (w_pass (mkPins HIGH LOW HIGH HIGH) initWriters)).

(** [/set?brightness=250], then the brightness-up button goes down: the
    handler reads [ringBrightness] and stores [ringBrightness + 10]
    (line 815). *)
Definition bright_up_at_250 : Writers :=
  w_btn (w_begin (w_pass (mkPins HIGH HIGH LOW HIGH)
    (w_web (w_web (w_web (w_request None (Some 250) initWriters)))))).

(** [/set?brightness=0], then the brightness-down button goes down
    (line 825). *)
Definition bright_down_at_0 : Writers :=
  w_btn (w_begin (w_pass (mkPins HIGH HIGH HIGH LOW)
    (w_web (w_web (w_web (w_request None (Some 0) initWriters)))))).

(** The brightness-up handler has read the argument of its call
    (line 818) when a [/set?brightness=200] request runs from start to
    end; then the handler makes its call. *)
Definition set_during_up : Writers :=
  w_btn (w_web (w_web (w_web (w_request None (Some 200)
    (w_btn (w_btn (w_btn (w_btn (w_begin
       (w_pass (mkPins HIGH HIGH LOW HIGH) initWriters)))))))))).

(** ** Facts about machine integers *)

Lemma int32_small z : -2147483648 <= z < 2147483648 -> int32 z = z.
Proof.
  intros H. unfold int32.
  rewrite Z.mod_small by lia. lia.
Qed.

Lemma int_add_small a b :
  -2147483648 <= a + b < 2147483648 -> a +i b = a + b.
Proof. apply int32_small. Qed.

Lemma int_sub_small a b :
  -2147483648 <= a - b < 2147483648 -> a -i b = a - b.
Proof. apply int32_small. Qed.

Lemma int_mul_small a b :
  -2147483648 <= a * b < 2147483648 -> a *i b = a * b.
Proof. apply int32_small. Qed.

Lemma int_rem_nonneg a b : 0 <= a -> 0 < b -> a %i b = a mod b.
Proof. intros Ha Hb. unfold int_rem. apply Z.rem_mod_nonneg; lia. Qed.

Lemma int_rem_range a b : 0 <= a -> 0 < b -> 0 <= a %i b < b.
Proof.
  intros Ha Hb. rewrite int_rem_nonneg by lia. apply Z.mod_pos_bound; lia.
Qed.

Lemma u8_range z : 0 <= u8 z <= 255.
Proof. unfold u8. pose proof (Z.mod_pos_bound z 256). lia. Qed.

Lemma u8_small z : 0 <= z <= 255 -> u8 z = z.
Proof. intros H. unfold u8. apply Z.mod_small. lia. Qed.

(** ** The mode controller *)

Ltac cfg_simp :=
  unfold set_currentMode, set_ringBrightness, FastLED_setBrightness, numModes;
  cbn [currentMode ringBrightness fastledBrightness].

Ltac cfg_cases :=
  repeat match goal with
    | |- context [match ?o with Some _ => _ | None => _ end] => destruct o
    | |- context [if ?t then _ else _] => destruct t eqn:?
    end;
  cbn [currentMode ringBrightness fastledBrightness].

Lemma handleSet_ok mode brightness c :
  config_ok c -> config_ok (handleSet mode brightness c).
Proof.
  unfold config_ok, handleSet. intros [Hm Hb]. cfg_simp. cfg_cases; lia.
Qed.

Lemma modeIncrement_ok c : config_ok c -> config_ok (modeIncrement c).
Proof.
  unfold config_ok, modeIncrement. intros [Hm Hb]. cfg_simp.
  rewrite int_add_small by lia.
  pose proof (int_rem_range (currentMode c + 1) 27). lia.
Qed.

Lemma modeDecrement_ok c : config_ok c -> config_ok (modeDecrement c).
Proof.
  unfold config_ok, modeDecrement. intros [Hm Hb]. cfg_simp.
  rewrite !int_sub_small by lia. cfg_cases; lia.
Qed.

Lemma brightnessIncrement_ok c :
  config_ok c -> config_ok (brightnessIncrement c).
Proof.
  unfold config_ok, brightnessIncrement. intros [Hm Hb]. cfg_simp.
  rewrite int_add_small by lia. cfg_cases; lia.
Qed.

Lemma brightnessDecrement_ok c :
  config_ok c -> config_ok (brightnessDecrement c).
Proof.
  unfold config_ok, brightnessDecrement. intros [Hm Hb]. cfg_simp.
  rewrite int_sub_small by lia. cfg_cases; lia.
Qed.

Lemma buttonTask_iter_ok now last c :
  config_ok c -> config_ok (fst (buttonTask_iter now last c)).
Proof.
  intros H. unfold buttonTask_iter. simpl.
  repeat match goal with
         | |- context [if pressed ?a ?b then _ else _] => destruct (pressed a b)
         end;
    auto using modeIncrement_ok, modeDecrement_ok,
               brightnessIncrement_ok, brightnessDecrement_ok.
Qed.

Lemma step_config_ok {P} (s s' : System P) :
  step s s' -> config_ok (config s) -> config_ok (config s').
Proof.
  intros Hs H. destruct Hs as [s m b | s now | s _ | s s' _ E | s w];
    cbn [config sys_handleSet sys_buttons sys_ring_entry sys_world];
    auto using handleSet_ok, buttonTask_iter_ok.
  unfold sys_ring_iter in E.
  destruct (ledRingTask_iter P _ _ _ _) as [[st' m']|]; [|discriminate].
  injection E as <-. exact H.
Qed.

(** A pass of the button loop in which one button alone shows a falling
    edge runs that button's handler. *)
Lemma buttonTask_iter_single now last c :
  fst (buttonTask_iter now last c) =
  match pressed (pinModeInc now) (pinModeInc last),
        pressed (pinModeDec now) (pinModeDec last),
        pressed (pinBrightInc now) (pinBrightInc last),
        pressed (pinBrightDec now) (pinBrightDec last) with
  | true, false, false, false => modeIncrement c
  | false, true, false, false => modeDecrement c
  | false, false, true, false => brightnessIncrement c
  | false, false, false, true => brightnessDecrement c
  | _, _, _, _ => fst (buttonTask_iter now last c)
  end.
Proof.
  unfold buttonTask_iter. simpl.
  destruct (pressed (pinModeInc now) (pinModeInc last)),
           (pressed (pinModeDec now) (pinModeDec last)),
           (pressed (pinBrightInc now) (pinBrightInc last)),
           (pressed (pinBrightDec now) (pinBrightDec last)); reflexivity.
Qed.

(** C3 (as stated, refuted): a request for brightness 300, or for -5, made
    at the initial brightness 50 leaves 50 stored, not the clamped value. *)
Lemma handleSet_does_not_clamp :
  ringBrightness (handleSet None (Some 300) initConfig) <> Z.min 255 (Z.max 0 300)
  /\ ringBrightness (handleSet None (Some (-5)) initConfig) <> Z.min 255 (Z.max 0 (-5)).
Proof. split; vm_compute; discriminate. Qed.

(** C3 (amended): [handleSet] stores a requested brightness that lies in
    [0,255] (and hands it to [FastLED.setBrightness]); a request outside
    that range is dropped and the stored brightness stays what it was, so
    300 and -5 both leave it unchanged. *)
Theorem handleSet_brightness_dropped mode b c :
  ringBrightness (handleSet mode (Some b) c) =
    (if (0 <=? b) && (b <=? 255) then b else ringBrightness c)
  /\ fastledBrightness (handleSet mode (Some b) c) =
    (if (0 <=? b) && (b <=? 255) then b else fastledBrightness c)
  /\ ringBrightness (handleSet mode (Some 300) c) = ringBrightness c
  /\ ringBrightness (handleSet mode (Some (-5)) c) = ringBrightness c.
Proof.
  unfold handleSet. cfg_simp. repeat split.
  - cfg_cases; reflexivity.
  - cfg_cases; try reflexivity;
      apply u8_small;
      repeat match goal with
        | H : (_ && _) = true |- _ => apply andb_prop in H as [? ?]
        end; lia.
  - change ((0 <=? 300) && (300 <=? 255)) with false.
    cfg_cases; reflexivity.
  - change ((0 <=? -5) && (-5 <=? 255)) with false.
    cfg_cases; reflexivity.
Qed.

(** C4: [handleSet] treats its two fields separately. The mode becomes the
    requested value exactly when the field is present and in [0,26], the
    brightness exactly when its field is present and in [0,255]; otherwise
    the stored value stays, whatever the other field holds. *)
Theorem handleSet_fieldwise mode brightness c :
  (forall v, mode = Some v -> 0 <= v <= 26 ->
             currentMode (handleSet mode brightness c) = v)
  /\ (forall v, mode = Some v -> ~ 0 <= v <= 26 ->
             currentMode (handleSet mode brightness c) = currentMode c)
  /\ (mode = None -> currentMode (handleSet mode brightness c) = currentMode c)
  /\ (forall v, brightness = Some v -> 0 <= v <= 255 ->
             ringBrightness (handleSet mode brightness c) = v)
  /\ (forall v, brightness = Some v -> ~ 0 <= v <= 255 ->
             ringBrightness (handleSet mode brightness c) = ringBrightness c)
  /\ (brightness = None ->
             ringBrightness (handleSet mode brightness c) = ringBrightness c).
Proof.
  unfold handleSet. cfg_simp.
  repeat split; intros; subst; cfg_cases; try reflexivity; lia.
Qed.

(** C6: the button handlers. Mode up is [(m + 1) mod 27], mode down wraps
    from 0 to 26 and otherwise subtracts one, brightness moves by ten and
    stays within [0,255]; a pass of the button loop with one falling edge
    runs the matching handler. *)
Theorem button_adjust c :
  config_ok c ->
  currentMode (modeIncrement c) = (currentMode c + 1) mod 27
  /\ (currentMode c = 26 -> currentMode (modeIncrement c) = 0)
  /\ (currentMode c = 0 -> currentMode (modeDecrement c) = 26)
  /\ (0 < currentMode c -> currentMode (modeDecrement c) = currentMode c - 1)
  /\ ringBrightness (brightnessIncrement c) = Z.min 255 (ringBrightness c + 10)
  /\ ringBrightness (brightnessDecrement c) = Z.max 0 (ringBrightness c - 10)
  /\ fst (buttonTask_iter (mkPins LOW HIGH HIGH HIGH) initPins c) = modeIncrement c
  /\ fst (buttonTask_iter (mkPins HIGH LOW HIGH HIGH) initPins c) = modeDecrement c
  /\ fst (buttonTask_iter (mkPins HIGH HIGH LOW HIGH) initPins c)
     = brightnessIncrement c
  /\ fst (buttonTask_iter (mkPins HIGH HIGH HIGH LOW) initPins c)
     = brightnessDecrement c.
Proof.
  intros [Hm Hb].
  assert (Hinc : currentMode (modeIncrement c) = (currentMode c + 1) mod 27).
  { unfold modeIncrement. cfg_simp.
    rewrite int_add_small by lia. apply int_rem_nonneg; lia. }
  repeat split; try reflexivity.
  - exact Hinc.
  - intros E. rewrite Hinc, E. reflexivity.
  - intros E. unfold modeDecrement. cfg_simp. rewrite E. reflexivity.
  - intros E. unfold modeDecrement. cfg_simp.
    rewrite !int_sub_small by lia. cfg_cases; lia.
  - unfold brightnessIncrement. cfg_simp. rewrite int_add_small by lia.
    cfg_cases; lia.
  - unfold brightnessDecrement. cfg_simp. rewrite int_sub_small by lia.
    cfg_cases; lia.
Qed.

(** ** The hue distribution *)

Lemma Zrange_In n z : 0 <= z < Z.of_nat n -> In z (Zrange n).
Proof.
  intros H. unfold Zrange. apply in_map_iff. exists (Z.to_nat z). split.
  - lia.
  - apply in_seq. lia.
Qed.

Lemma Zrange_forallb n f z :
  forallb f (Zrange n) = true -> 0 <= z < Z.of_nat n -> f z = true.
Proof.
  intros H Hz. rewrite forallb_forall in H. apply H, Zrange_In, Hz.
Qed.

Lemma Zlist_eqb_eq l1 l2 : Zlist_eqb l1 l2 = true -> l1 = l2.
Proof.
  revert l2. induction l1 as [|a l1 IH]; intros [|b l2] H; simpl in H;
    try discriminate; auto.
  apply andb_prop in H as [H1 H2]. apply Z.eqb_eq in H1. f_equal; auto.
Qed.

Lemma hues_check_all :
  forallb hues_check (Zrange 256) = true.
Proof. vm_compute. reflexivity. Qed.

Lemma gap_check_all :
  forallb (fun s => forallb (gap_check s) (Zrange 47)) (Zrange 256) = true.
Proof. vm_compute. reflexivity. Qed.

Lemma offset_check_all :
  forallb (fun s => forallb (offset_check s) (Zrange 48)) (Zrange 256) = true.
Proof. vm_compute. reflexivity. Qed.

Lemma exact_rainbow_hues_48 startHue :
  0 <= startHue <= 255 ->
  exact_rainbow_hues 48 startHue = map (hue_at startHue) (Zrange 48).
Proof.
  intros H. apply Zlist_eqb_eq.
  apply (Zrange_forallb 256 hues_check startHue hues_check_all). lia.
Qed.

Lemma hue_gap startHue i :
  0 <= startHue <= 255 -> 0 <= i < 47 ->
  (hue_at startHue (i + 1) - hue_at startHue i) mod 256
  = if (i + 1) mod 3 =? 0 then 6 else 5.
Proof.
  intros Hs Hi. apply Z.eqb_eq.
  assert (H := Zrange_forallb 256 _ startHue gap_check_all).
  simpl in H. apply (Zrange_forallb 47 (gap_check startHue) i); [apply H|]; lia.
Qed.

Lemma hue_offset_eq startHue i :
  0 <= startHue <= 255 -> 0 <= i < 48 ->
  hue_offset startHue i = 5 * i + i / 3.
Proof.
  intros Hs Hi. apply Z.eqb_eq.
  assert (H := Zrange_forallb 256 _ startHue offset_check_all).
  simpl in H. apply (Zrange_forallb 48 (offset_check startHue) i); [apply H|]; lia.
Qed.

(** *** Writing a run of pixels *)

Lemma write_at_length i cs l : length (write_at i cs l) = length l.
Proof.
  revert i l. induction cs as [|c cs IH]; intros i l; simpl; auto.
  rewrite IH. apply length_insert.
Qed.

Lemma write_at_outside i cs l (k : nat) :
  (k < i \/ i + length cs <= k)%nat -> write_at i cs l !! k = l !! k.
Proof.
  revert i l. induction cs as [|c cs IH]; intros i l H; simpl in *; auto.
  rewrite IH by lia. apply list_lookup_insert_ne. lia.
Qed.

Lemma write_at_inside i cs l (k : nat) :
  (i + length cs <= length l)%nat -> (k < length cs)%nat ->
  write_at i cs l !! (i + k)%nat = cs !! k.
Proof.
  revert i l k. induction cs as [|c cs IH]; intros i l k Hl Hk; simpl in *.
  - lia.
  - destruct k as [|k].
    + rewrite write_at_outside by lia.
      rewrite Nat.add_0_r. simpl. apply list_lookup_insert_eq. lia.
    + replace (i + S k)%nat with (S i + k)%nat by lia.
      change ((c :: cs) !! S k) with (cs !! k).
      apply IH; [rewrite length_insert|]; lia.
Qed.

Lemma rainbow_hues_length n frac hue error :
  length (rainbow_hues n frac hue error) = n.
Proof.
  revert hue error. induction n as [|n IH]; intros hue error; simpl; auto.
  destruct (rainbow_next frac hue error). simpl. f_equal. apply IH.
Qed.

Lemma store_run {P} i c (s : Machine P) :
  0 <= i < NUM_LEDS -> length (leds s) = Z.to_nat NUM_LEDS ->
  store i c s
  = Some (tt, mkMachine (<[Z.to_nat i := c]> (leds s)) (world s) (out s)).
Proof.
  intros Hi Hl. unfold store, in_leds, NUM_LEDS in *.
  replace ((0 <=? i) && (i <? 96)) with true
    by (symmetry; apply andb_true_intro; split; lia).
  replace (i <? Z.of_nat (length (leds s))) with true
    by (symmetry; apply Z.ltb_lt; lia).
  reflexivity.
Qed.

(** A store or a load that succeeds was made inside the array. *)
Lemma store_Some_in_range {P} i c (s : Machine P) r :
  store i c s = Some r -> 0 <= i < NUM_LEDS.
Proof.
  unfold store, in_leds. destruct ((0 <=? i) && (i <? NUM_LEDS)) eqn:E;
    [|discriminate].
  intros _. apply andb_prop in E as [E1 E2]. lia.
Qed.

Lemma load_Some_in_range {P} i (s : Machine P) r :
  load i s = Some r -> 0 <= i < NUM_LEDS.
Proof.
  unfold load, in_leds. destruct ((0 <=? i) && (i <? NUM_LEDS)) eqn:E;
    [|discriminate].
  intros _. apply andb_prop in E as [E1 E2]. lia.
Qed.

(** The loop stores, from [ring + i] on, the conversions of the hues it
    computes, and touches nothing else. *)
Lemma rainbow_loop_run {P} n ring i frac hue error (s : Machine P) :
  0 <= ring + i -> ring + i + Z.of_nat n <= NUM_LEDS ->
  length (leds s) = Z.to_nat NUM_LEDS ->
  rainbow_loop n ring i frac hue error s
  = Some (tt, mkMachine
                (write_at (Z.to_nat (ring + i))
                          (map (fun h => hsv P h 255 255)
                               (rainbow_hues n frac hue error))
                          (leds s))
                (world s) (out s)).
Proof.
  revert i hue error s.
  induction n as [|n IH]; intros i hue error s H0 H1 Hl.
  - destruct s; reflexivity.
  - cbn [rainbow_loop rainbow_hues]. unfold bind.
    rewrite store_run by (unfold NUM_LEDS in *; lia).
    destruct (rainbow_next frac hue error) as [hue' error'].
    rewrite IH; cbn [leds world out];
      [ | lia | lia | rewrite length_insert; exact Hl ].
    cbn [map write_at]. do 3 f_equal.
    replace (Z.to_nat (ring + (i + 1))) with (S (Z.to_nat (ring + i))) by lia.
    reflexivity.
Qed.

(** C2: with [ringSize = 48] and any starting hue, the call succeeds on a
    96-pixel array whose ring starts at [ring] and stores at pixel [i] the
    hue [(startHue + 5 i + i / 3) mod 256]: a step of 5 with one more unit
    on every third pixel. The distance of the hues from the starting hue
    grows strictly along the ring without passing 256, and two neighbours
    are 5 or 6 apart, never more. *)
Theorem exact_rainbow_48 {P} (s : Machine P) (ring startHue : Z) :
  0 <= startHue <= 255 ->
  0 <= ring <= 48 ->
  length (leds s) = Z.to_nat NUM_LEDS ->
  exists s',
    fill_ring_with_exact_rainbow ring 48 startHue s = Some (tt, s')
    /\ length (leds s') = Z.to_nat NUM_LEDS
    /\ (forall i, 0 <= i < 48 ->
          leds s' !! Z.to_nat (ring + i)
          = Some (hsv P (hue_at startHue i) 255 255))
    /\ (forall i, 0 <= i < 47 ->
          (hue_at startHue (i + 1) - hue_at startHue i) mod 256
          = if (i + 1) mod 3 =? 0 then 6 else 5)
    /\ (forall i, 0 <= i < 47 ->
          5 <= (hue_at startHue (i + 1) - hue_at startHue i) mod 256 <= 6)
    /\ (forall i j, 0 <= i < j -> j < 48 ->
          hue_offset startHue i < hue_offset startHue j)
    /\ (forall i, 0 <= i < 48 -> 0 <= hue_offset startHue i < 256).
Proof.
  intros Hs Hr Hl. unfold fill_ring_with_exact_rainbow.
  rewrite rainbow_loop_run by (unfold NUM_LEDS in *; simpl; lia).
  fold (exact_rainbow_hues 48 startHue).
  rewrite exact_rainbow_hues_48 by exact Hs.
  eexists. split; [reflexivity|]. cbn [leds].
  split; [rewrite write_at_length; exact Hl|].
  split; [|split; [|split; [|split]]].
  - intros i Hi. rewrite Z.add_0_r.
    replace (Z.to_nat (ring + i)) with (Z.to_nat ring + Z.to_nat i)%nat by lia.
    rewrite write_at_inside.
    + rewrite !list_lookup_fmap.
      unfold Zrange. rewrite list_lookup_fmap.
      rewrite lookup_seq_lt by lia. simpl.
      replace (Z.of_nat (Z.to_nat i)) with i by lia. reflexivity.
    + rewrite !length_map. unfold Zrange. rewrite length_map, length_seq.
      unfold NUM_LEDS in *. lia.
    + rewrite !length_map. unfold Zrange. rewrite length_map, length_seq. lia.
  - intros i Hi. apply hue_gap; lia.
  - intros i Hi. rewrite hue_gap by lia.
    destruct ((i + 1) mod 3 =? 0); lia.
  - intros i j Hij Hj. rewrite !hue_offset_eq by lia.
    assert (i / 3 <= j / 3) by (apply Z.div_le_mono; lia). lia.
  - intros i Hi. rewrite hue_offset_eq by lia.
    assert (i / 3 <= 47 / 3) by (apply Z.div_le_mono; lia).
    assert (0 <= i / 3) by (apply Z.div_pos; lia).
    change (47 / 3) with 15 in *. lia.
Qed.

(** ** Rules for [safe] *)

Lemma crgb_ok_const : crgb_ok Black /\ crgb_ok White /\ crgb_ok Blue /\ crgb_ok Red.
Proof. unfold crgb_ok, byte_ok. simpl. lia. Qed.

Lemma crgb_ok_add a b : crgb_ok a -> crgb_ok b -> crgb_ok (CRGB_add a b).
Proof. unfold crgb_ok, byte_ok, CRGB_add, qadd8. simpl. lia. Qed.

Lemma safe_ret {P A} (a : A) (Q : A -> Prop) : Q a -> safe (P := P) (ret a) Q.
Proof. intros H s Hs. exists a, s. auto. Qed.

Lemma safe_bind {P A B} (m : M P A) (k : A -> M P B) Q1 Q2 :
  safe m Q1 -> (forall a, Q1 a -> safe (k a) Q2) -> safe (bind m k) Q2.
Proof.
  intros Hm Hk s Hs. destruct (Hm s Hs) as (a & s1 & E1 & Hs1 & Ha).
  destruct (Hk a Ha s1 Hs1) as (b & s2 & E2 & Hs2 & Hb).
  exists b, s2. unfold bind. rewrite E1. auto.
Qed.

Lemma safe_weaken {P A} (m : M P A) (Q1 Q2 : A -> Prop) :
  safe m Q1 -> (forall a, Q1 a -> Q2 a) -> safe m Q2.
Proof.
  intros Hm HQ s Hs. destruct (Hm s Hs) as (a & s1 & E1 & Hs1 & Ha).
  exists a, s1. auto.
Qed.

Lemma safe_store {P} i c :
  0 <= i < NUM_LEDS -> crgb_ok c -> safe (P := P) (store i c) (fun _ => True).
Proof.
  intros Hi Hc s [Hl Hf]. exists tt. eexists.
  rewrite store_run by assumption. split; [reflexivity|]. split; [|exact I].
  split; cbn [leds].
  - rewrite length_insert. exact Hl.
  - apply Forall_insert; assumption.
Qed.

Lemma safe_load {P} i : 0 <= i < NUM_LEDS -> safe (P := P) (load i) crgb_ok.
Proof.
  intros Hi s [Hl Hf]. unfold load, in_leds.
  replace ((0 <=? i) && (i <? NUM_LEDS)) with true
    by (symmetry; apply andb_true_intro; split; lia).
  destruct (leds s !! Z.to_nat i) as [c|] eqn:E.
  - exists c, s. split; [reflexivity|]. split; [split; assumption|].
    rewrite Forall_lookup in Hf. eapply Hf, E.
  - apply lookup_ge_None in E. unfold NUM_LEDS in *. lia.
Qed.

Lemma safe_add_led {P} i c :
  0 <= i < NUM_LEDS -> crgb_ok c -> safe (P := P) (add_led i c) (fun _ => True).
Proof.
  intros Hi Hc. unfold add_led. eapply safe_bind.
  - apply safe_load, Hi.
  - intros old Hold. apply safe_store; auto using crgb_ok_add.
Qed.

Lemma safe_for_loop {P} n i (body : Z -> M P unit) :
  (forall j, i <= j < i + Z.of_nat n -> safe (body j) (fun _ => True)) ->
  safe (for_loop n i body) (fun _ => True).
Proof.
  revert i. induction n as [|n IH]; intros i H; cbn [for_loop].
  - apply safe_ret. exact I.
  - eapply safe_bind.
    + apply H. lia.
    + intros _ _. apply IH. intros j Hj. apply H. lia.
Qed.

Lemma safe_for {P} lo hi (body : Z -> M P unit) :
  (forall j, lo <= j < hi -> safe (body j) (fun _ => True)) ->
  safe (for_ lo hi body) (fun _ => True).
Proof.
  intros H. unfold for_. apply safe_for_loop. intros j Hj. apply H. lia.
Qed.

Lemma safe_fill_solid {P} ring n c :
  0 <= ring -> ring + n <= NUM_LEDS -> crgb_ok c ->
  safe (P := P) (fill_solid ring n c) (fun _ => True).
Proof.
  intros Hr Hn Hc. unfold fill_solid. apply safe_for.
  intros j Hj. apply safe_store; [lia | exact Hc].
Qed.

Lemma safe_fadeToBlackBy {P} ring n k :
  PlatformOK P -> 0 <= ring -> ring + n <= NUM_LEDS ->
  safe (P := P) (fadeToBlackBy ring n k) (fun _ => True).
Proof.
  intros HP Hr Hn. unfold fadeToBlackBy. apply safe_for.
  intros j Hj. eapply safe_bind.
  - apply safe_load. lia.
  - intros c Hc. apply safe_store; [lia | apply (nscale8_ok P HP), Hc].
Qed.

Lemma safe_show {P} : safe (P := P) show (fun _ => True).
Proof. intros s Hs. exists tt. eexists. split; [reflexivity|]. split; auto. Qed.

Lemma safe_delay {P} ms : safe (P := P) (delay ms) (fun _ => True).
Proof. intros s Hs. exists tt. eexists. split; [reflexivity|]. split; auto. Qed.

Lemma safe_ask {P} (f : World P -> Z * World P) :
  safe (ask f) (fun z => exists w, z = fst (f w)).
Proof.
  intros s Hs. unfold ask. destruct (f (world s)) as [z w] eqn:E.
  exists z. eexists. split; [reflexivity|]. split; [exact Hs|].
  exists (world s). rewrite E. reflexivity.
Qed.

Lemma safe_fill_ring {P} ring ringSize startHue :
  PlatformOK P -> 0 <= ring -> 0 <= ringSize -> ring + ringSize <= NUM_LEDS ->
  safe (P := P) (fill_ring_with_exact_rainbow ring ringSize startHue)
       (fun _ => True).
Proof.
  intros HP Hr Hs Hn s [Hl Hf]. unfold fill_ring_with_exact_rainbow.
  rewrite rainbow_loop_run by (try exact Hl; lia).
  exists tt. eexists. split; [reflexivity|]. split; [|exact I].
  split; cbn [leds].
  - rewrite write_at_length. exact Hl.
  - generalize (rainbow_hues (Z.to_nat ringSize) (fractional ringSize)
                 (F32.of_Z startHue) (F32.of_double (F32.double_of_Z 0))).
    generalize (Z.to_nat (ring + 0)). intros n hs. revert n Hf.
    generalize (leds s).
    induction hs as [|h hs IH]; intros l n Hf; cbn [map write_at]; auto.
    apply IH. apply Forall_insert; [exact Hf | apply (hsv2rgb_ok P HP)].
Qed.

(** Unit-valued steps, in the order they are tried. *)
Ltac safe_unit HP :=
  first
    [ apply safe_show
    | apply safe_delay
    | apply safe_store
    | apply safe_add_led
    | apply safe_fill_solid
    | apply (safe_fadeToBlackBy _ _ _ HP)
    | apply (safe_fill_ring _ _ _ HP)
    | apply safe_for; intros ? ? ].

(** Walks down a computation written with [bind]. *)
Ltac safe_walk HP :=
  repeat lazymatch goal with
    | |- safe (bind (ask _) _) _ =>
        eapply safe_bind; [apply safe_ask | intros ? [? ?]; subst]
    | |- safe (bind (if ?b then _ else _) _) _ =>
        eapply safe_bind with (Q1 := fun _ => True);
        [destruct b eqn:? | intros ? ?]
    | |- safe (bind _ _) _ =>
        eapply safe_bind; [safe_unit HP | intros ? ?]
    | |- safe (ret _) _ => apply safe_ret
    | |- safe (if ?b then _ else _) _ => destruct b eqn:?
    | |- safe _ (fun _ => True) => safe_unit HP
    end.

Ltac int_simp :=
  unfold pos_ok in *; unfold RING_LEDS, NUM_LEDS in *;
  repeat match goal with
    | |- context [?a +i ?b] => rewrite (int_add_small a b) by lia
    | |- context [?a -i ?b] => rewrite (int_sub_small a b) by lia
    | |- context [?a *i ?b] => rewrite (int_mul_small a b) by lia
    | |- context [u8 ?a] => rewrite (u8_small a) by lia
    | |- context [?a %i ?b] =>
        lazymatch goal with
        | _ : 0 <= a %i b < b |- _ => fail
        | _ => pose proof (int_rem_range a b ltac:(lia) ltac:(lia))
        end
    end.

Ltac idx := int_simp; lia.

Ltac proj_simp :=
  cbn [fst snd wipeExp wipeColor sideWipeInitialized runIndex1 runIndex2
       laserPos1 laserPos2 cometPos1 cometPos2 bouncePos1 bounceDir1
       bouncePos2 bounceDir2 barPos1 barPos2 slicePos1 slicePos2
       gapPos1 gapPos2].

Ltac colour HP :=
  first [ apply (hsv2rgb_ok _ HP) | apply crgb_ok_const ].

Ltac use_platform HP :=
  unfold RING_LEDS, NUM_LEDS in *;
  repeat match goal with
    | |- context [fst (random ?P ?n ?w)] =>
        pose proof (random_range P HP n w ltac:(lia));
        generalize dependent (fst (random P n w)); intros
    | |- context [fst (random8 ?P ?w)] =>
        pose proof (random8_range P HP w);
        generalize dependent (fst (random8 P w)); intros
    | |- context [fst (random8_between ?P ?lo ?lim ?w)] =>
        pose proof (random8_between_range P HP lo lim w ltac:(lia) ltac:(lia));
        generalize dependent (fst (random8_between P lo lim w)); intros
    | |- context [fst (beatsin8 ?P ?b ?lo ?hi ?w)] =>
        pose proof (beatsin8_range P HP b lo hi w ltac:(lia) ltac:(lia));
        generalize dependent (fst (beatsin8 P b lo hi w)); intros
    | |- context [fst (beatsin16 ?P ?b ?lo ?hi ?tb ?ph ?w)] =>
        pose proof (beatsin16_range P HP b lo hi tb ph w ltac:(lia) ltac:(lia));
        generalize dependent (fst (beatsin16 P b lo hi tb ph w)); intros
    end.

Ltac safe_side HP :=
  first [ exact I | colour HP | solve [use_platform HP; idx] ].

(** ** Every case terminates inside the array *)

Section CasesSafe.
Context (P : Platform) (HP : PlatformOK P).

Lemma case0_safe s : safe (case0 P s) (fun _ => True).
Proof. unfold case0. cbv zeta. safe_walk HP; safe_side HP. Qed.

Lemma case1_safe : safe (case1 P) (fun _ => True).
Proof. unfold case1. safe_walk HP; safe_side HP. Qed.

Lemma case2_safe t : safe (case2 P t) (fun _ => True).
Proof.
  unfold case2. cbv zeta. safe_walk HP; try safe_side HP.
  destruct t; apply crgb_ok_const.
Qed.

Lemma case3_safe o : safe (case3 P o) (fun _ => True).
Proof. unfold case3. cbv zeta. safe_walk HP; safe_side HP. Qed.

Lemma wipe_colour_ok w : wipe_ok w -> crgb_ok (wipeColor w).
Proof. intros [_ [E|E]]; rewrite E; apply crgb_ok_const. Qed.

Lemma case4_safe s : wipe_ok s -> safe (case4 P s) wipe_ok.
Proof.
  intros Hs. unfold case4. eapply safe_bind with (Q1 := wipe_ok).
  - destruct (sideWipeInitialized s); cbn [negb]; cbv zeta.
    + apply safe_ret, Hs.
    + safe_walk HP; try safe_side HP.
      destruct Hs as [_ Hc]. split; proj_simp; [lia | exact Hc].
  - intros s1 H1. pose proof (wipe_colour_ok s1 H1) as Hc.
    destruct H1 as [He Hcol]. cbv zeta.
    safe_walk HP; try assumption; try safe_side HP.
    + split; proj_simp; [lia|].
      destruct (CRGB_eqb (wipeColor s1) Blue); auto.
    + split; proj_simp; [|exact Hcol].
      match goal with H : (_ >? 24) = false |- _ => revert H end.
      int_simp. lia.
Qed.

Lemma case5_safe : safe (case5 P) (fun _ => True).
Proof. unfold case5. safe_walk HP; safe_side HP. Qed.

Lemma case6_safe g : safe (case6 P g) (fun _ => True).
Proof. unfold case6. cbv zeta. safe_walk HP; safe_side HP. Qed.

Lemma case7_safe g : safe (case7 P g) (fun _ => True).
Proof. unfold case7. cbv zeta. safe_walk HP; safe_side HP. Qed.

Lemma case8_safe s :
  pos_ok (runIndex1 s) -> pos_ok (runIndex2 s) ->
  safe (case8 P s) (fun r => pos_ok (runIndex1 r) /\ pos_ok (runIndex2 r)).
Proof.
  intros H1 H2. unfold case8. safe_walk HP; try safe_side HP.
  proj_simp. split; idx.
Qed.

Lemma case9_safe s g :
  pos_ok (laserPos1 s) -> pos_ok (laserPos2 s) ->
  safe (case9 P s g)
       (fun r => pos_ok (laserPos1 (fst r)) /\ pos_ok (laserPos2 (fst r))).
Proof.
  intros H1 H2. unfold case9. cbv zeta. safe_walk HP; try safe_side HP.
  proj_simp. split; idx.
Qed.

Lemma case10_safe b s g : safe (case10 P b s g) (fun _ => True).
Proof.
  unfold case10. cbv zeta. eapply safe_bind with (Q1 := fun _ => True).
  - destruct (strobeOn s); safe_walk HP; safe_side HP.
  - intros. apply safe_ret. exact I.
Qed.

Lemma case11_safe s g :
  pos_ok (cometPos1 s) -> pos_ok (cometPos2 s) ->
  safe (case11 P s g)
       (fun r => pos_ok (cometPos1 (fst r)) /\ pos_ok (cometPos2 (fst r))).
Proof.
  intros H1 H2. unfold case11. cbv zeta. safe_walk HP; try safe_side HP.
  proj_simp. split; idx.
Qed.

(** One move of a bouncing position (lines 393-396) keeps it on the ring,
    pointing inward at either end. *)
Lemma bounce_step pos dir :
  bounce_ok pos dir ->
  bounce_ok (pos +i dir)
            (if (pos +i dir >=? RING_LEDS - 1) || (pos +i dir <=? 0)
             then int_neg dir else dir).
Proof.
  unfold bounce_ok, RING_LEDS, int_neg. intros (Hp & Hd & H0 & H47).
  rewrite int_add_small by lia.
  destruct Hd as [-> | ->].
  - assert (pos <> 47) by (intros ->; specialize (H47 eq_refl); lia).
    destruct (pos + 1 >=? 48 - 1) eqn:E1; cbn [orb].
    + rewrite int32_small by lia. lia.
    + destruct (pos + 1 <=? 0) eqn:E2; [lia|]. lia.
  - assert (pos <> 0) by (intros ->; specialize (H0 eq_refl); lia).
    destruct (pos + -1 >=? 48 - 1) eqn:E1; cbn [orb]; [lia|].
    destruct (pos + -1 <=? 0) eqn:E2.
    + rewrite int32_small by lia. lia.
    + lia.
Qed.

Lemma case12_safe s g :
  bounce_ok (bouncePos1 s) (bounceDir1 s) ->
  bounce_ok (bouncePos2 s) (bounceDir2 s) ->
  safe (case12 P s g)
       (fun r => bounce_ok (bouncePos1 (fst r)) (bounceDir1 (fst r))
                 /\ bounce_ok (bouncePos2 (fst r)) (bounceDir2 (fst r))).
Proof.
  intros H1 H2. unfold case12. cbv zeta.
  pose proof H1 as (Hp1 & _). pose proof H2 as (Hp2 & _).
  safe_walk HP; try safe_side HP.
  proj_simp. split; apply bounce_step; assumption.
Qed.

Lemma case13_safe b x : safe (case13 P b x) (fun _ => True).
Proof. unfold case13. cbv zeta. safe_walk HP; safe_side HP. Qed.

Lemma case14_safe b g : safe (case14 P b g) (fun _ => True).
Proof. unfold case14. cbv zeta. safe_walk HP; safe_side HP. Qed.

Lemma case15_safe g : safe (case15 P g) (fun _ => True).
Proof. unfold case15. cbv zeta. safe_walk HP; safe_side HP. Qed.

Lemma case16_safe g : safe (case16 P g) (fun _ => True).
Proof. unfold case16. cbv zeta. safe_walk HP; safe_side HP. Qed.

Lemma case17_safe b s g :
  pos_ok (barPos1 s) -> pos_ok (barPos2 s) ->
  safe (case17 P b s g)
       (fun r => pos_ok (barPos1 (fst r)) /\ pos_ok (barPos2 (fst r))).
Proof.
  intros H1 H2. unfold case17. cbv zeta. safe_walk HP; try safe_side HP.
  proj_simp. split; idx.
Qed.

Lemma case18_safe s g : safe (case18 P s g) (fun _ => True).
Proof. unfold case18. cbv zeta. safe_walk HP; safe_side HP. Qed.

Lemma case19_safe g : safe (case19 P g) (fun _ => True).
Proof. unfold case19. safe_walk HP; safe_side HP. Qed.

Lemma case20_safe g : safe (case20 P g) (fun _ => True).
Proof. unfold case20. safe_walk HP; safe_side HP. Qed.

Lemma case21_safe c g : safe (case21 P c g) (fun _ => True).
Proof. unfold case21. cbv zeta. safe_walk HP; safe_side HP. Qed.

Lemma static_random_safe x : safe (static_random P x) (fun _ => True).
Proof.
  unfold static_random. destruct x; safe_walk HP; safe_side HP.
Qed.

Lemma case22_safe s g : safe (case22 P s g) (fun _ => True).
Proof.
  unfold case22.
  eapply safe_bind; [apply static_random_safe | intros c1 _].
  eapply safe_bind; [apply static_random_safe | intros c2 _].
  cbv zeta. safe_walk HP; safe_side HP.
Qed.

Lemma case23_safe c g : safe (case23 P c g) (fun _ => True).
Proof. unfold case23. safe_walk HP; safe_side HP. Qed.

Lemma case24_safe g : safe (case24 P g) (fun _ => True).
Proof.
  unfold case24. cbv zeta. change (RING_LEDS /i 3) with 16.
  safe_walk HP; safe_side HP.
Qed.

Lemma case25_safe s g :
  pos_ok (slicePos1 s) -> pos_ok (slicePos2 s) ->
  safe (case25 P s g)
       (fun r => pos_ok (slicePos1 (fst r)) /\ pos_ok (slicePos2 (fst r))).
Proof.
  intros H1 H2. unfold case25. cbv zeta. safe_walk HP; try safe_side HP.
  proj_simp. split; idx.
Qed.

Lemma case26_safe s g :
  pos_ok (gapPos1 s) -> pos_ok (gapPos2 s) ->
  safe (case26 P s g)
       (fun r => pos_ok (gapPos1 (fst r)) /\ pos_ok (gapPos2 (fst r))).
Proof.
  intros H1 H2. unfold case26. cbv zeta. safe_walk HP; try safe_side HP.
  proj_simp. split; idx.
Qed.

Lemma case_default_safe : safe (case_default P) (fun _ => True).
Proof. unfold case_default. safe_walk HP; safe_side HP. Qed.
End CasesSafe.

(** ** The dispatcher *)

(** Outside 0..26 the [switch] takes its [default] label. *)
Lemma ledRingTask_iter_default P mode bright st :
  ~ 0 <= mode <= 26 ->
  ledRingTask_iter P mode bright st = (case_default P ;; ret st).
Proof.
  intros H. destruct mode as [|p|p]; [lia | | reflexivity].
  do 5 (destruct p as [p|p|]; try lia; try reflexivity).
Qed.

Lemma mode_cases (mode : Z) :
  0 <= mode <= 26 ->
  mode = 0 \/ mode = 1 \/ mode = 2 \/ mode = 3 \/ mode = 4 \/ mode = 5 \/
  mode = 6 \/ mode = 7 \/ mode = 8 \/ mode = 9 \/ mode = 10 \/ mode = 11 \/
  mode = 12 \/ mode = 13 \/ mode = 14 \/ mode = 15 \/ mode = 16 \/
  mode = 17 \/ mode = 18 \/ mode = 19 \/ mode = 20 \/ mode = 21 \/
  mode = 22 \/ mode = 23 \/ mode = 24 \/ mode = 25 \/ mode = 26.
Proof. lia. Qed.

Ltac each_mode H :=
  apply mode_cases in H;
  repeat (destruct H as [H | H]; [subst | ]); [ .. | subst ].

Ltac keep_statics Hst :=
  destruct Hst; constructor;
  cbn [rainbow theatreOffset wipe gHue toggle running laser strobe comets
       bounce swirlX bar ripple pulseCounter shock dropCounter slice gap
       set_rainbow set_theatreOffset set_wipe set_gHue set_toggle
       set_running set_laser set_strobe set_comets set_bounce set_swirlX
       set_bar set_ripple set_pulseCounter set_shock set_dropCounter
       set_slice set_gap];
  try assumption; try (split; assumption).

Ltac case_rule :=
  lazymatch goal with
  | |- safe (case0 _ _) _ => apply case0_safe
  | |- safe (case1 _) _ => apply case1_safe
  | |- safe (case2 _ _) _ => apply case2_safe
  | |- safe (case3 _ _) _ => apply case3_safe
  | |- safe (case4 _ _) _ => apply case4_safe
  | |- safe (case5 _) _ => apply case5_safe
  | |- safe (case6 _ _) _ => apply case6_safe
  | |- safe (case7 _ _) _ => apply case7_safe
  | |- safe (case8 _ _) _ => apply case8_safe
  | |- safe (case9 _ _ _) _ => apply case9_safe
  | |- safe (case10 _ _ _ _) _ => apply case10_safe
  | |- safe (case11 _ _ _) _ => apply case11_safe
  | |- safe (case12 _ _ _) _ => apply case12_safe
  | |- safe (case13 _ _ _) _ => apply case13_safe
  | |- safe (case14 _ _ _) _ => apply case14_safe
  | |- safe (case15 _ _) _ => apply case15_safe
  | |- safe (case16 _ _) _ => apply case16_safe
  | |- safe (case17 _ _ _ _) _ => apply case17_safe
  | |- safe (case18 _ _ _) _ => apply case18_safe
  | |- safe (case19 _ _) _ => apply case19_safe
  | |- safe (case20 _ _) _ => apply case20_safe
  | |- safe (case21 _ _ _) _ => apply case21_safe
  | |- safe (case22 _ _ _) _ => apply case22_safe
  | |- safe (case23 _ _ _) _ => apply case23_safe
  | |- safe (case24 _ _) _ => apply case24_safe
  | |- safe (case25 _ _ _) _ => apply case25_safe
  | |- safe (case26 _ _ _) _ => apply case26_safe
  end.

Lemma ledRingTask_iter_safe P (HP : PlatformOK P) mode bright st :
  statics_ok st -> safe (ledRingTask_iter P mode bright st) statics_ok.
Proof.
  intros Hst.
  destruct (Z_le_dec 0 mode) as [H0|H0];
    [destruct (Z_le_dec mode 26) as [H1|H1]|].
  2,3: rewrite ledRingTask_iter_default by lia;
       (eapply safe_bind; [apply case_default_safe|]);
       intros; apply safe_ret; assumption.
  assert (H : 0 <= mode <= 26) by lia. clear H0 H1.
  each_mode H; cbn [ledRingTask_iter];
    (eapply safe_bind;
     [ case_rule; try exact HP; apply Hst
     | intros r Hr; apply safe_ret; try destruct Hr; keep_statics Hst ]).
Qed.

(** ** The concrete platform meets the contract *)

Lemma demo_ok : PlatformOK demoPlatform.
Proof.
  constructor; cbn [demoPlatform random random8 random8_between beatsin8
                    beatsin16 hsv2rgb_rainbow nscale8 fst].
  - intros n w Hn. apply Z.mod_pos_bound. lia.
  - intros w. pose proof (Z.mod_pos_bound w 256). lia.
  - intros lo lim w H1 H2. pose proof (Z.mod_pos_bound w (lim - lo)). lia.
  - intros _ lo hi w H1 H2. pose proof (Z.mod_pos_bound w (hi - lo + 1)). lia.
  - intros _ lo hi _ _ w H1 H2.
    pose proof (Z.mod_pos_bound w (hi - lo + 1)). lia.
  - intros c. unfold crgb_ok, byte_ok. cbn [red green blue].
    pose proof (u8_range (hue c)). pose proof (u8_range (sat c)).
    pose proof (u8_range (val c)). lia.
  - intros c k (Hr & Hg & Hb). unfold crgb_ok, byte_ok in *.
    cbn [red green blue]. pose proof (u8_range k) as Hk.
    assert (Hs : forall x, 0 <= x <= 255 -> 0 <= x * u8 k / 256 <= 255).
    { intros x Hx. split.
      - apply Z.div_pos; nia.
      - apply Z.div_le_upper_bound; nia. }
    auto.
Qed.

(** C6 at the initial configuration. *)
Lemma button_adjust_witness :
  currentMode (modeIncrement initConfig) = 1
  /\ currentMode (modeDecrement initConfig) = 26
  /\ ringBrightness (brightnessIncrement initConfig) = 60
  /\ ringBrightness (brightnessDecrement initConfig) = 40.
Proof.
  assert (H : config_ok initConfig) by (unfold config_ok; simpl; lia).
  destruct (button_adjust initConfig H)
    as (H1 & _ & H3 & _ & H5 & H6 & _).
  split; [|split; [|split]].
  - rewrite H1. reflexivity.
  - apply H3. reflexivity.
  - rewrite H5. reflexivity.
  - rewrite H6. reflexivity.
Defined.

(** C2 on the array after [setup()], Ring B, starting hue 200. *)
Lemma exact_rainbow_48_witness :
  exists s',
    fill_ring_with_exact_rainbow 48 48 200 (machine (boot (P := demoPlatform) 0))
    = Some (tt, s')
    /\ leds s' !! 95%nat = Some (mkCRGB 194 255 255).
Proof.
  destruct (exact_rainbow_48 (machine (boot (P := demoPlatform) 0)) 48 200)
    as (s' & E & _ & Hpix & _); [lia | lia | reflexivity |].
  exists s'. split; [exact E|]. exact (Hpix 47 ltac:(lia)).
Defined.

(** ** Whole-array fills *)

Lemma for_store_run {P} n ring i c (s : Machine P) :
  0 <= ring + i -> ring + i + Z.of_nat n <= NUM_LEDS ->
  length (leds s) = Z.to_nat NUM_LEDS ->
  for_loop n i (fun j => store (ring + j) c) s
  = Some (tt, mkMachine (write_at (Z.to_nat (ring + i)) (replicate n c) (leds s))
                        (world s) (out s)).
Proof.
  revert i s. induction n as [|n IH]; intros i s H0 H1 Hl.
  - destruct s; reflexivity.
  - cbn [for_loop replicate write_at]. unfold bind.
    rewrite store_run by (unfold NUM_LEDS in *; lia).
    rewrite IH; cbn [leds world out];
      [ | lia | lia | rewrite length_insert; exact Hl ].
    replace (Z.to_nat (ring + (i + 1))) with (S (Z.to_nat (ring + i))) by lia.
    reflexivity.
Qed.

Lemma write_at_all (cs l : list CRGB) :
  length cs = length l -> write_at 0 cs l = cs.
Proof.
  intros H. apply list_eq. intros k.
  destruct (decide (k < length cs)%nat) as [Hk|Hk].
  - apply (write_at_inside 0 cs l k); lia.
  - rewrite write_at_outside by lia.
    rewrite !lookup_ge_None_2 by lia. reflexivity.
Qed.

Lemma fill_solid_all {P} c (s : Machine P) :
  length (leds s) = Z.to_nat NUM_LEDS ->
  fill_solid 0 NUM_LEDS c s
  = Some (tt, mkMachine (replicate (Z.to_nat NUM_LEDS) c) (world s) (out s)).
Proof.
  intros Hl. unfold fill_solid, for_.
  rewrite for_store_run by (try exact Hl; unfold NUM_LEDS; lia).
  rewrite write_at_all; [reflexivity|].
  rewrite length_replicate, Hl. reflexivity.
Qed.

(** C9: for a mode index outside 0..26 one pass of the render loop ends
    with all 96 pixels black, shows that frame, waits 50 ms and changes
    none of the statics. *)
Theorem unknown_mode_black {P} mode bright st (m : Machine P) :
  ~ 0 <= mode <= 26 ->
  length (leds m) = Z.to_nat NUM_LEDS ->
  ledRingTask_iter P mode bright st m
  = Some (st, mkMachine (replicate 96 Black)
                        (sleep P 50 (world m))
                        (out m ++ [EvShow (replicate 96 Black); EvDelay 50])).
Proof.
  intros Hm Hl. rewrite ledRingTask_iter_default by exact Hm.
  unfold case_default, bind. rewrite fill_solid_all by exact Hl.
  unfold show, delay, ret. cbn [leds world out].
  rewrite <- app_assoc. reflexivity.
Qed.

(** C9 on the array after [setup()], mode 27. *)
Lemma unknown_mode_black_witness :
  exists m',
    ledRingTask_iter demoPlatform 27 50 initStatics
                     (machine (boot (P := demoPlatform) 0))
    = Some (initStatics, m')
    /\ leds m' = replicate 96 Black
    /\ out m' = [EvShow (replicate 96 Black); EvDelay 50].
Proof.
  eexists. split; [|split].
  - apply (unknown_mode_black (P := demoPlatform) 27 50 initStatics
             (machine (boot (P := demoPlatform) 0))); [lia | reflexivity].
  - reflexivity.
  - reflexivity.
Defined.

(** ** Invariants of the whole system *)

Lemma boot_ok {P} (w : World P) : system_ok (boot w).
Proof.
  split; [|split].
  - unfold config_ok. simpl. lia.
  - constructor; cbn; unfold pos_ok, bounce_ok, wipe_ok, RING_LEDS;
      cbn; try lia; auto.
    split; [lia | auto].
  - split; cbn [boot machine leds].
    + apply length_replicate.
    + apply Forall_replicate, crgb_ok_const.
Qed.

Lemma ledRingTask_entry_ok mode st :
  statics_ok st -> statics_ok (ledRingTask_entry mode st).
Proof.
  intros Hst. unfold ledRingTask_entry.
  destruct (negb (mode =? 4)); [|exact Hst].
  pose proof (ok_wipe _ Hst) as Hw. keep_statics Hst.
Qed.

Lemma step_ok {P} (HP : PlatformOK P) (s s' : System P) :
  step s s' -> system_ok s -> system_ok s'.
Proof.
  intros Hs (Hc & Hst & Hm).
  destruct Hs as [s m b | s now | s _ | s s' _ E | s w].
  - split; [apply handleSet_ok, Hc | split; assumption].
  - split; [apply buttonTask_iter_ok, Hc | split; assumption].
  - split; [exact Hc | split; [apply ledRingTask_entry_ok, Hst | exact Hm]].
  - unfold sys_ring_iter in E.
    destruct (ledRingTask_iter_safe P HP (currentMode (config s))
                (ringBrightness (config s)) (statics s) Hst (machine s) Hm)
      as (st' & m' & E' & Hm' & Hst').
    rewrite E' in E. injection E as <-.
    split; [exact Hc | split; assumption].
  - split; [exact Hc | split; [exact Hst | exact Hm]].
Qed.

Lemma reachable_ok {P} (HP : PlatformOK P) (s : System P) :
  reachable s -> system_ok s.
Proof.
  induction 1 as [w | s s' _ IH Hs].
  - apply boot_ok.
  - eapply step_ok; eauto.
Qed.

(** C8: from every reachable state and for every mode 0..26 (and any
    brightness read), one pass of the render loop terminates without a
    store or load outside [leds[0..95]] (such an access is a failure of
    the model), and leaves 96 pixels, each with three byte-valued
    channels, and statics that satisfy the invariant again. *)
Theorem render_in_bounds {P} (HP : PlatformOK P) (s : System P) mode bright :
  reachable s ->
  0 <= mode <= 26 ->
  exists st' m',
    ledRingTask_iter P mode bright (statics s) (machine s) = Some (st', m')
    /\ length (leds m') = 96%nat
    /\ Forall crgb_ok (leds m')
    /\ statics_ok st'.
Proof.
  intros Hr Hmode. destruct (reachable_ok HP s Hr) as (_ & Hst & Hm).
  destruct (ledRingTask_iter_safe P HP mode bright (statics s) Hst
              (machine s) Hm) as (st' & m' & E & [Hl Hf] & Hst').
  exists st', m'. auto.
Qed.

(** C8 for the bounce mode on the state after [setup()]. *)
Lemma render_in_bounds_witness :
  exists st' m',
    ledRingTask_iter demoPlatform 12 50
                     (statics (boot (P := demoPlatform) 0))
                     (machine (boot (P := demoPlatform) 0))
    = Some (st', m')
    /\ length (leds m') = 96%nat
    /\ Forall crgb_ok (leds m')
    /\ statics_ok st'.
Proof.
  apply (render_in_bounds demo_ok (boot (P := demoPlatform) 0) 12 50).
  - apply reach_boot.
  - lia.
Defined.

(** ** Reading a result back *)

Lemma bind_Some {P A B} (m : M P A) (k : A -> M P B) s b s' :
  bind m k s = Some (b, s') ->
  exists a s1, m s = Some (a, s1) /\ k a s1 = Some (b, s').
Proof.
  unfold bind. destruct (m s) as [[a s1]|]; [|discriminate].
  intros H. exists a, s1. auto.
Qed.

Ltac bind_inv :=
  repeat match goal with
    | H : bind _ _ _ = Some _ |- _ =>
        apply bind_Some in H; destruct H as (? & ? & ? & H)
    | H : ret _ _ = Some _ |- _ =>
        unfold ret in H; injection H as ? ?; subst
    end.

(** Every case but 4 leaves the side-wipe statics alone. *)
Lemma ledRingTask_iter_wipe P mode bright st m st' m' :
  ledRingTask_iter P mode bright st m = Some (st', m') ->
  mode <> 4 -> wipe st' = wipe st.
Proof.
  intros E Hm.
  destruct (Z_le_dec 0 mode) as [H0|H0];
    [destruct (Z_le_dec mode 26) as [H1|H1]|].
  2,3: rewrite ledRingTask_iter_default in E by lia; bind_inv; reflexivity.
  assert (H : 0 <= mode <= 26) by lia. clear H0 H1.
  each_mode H; try (exfalso; apply Hm; reflexivity);
    cbn [ledRingTask_iter] in E; bind_inv; reflexivity.
Qed.

Lemma case4_result P w m w' m' :
  case4 P w m = Some (w', m') -> w' = wipe_next w.
Proof.
  unfold case4, wipe_next. intros E.
  apply bind_Some in E. destruct E as (w1 & m1 & E1 & E).
  assert (Hw1 : w1 = if sideWipeInitialized w then w
                     else mkWipe 0 (wipeColor w) true).
  { destruct (sideWipeInitialized w); cbn [negb] in E1; cbv zeta in E1;
      bind_inv; reflexivity. }
  rewrite <- Hw1. clear E1 Hw1. cbv zeta in *.
  bind_inv. destruct (wipeExp w1 +i 1 >? 24); bind_inv; reflexivity.
Qed.

Lemma ledRingTask_iter_mode4 P bright st m st' m' :
  ledRingTask_iter P 4 bright st m = Some (st', m') ->
  wipe st' = wipe_next (wipe st).
Proof.
  cbn [ledRingTask_iter]. intros E. bind_inv.
  cbn [set_wipe wipe]. eapply case4_result; eassumption.
Qed.

Lemma wipe_next_inv w : wipe_inv w -> wipe_inv (wipe_next w).
Proof.
  unfold wipe_inv, wipe_ok, wipe_next. intros ((He & Hc) & H0).
  destruct (sideWipeInitialized w) eqn:Ei; cbv zeta;
    cbn [wipeExp wipeColor sideWipeInitialized];
    rewrite int_add_small by lia;
    match goal with |- context [?x >? 24] => destruct (x >? 24) eqn:E end;
    cbn [wipeExp wipeColor sideWipeInitialized];
    (split; [split; [lia|] | intros; try discriminate; try congruence; try lia]);
    try exact Hc;
    destruct (CRGB_eqb (wipeColor w) Blue); auto.
Qed.

(** What one pass of case 4 does to the colour: it stays, unless the flag
    is set and the counter stands at 24; then the counter returns to 0 and
    the colour becomes the other one. *)
Lemma wipe_next_colour w :
  wipe_inv w ->
  (wipeColor (wipe_next w) = wipeColor w
   /\ ~ (sideWipeInitialized w = true /\ wipeExp w = 24))
  \/ (sideWipeInitialized w = true /\ wipeExp w = 24
      /\ wipeExp (wipe_next w) = 0
      /\ ((wipeColor w = Blue /\ wipeColor (wipe_next w) = Red)
          \/ (wipeColor w = Red /\ wipeColor (wipe_next w) = Blue))).
Proof.
  unfold wipe_inv, wipe_ok, wipe_next. intros ((He & Hc) & H0).
  destruct (sideWipeInitialized w) eqn:Ei; cbv zeta;
    cbn [wipeExp wipeColor sideWipeInitialized];
    rewrite int_add_small by lia.
  - destruct (wipeExp w + 1 >? 24) eqn:E;
      cbn [wipeExp wipeColor sideWipeInitialized].
    + right. repeat split; try lia.
      destruct Hc as [-> | ->]; [left | right]; split; reflexivity.
    + left. split; [reflexivity | lia].
  - left. split; [reflexivity | intros [? _]; discriminate].
Qed.

(** Below 24 a pass of case 4 counts one up and keeps the colour. *)
Lemma wipe_next_count w :
  wipe_inv w -> wipeExp w < 24 ->
  wipeExp (wipe_next w) = wipeExp w + 1
  /\ wipeColor (wipe_next w) = wipeColor w.
Proof.
  unfold wipe_inv, wipe_ok, wipe_next. intros ((He & Hc) & H0) H24.
  destruct (sideWipeInitialized w) eqn:Ei; cbv zeta;
    cbn [wipeExp wipeColor sideWipeInitialized];
    rewrite int_add_small by lia.
  - destruct (wipeExp w + 1 >? 24) eqn:E; [lia|].
    cbn [wipeExp wipeColor]. auto.
  - rewrite (H0 eq_refl). cbn [wipeExp wipeColor Z.add Z.gtb Z.compare
                                Pos.compare Pos.compare_cont]. auto.
Qed.

Lemma sys_ring_iter_Some {P} (s s' : System P) :
  sys_ring_iter s = Some s' ->
  config s' = config s /\ ringStarted s' = true /\
  ledRingTask_iter P (currentMode (config s)) (ringBrightness (config s))
                   (statics s) (machine s)
  = Some (statics s', machine s').
Proof.
  unfold sys_ring_iter.
  destruct (ledRingTask_iter P _ _ _ _) as [[st' m']|]; [|discriminate].
  intros E. injection E as <-. auto.
Qed.

(** Until the render task has started, its statics are the initial
    ones. *)
Lemma reachable_not_started {P} (s : System P) :
  reachable s -> ringStarted s = false -> statics s = initStatics.
Proof.
  induction 1 as [w | s s' _ IH Hs]; [reflexivity|].
  destruct Hs as [s m b | s now | s _ | s s' _ E | s w];
    cbn [sys_handleSet sys_buttons sys_ring_entry sys_world
         ringStarted statics]; auto; try discriminate.
  apply sys_ring_iter_Some in E as (_ & E & _). congruence.
Qed.

Lemma reachable_wipe_inv {P} (s : System P) :
  reachable s -> wipe_inv (wipe (statics s)).
Proof.
  induction 1 as [w | s s' Hr IH Hs].
  - unfold wipe_inv, wipe_ok. cbn. split; [split; [lia | auto] | auto].
  - destruct Hs as [s m b | s now | s Hn | s s' _ E | s w];
      cbn [sys_handleSet sys_buttons sys_ring_entry sys_world statics]; auto.
    + rewrite (reachable_not_started s Hr Hn). unfold ledRingTask_entry.
      destruct (negb (currentMode (config s) =? 4));
        unfold wipe_inv, wipe_ok; cbn; (split; [split; [lia | auto] | auto]).
    + apply sys_ring_iter_Some in E as (_ & _ & E).
      destruct (Z.eq_dec (currentMode (config s)) 4) as [E4|E4].
      * rewrite E4 in E. rewrite (ledRingTask_iter_mode4 _ _ _ _ _ _ E).
        apply wipe_next_inv, IH.
      * rewrite (ledRingTask_iter_wipe _ _ _ _ _ _ _ E E4). exact IH.
Qed.

(** A whole wipe cycle: 24 passes of case 4 keep the colour and count up,
    the 25th brings the counter back to 0 with the other colour. *)
Lemma wipe_cycle c :
  c = Blue \/ c = Red ->
  (forall k, (k < 25)%nat ->
     Nat.iter k wipe_next (mkWipe 0 c true) = mkWipe (Z.of_nat k) c true)
  /\ Nat.iter 25 wipe_next (mkWipe 0 c true)
     = mkWipe 0 (if CRGB_eqb c Blue then Red else Blue) true.
Proof.
  intros Hc.
  assert (H : forall k, (k < 25)%nat ->
            Nat.iter k wipe_next (mkWipe 0 c true) = mkWipe (Z.of_nat k) c true).
  { induction k as [|k IH]; intros Hk; [reflexivity|].
    rewrite Nat.iter_succ, IH by lia. unfold wipe_next.
    cbn [wipeExp wipeColor sideWipeInitialized]. rewrite int_add_small by lia.
    destruct (Z.of_nat k + 1 >? 24) eqn:E; [lia|]. f_equal. lia. }
  split; [exact H|].
  change 25%nat with (S 24). rewrite Nat.iter_succ, H by lia.
  destruct Hc as [-> | ->]; reflexivity.
Qed.

(** C10: the wipe colour starts Blue and is Blue or Red in every reachable
    state. A step of the system leaves it as it is, except a pass of the
    render loop in mode 4 that finds the flag set and the counter at 24
    (so that the incremented counter, 25, exceeds 24): that pass sets the
    counter to 0 and replaces Blue by Red or Red by Blue. Such a pass
    always does so, and a pass in mode 4 that finds the counter below 24
    counts one up and keeps the colour: the colour changes once in 25
    passes. *)
Theorem wipe_colour_invariant {P} :
  (forall w : World P, wipeColor (wipe (statics (boot w))) = Blue)
  /\ (forall s : System P, reachable s ->
        (wipeColor (wipe (statics s)) = Blue
         \/ wipeColor (wipe (statics s)) = Red)
        /\ 0 <= wipeExp (wipe (statics s)) <= 24)
  /\ (forall s s' : System P, reachable s -> step s s' ->
        wipeColor (wipe (statics s')) = wipeColor (wipe (statics s))
        \/ (ringStarted s = true /\ currentMode (config s) = 4
            /\ sys_ring_iter s = Some s'
            /\ wipeExp (wipe (statics s)) = 24
            /\ wipeExp (wipe (statics s')) = 0
            /\ ((wipeColor (wipe (statics s)) = Blue
                 /\ wipeColor (wipe (statics s')) = Red)
                \/ (wipeColor (wipe (statics s)) = Red
                    /\ wipeColor (wipe (statics s')) = Blue))))
  /\ (forall s s' : System P, reachable s ->
        currentMode (config s) = 4 -> wipeExp (wipe (statics s)) = 24 ->
        sys_ring_iter s = Some s' ->
        wipeExp (wipe (statics s')) = 0
        /\ ((wipeColor (wipe (statics s)) = Blue
             /\ wipeColor (wipe (statics s')) = Red)
            \/ (wipeColor (wipe (statics s)) = Red
                /\ wipeColor (wipe (statics s')) = Blue)))
  /\ (forall s s' : System P, reachable s ->
        currentMode (config s) = 4 -> wipeExp (wipe (statics s)) < 24 ->
        sys_ring_iter s = Some s' ->
        wipeExp (wipe (statics s')) = wipeExp (wipe (statics s)) + 1
        /\ wipeColor (wipe (statics s')) = wipeColor (wipe (statics s))).
Proof.
  split; [reflexivity|]. split; [|split; [|split]].
  - intros s Hr. destruct (reachable_wipe_inv s Hr) as ((He & Hc) & _). auto.
  - intros s s' Hr Hs.
    pose proof (reachable_wipe_inv s Hr) as Hinv.
    destruct Hs as [s m b | s now | s Hn | s s' Hst E | s w];
      cbn [sys_handleSet sys_buttons sys_ring_entry sys_world statics];
      auto.
    + left. unfold ledRingTask_entry.
      destruct (negb (currentMode (config s) =? 4)); reflexivity.
    + pose proof E as E0.
      apply sys_ring_iter_Some in E as (_ & _ & E).
      destruct (Z.eq_dec (currentMode (config s)) 4) as [E4|E4].
      * rewrite E4 in E. rewrite (ledRingTask_iter_mode4 _ _ _ _ _ _ E).
        destruct (wipe_next_colour _ Hinv) as [[Hsame _] | (Hi & H24 & H0 & Ht)].
        -- left. exact Hsame.
        -- right. auto 10.
      * left. rewrite (ledRingTask_iter_wipe _ _ _ _ _ _ _ E E4). reflexivity.
  - intros s s' Hr E4 H24 E.
    pose proof (reachable_wipe_inv s Hr) as Hinv.
    apply sys_ring_iter_Some in E as (_ & _ & E).
    rewrite E4 in E. rewrite (ledRingTask_iter_mode4 _ _ _ _ _ _ E).
    destruct (wipe_next_colour _ Hinv) as [[_ Hn] | (Hi & _ & H0 & Ht)].
    + exfalso. apply Hn. split; [|exact H24].
      destruct Hinv as [_ Hz].
      destruct (sideWipeInitialized (wipe (statics s))); [reflexivity|].
      specialize (Hz eq_refl). lia.
    + auto.
  - intros s s' Hr E4 H24 E.
    pose proof (reachable_wipe_inv s Hr) as Hinv.
    apply sys_ring_iter_Some in E as (_ & _ & E).
    rewrite E4 in E. rewrite (ledRingTask_iter_mode4 _ _ _ _ _ _ E).
    apply wipe_next_count; assumption.
Qed.

(** ** Leaving mode 4 and coming back *)

Lemma reachable_ring_iter {P} (s s' : System P) :
  reachable s -> ringStarted s = true -> sys_ring_iter s = Some s' ->
  reachable s'.
Proof.
  intros Hr Hs E. eapply reach_step; [exact Hr|].
  apply step_ring_iter; assumption.
Qed.

Lemma back_to_mode0_reachable {P} (w : World P) s :
  back_to_mode0 w = Some s -> reachable s.
Proof.
  unfold back_to_mode0. intros E.
  destruct (sys_ring_iter (sys_handleSet (Some 4) None
                             (sys_ring_entry (boot w)))) as [s1|] eqn:E1;
    [|discriminate].
  cbn [mbind option_bind] in E.
  destruct (sys_ring_iter s1) as [s2|] eqn:E2; [|discriminate].
  cbn [mbind option_bind] in E.
  destruct (sys_ring_iter s2) as [s3|] eqn:E3; [|discriminate].
  cbn [mbind option_bind] in E.
  assert (R1 : reachable s1).
  { apply (reachable_ring_iter
             (sys_handleSet (Some 4) None (sys_ring_entry (boot w))) s1);
      [ | reflexivity | exact E1].
    eapply reach_step; [eapply reach_step; [apply reach_boot|]|].
    - apply step_ring_entry. reflexivity.
    - apply step_handleSet. }
  assert (R2 : reachable s2).
  { apply (reachable_ring_iter s1 s2); [exact R1 | | exact E2].
    apply sys_ring_iter_Some in E1. tauto. }
  assert (R3 : reachable s3).
  { apply (reachable_ring_iter s2 s3); [exact R2 | | exact E3].
    apply sys_ring_iter_Some in E2. tauto. }
  apply (reachable_ring_iter (sys_handleSet (Some 0) None s3) s);
    [ | | exact E].
  - eapply reach_step; [exact R3 | apply step_handleSet].
  - apply sys_ring_iter_Some in E3. cbn [sys_handleSet ringStarted]. tauto.
Qed.

(** C1 (the code departs from it): after three passes in mode 4 and one
    pass in mode 0 the system is in a reachable state whose mode is 0 and
    whose side-wipe flag is still set, with the counter at 3. The pass
    that follows a switch back to mode 4 neither clears the array nor
    resets the counter: it shows one frame, waits 15 ms, overwrites the
    four pixels of wipe step 3 on the rainbow that mode 0 left, and
    counts on to 4. *)
Theorem side_wipe_not_reinitialised {P} (w : World P) :
  exists s,
    back_to_mode0 w = Some s
    /\ reachable s
    /\ currentMode (config s) = 0
    /\ sideWipeInitialized (wipe (statics s)) = true
    /\ wipeExp (wipe (statics s)) = 3
    /\ exists s',
         sys_ring_iter (sys_handleSet (Some 4) None s) = Some s'
         /\ wipeExp (wipe (statics s')) = 4
         /\ out (machine s')
            = out (machine s) ++ [EvShow (leds (machine s')); EvDelay 15]
         /\ leds (machine s')
            = <[92%nat := Blue]>
                (<[51%nat := Blue]>
                   (<[44%nat := Blue]>
                      (<[3%nat := Blue]> (leds (machine s))))).
Proof.
  eexists. split; [vm_compute; reflexivity|].
  split; [apply (back_to_mode0_reachable w); vm_compute; reflexivity|].
  split; [reflexivity|]. split; [reflexivity|]. split; [reflexivity|].
  eexists. split; [vm_compute; reflexivity|].
  split; [reflexivity|]. split; reflexivity.
Qed.

(** The first pass in mode 4 does clear: it shows an all-black frame and
    waits 50 ms before the first wipe step. *)
Lemma side_wipe_first_entry {P} (w : World P) :
  exists s,
    sys_ring_iter (sys_handleSet (Some 4) None (sys_ring_entry (boot w)))
    = Some s
    /\ wipeExp (wipe (statics s)) = 1
    /\ out (machine s)
       = [EvShow (replicate 96 Black); EvDelay 50;
          EvShow (leds (machine s)); EvDelay 15].
Proof.
  eexists. split; [vm_compute; reflexivity|]. split; reflexivity.
Qed.

(** ** Mode 0 over many frames *)

Lemma to_u8_of_Z h : 0 <= h <= 255 -> F32.to_u8 (F32.of_Z h) = h.
Proof.
  intros H. pose proof (exact_rainbow_hues_48 h H) as E.
  apply (f_equal (fun l => l !! 0%nat)) in E.
  change (exact_rainbow_hues 48 h !! 0%nat)
    with (Some (F32.to_u8 (F32.of_Z h))) in E.
  change (map (hue_at h) (Zrange 48) !! 0%nat)
    with (Some (u8 (h + 0 + 0))) in E.
  injection E as E. rewrite E, !Z.add_0_r. apply u8_small, H.
Qed.

Lemma case0_run {P} h1 h2 (m : Machine P) :
  0 <= h1 <= 255 -> length (leds m) = Z.to_nat NUM_LEDS ->
  exists m',
    case0 P (mkRainbow h1 h2) m
    = Some (mkRainbow (u8 (h1 + 1)) (u8 (h2 + 1)), m')
    /\ length (leds m') = Z.to_nat NUM_LEDS
    /\ leds m' !! 0%nat = Some (hsv P h1 255 255).
Proof.
  intros Hh Hl. unfold case0, bind, fill_ring_with_exact_rainbow.
  cbn [startHueRing1 startHueRing2].
  rewrite rainbow_loop_run by (try exact Hl; unfold NUM_LEDS, RING_LEDS; cbn; lia).
  rewrite rainbow_loop_run;
    [ | unfold RING_LEDS; lia | unfold NUM_LEDS, RING_LEDS; cbn; lia
      | cbn [leds]; rewrite write_at_length; exact Hl ].
  cbv zeta. unfold show, delay, ret. cbn [leds world out].
  eexists. split; [reflexivity|]. cbn [leds]. split.
  - rewrite !write_at_length. exact Hl.
  - rewrite write_at_outside
      by (left; unfold RING_LEDS; cbn; lia).
    change (Z.to_nat (0 + 0)) with 0%nat.
    change (Z.to_nat RING_LEDS) with 48%nat.
    cbn [rainbow_hues map write_at].
    destruct (rainbow_next (fractional RING_LEDS) (F32.of_Z h1)
                (F32.of_double (F32.double_of_Z 0))) as [hue' error'].
    rewrite write_at_outside by (left; lia).
    rewrite list_lookup_insert_eq by (rewrite Hl; unfold NUM_LEDS; lia).
    rewrite to_u8_of_Z by exact Hh. reflexivity.
Qed.

Lemma mode0_frame {P} bright st (m : Machine P) :
  0 <= startHueRing1 (rainbow st) <= 255 ->
  length (leds m) = Z.to_nat NUM_LEDS ->
  exists st' m',
    ledRingTask_iter P 0 bright st m = Some (st', m')
    /\ startHueRing1 (rainbow st') = u8 (startHueRing1 (rainbow st) + 1)
    /\ length (leds m') = Z.to_nat NUM_LEDS
    /\ leds m' !! 0%nat = Some (hsv P (startHueRing1 (rainbow st)) 255 255).
Proof.
  intros Hh Hl. cbn [ledRingTask_iter]. unfold bind at 1.
  destruct (rainbow st) as [h1 h2] eqn:Er. cbn [startHueRing1] in *.
  destruct (case0_run h1 h2 m Hh Hl) as (m' & E & Hl' & Hp).
  rewrite E. unfold ret. eexists. eexists. split; [reflexivity|].
  cbn [set_rainbow rainbow startHueRing1]. auto.
Qed.

(** [n] passes of mode 0 from counter [h0] end with counter
    [(h0 + n) mod 256]; the last pass gave pixel 0 the counter's value
    before its increment. *)
Lemma mode0_frames {P} bright n :
  forall st (m : Machine P),
    0 <= startHueRing1 (rainbow st) <= 255 ->
    length (leds m) = Z.to_nat NUM_LEDS ->
    exists st' m',
      run_modes P (repeat 0 n) bright st m = Some (st', m')
      /\ startHueRing1 (rainbow st')
         = u8 (startHueRing1 (rainbow st) + Z.of_nat n)
      /\ length (leds m') = Z.to_nat NUM_LEDS
      /\ ((0 < n)%nat ->
          leds m' !! 0%nat
          = Some (hsv P (u8 (startHueRing1 (rainbow st) + Z.of_nat n - 1))
                      255 255)).
Proof.
  induction n as [|n IH]; intros st m Hh Hl.
  - exists st, m. split; [reflexivity|]. split; [|split; [exact Hl | lia]].
    rewrite Z.add_0_r. symmetry. apply u8_small, Hh.
  - cbn [repeat run_modes]. unfold bind at 1.
    destruct (mode0_frame bright st m Hh Hl) as (st1 & m1 & E1 & Hc1 & Hl1 & Hp1).
    rewrite E1.
    assert (Hh1 : 0 <= startHueRing1 (rainbow st1) <= 255)
      by (rewrite Hc1; apply u8_range).
    destruct (IH st1 m1 Hh1 Hl1) as (st' & m' & E & Hc & Hl' & Hp).
    exists st', m'. split; [exact E|]. split; [|split; [exact Hl'|]].
    + rewrite Hc, Hc1. unfold u8. rewrite Zplus_mod_idemp_l. f_equal. lia.
    + intros _. destruct n as [|n].
      * cbn [repeat run_modes] in E. unfold ret in E. injection E as <- <-.
        rewrite Hp1. do 2 f_equal.
        replace (startHueRing1 (rainbow st) + Z.of_nat 1 - 1)
          with (startHueRing1 (rainbow st)) by lia.
        symmetry. apply u8_small, Hh.
      * rewrite Hp by lia. rewrite Hc1. unfold u8.
        replace ((startHueRing1 (rainbow st) + 1) mod 256 + Z.of_nat (S n) - 1)
          with ((startHueRing1 (rainbow st) + 1) mod 256 + (Z.of_nat (S n) - 1))
          by lia.
        rewrite Zplus_mod_idemp_l. do 3 f_equal. lia.
Qed.

(** C7 (as stated, refuted): from the state after [setup()] ([h0 = 0]),
    after 48 passes of mode 0 the counter is 48, but the 48th pass gave
    Ring A pixel 0 the hue 47, whereas the hue distribution computes 48 at
    pixel 0 for the starting hue 48. *)
Lemma rainbow_48th_frame_shows_47 :
  exists st m,
    run_modes demoPlatform (repeat 0 48) 50 initStatics
              (machine (boot (P := demoPlatform) 0)) = Some (st, m)
    /\ startHueRing1 (rainbow st) = 48
    /\ exact_rainbow_hues 48 48 !! 0%nat = Some 48
    /\ leds m !! 0%nat = Some (hsv demoPlatform 47 255 255)
    /\ leds m !! 0%nat <> Some (hsv demoPlatform 48 255 255).
Proof.
  destruct (mode0_frames (P := demoPlatform) 50 48 initStatics
              (machine (boot (P := demoPlatform) 0)))
    as (st & m & E & Hc & _ & Hp); [cbn; lia | reflexivity |].
  exists st, m. split; [exact E|]. split; [exact Hc|].
  split; [vm_compute; reflexivity|].
  rewrite Hp by lia. split; [reflexivity|].
  vm_compute. discriminate.
Qed.

(** C7 (amended): starting in mode 0 with [startHueRing1 = h0], after 48
    passes the counter is [(h0 + 48) mod 256]. The 48th pass gave Ring A
    pixel 0 the hue [(h0 + 47) mod 256], the counter's value before that
    pass incremented it; the hue that the hue distribution computes at
    pixel 0 for the starting hue [(h0 + 48) mod 256] is what the next
    pass, the 49th, gives it. *)
Theorem rainbow_after_48_frames {P} bright st (m : Machine P) :
  0 <= startHueRing1 (rainbow st) <= 255 ->
  length (leds m) = Z.to_nat NUM_LEDS ->
  exists st48 m48,
    run_modes P (repeat 0 48) bright st m = Some (st48, m48)
    /\ startHueRing1 (rainbow st48) = (startHueRing1 (rainbow st) + 48) mod 256
    /\ leds m48 !! 0%nat
       = Some (hsv P ((startHueRing1 (rainbow st) + 47) mod 256) 255 255)
    /\ exists st49 m49,
         ledRingTask_iter P 0 bright st48 m48 = Some (st49, m49)
         /\ leds m49 !! 0%nat
            = Some (hsv P ((startHueRing1 (rainbow st) + 48) mod 256) 255 255)
         /\ exact_rainbow_hues 48 ((startHueRing1 (rainbow st) + 48) mod 256)
              !! 0%nat
            = Some ((startHueRing1 (rainbow st) + 48) mod 256).
Proof.
  intros Hh Hl.
  destruct (mode0_frames bright 48 st m Hh Hl)
    as (st48 & m48 & E & Hc & Hl48 & Hp).
  change (Z.of_nat 48) with 48 in Hc, Hp. unfold u8 in Hc, Hp.
  replace (startHueRing1 (rainbow st) + 48 - 1)
    with (startHueRing1 (rainbow st) + 47) in Hp by lia.
  exists st48, m48. split; [exact E|]. split; [exact Hc|].
  split; [apply Hp; lia|].
  assert (Hh48 : 0 <= startHueRing1 (rainbow st48) <= 255)
    by (rewrite Hc; apply (u8_range (startHueRing1 (rainbow st) + 48))).
  destruct (mode0_frame bright st48 m48 Hh48 Hl48)
    as (st49 & m49 & E' & _ & _ & Hp').
  exists st49, m49. split; [exact E'|]. rewrite <- Hc. split; [exact Hp'|].
  rewrite exact_rainbow_hues_48 by exact Hh48.
  change (map (hue_at (startHueRing1 (rainbow st48))) (Zrange 48) !! 0%nat)
    with (Some (u8 (startHueRing1 (rainbow st48) + 0 + 0))).
  rewrite !Z.add_0_r. f_equal. apply u8_small, Hh48.
Qed.

(** C7 (amended) on the state after [setup()]. *)
Lemma rainbow_after_48_frames_witness :
  exists st48 m48,
    run_modes demoPlatform (repeat 0 48) 50 initStatics
              (machine (boot (P := demoPlatform) 0)) = Some (st48, m48)
    /\ startHueRing1 (rainbow st48) = 48
    /\ leds m48 !! 0%nat = Some (mkCRGB 47 255 255).
Proof.
  destruct (rainbow_after_48_frames (P := demoPlatform) 50 initStatics
              (machine (boot (P := demoPlatform) 0)))
    as (st48 & m48 & E & Hc & Hp & _); [cbn; lia | reflexivity |].
  exists st48, m48. split; [exact E|]. split; [exact Hc | exact Hp].
Defined.

(** ** The status LED *)

Lemma heartbeat_ok s : status_ok s -> status_ok (heartbeat s).
Proof.
  unfold status_ok, heartbeat, brightnessStep. intros (Hb & H3 & Hh & Hp).
  destruct (increasing s) eqn:Ei.
  - rewrite int_add_small by lia.
    destruct (statusBrightness s + 3 >=? 255) eqn:E;
      cbn [statusBrightness increasing statusHue pulseRestarted].
    + repeat split; try lia; auto.
    + repeat split; try lia; try discriminate.
      rewrite <- Z.add_mod_idemp_l, H3 by lia. reflexivity.
  - rewrite int_sub_small by lia. specialize (Hp eq_refl). rewrite Hp.
    cbn [negb].
    destruct (statusBrightness s - 3 <=? 0) eqn:E;
      cbn [statusBrightness increasing statusHue pulseRestarted].
    + repeat split; try lia; try discriminate; apply u8_range.
    + repeat split; try lia; auto.
      rewrite <- Zminus_mod_idemp_l, H3. reflexivity.
Qed.

Lemma status_iter_ok P pow n s :
  status_ok s -> status_ok (fst (fst (statusLEDTask_iter P pow n s))).
Proof.
  intros H. unfold statusLEDTask_iter.
  destruct (n =? 0); cbn [fst]; [exact H | apply heartbeat_ok, H].
Qed.

(** X1: whatever the sequence of connected and disconnected passes, the
    status brightness stays in [0,255] and a multiple of 3, the hue stays
    a byte, and while the brightness falls no restart is pending. *)
Theorem status_run_ok P pow ns :
  status_ok (status_run P pow ns initStatus).
Proof.
  assert (H : forall s, status_ok s -> status_ok (status_run P pow ns s)).
  { induction ns as [|n ns IH]; intros s Hs; cbn [status_run]; auto.
    apply IH, status_iter_ok, Hs. }
  apply H. unfold status_ok, initStatus. cbn.
  repeat split; try lia; try discriminate.
Qed.

(** X2: on a connected pass the hue moves exactly when the falling
    brightness arrives at 0, and then by 21 modulo 256; every such arrival
    moves it (the [pulseRestarted] guard never blocks), and the arrival
    turns the direction to rising. *)
Theorem status_hue_step P pow n s :
  status_ok s -> n <> 0 ->
  let s' := fst (fst (statusLEDTask_iter P pow n s)) in
  (increasing s = false /\ statusBrightness s <= 3 ->
     statusHue s' = (statusHue s + 21) mod 256
     /\ statusBrightness s' = 0 /\ increasing s' = true)
  /\ (~ (increasing s = false /\ statusBrightness s <= 3) ->
     statusHue s' = statusHue s).
Proof.
  intros (Hb & H3 & Hh & Hp) Hn. unfold statusLEDTask_iter.
  destruct (n =? 0) eqn:En; [apply Z.eqb_eq in En; contradiction|].
  cbn [fst]. unfold heartbeat, brightnessStep. split.
  - intros [Ei H]. rewrite Ei, (Hp Ei). cbn [negb].
    rewrite int_sub_small by lia.
    destruct (statusBrightness s - 3 <=? 0) eqn:E; [|lia].
    cbn [statusHue statusBrightness increasing]. auto.
  - intros H. destruct (increasing s) eqn:Ei.
    + rewrite int_add_small by lia.
      destruct (statusBrightness s + 3 >=? 255); reflexivity.
    + rewrite int_sub_small by lia.
      destruct (statusBrightness s - 3 <=? 0) eqn:E; [|reflexivity].
      exfalso. apply H. split; [reflexivity | lia].
Qed.

(** X2 on the last falling pass of a pulse. *)
Lemma status_hue_step_witness :
  statusHue (fst (fst (statusLEDTask_iter demoPlatform (fun x _ => x) 1
                         (mkStatus 3 false 250 false false))))
  = 15.
Proof.
  assert (Hok : status_ok (mkStatus 3 false 250 false false))
    by (unfold status_ok; cbn; repeat split; lia).
  destruct (status_hue_step demoPlatform (fun x _ => x) 1 _ Hok ltac:(lia))
    as [H _].
  destruct (H ltac:(cbn; split; [reflexivity | lia])) as (Hh & _).
  exact Hh.
Defined.

Lemma heartbeat_redState s : redState (heartbeat s) = redState s.
Proof.
  unfold heartbeat.
  repeat match goal with
    | |- context [if ?b then _ else _] => destruct b
    end; reflexivity.
Qed.

Lemma heartbeat_set_redState r s :
  heartbeat (set_redState r s) = set_redState r (heartbeat s).
Proof.
  unfold heartbeat, set_redState.
  cbn [statusBrightness increasing statusHue pulseRestarted redState].
  repeat match goal with
    | |- context [if ?b then _ else _] => destruct b
    end; reflexivity.
Qed.

Lemma iter_heartbeat_set_redState k r s :
  Nat.iter k heartbeat (set_redState r s)
  = set_redState r (Nat.iter k heartbeat s).
Proof.
  induction k as [|k IH]; [reflexivity|].
  rewrite !Nat.iter_succ, IH. apply heartbeat_set_redState.
Qed.

Lemma iter_heartbeat_redState k s :
  redState (Nat.iter k heartbeat s) = redState s.
Proof.
  induction k as [|k IH]; [reflexivity|].
  rewrite Nat.iter_succ, heartbeat_redState. exact IH.
Qed.

(** X3: disconnected passes freeze the heartbeat. After any sequence of
    passes the brightness, direction, hue and restart flag are those
    reached by the connected passes alone, and the red flag has flipped
    once per disconnected pass. *)
Theorem status_run_split P pow ns s :
  status_run P pow ns s
  = set_redState (xorb (redState s) (odd_disconnected ns))
                 (Nat.iter (connected_passes ns) heartbeat s).
Proof.
  revert s. induction ns as [|n ns IH]; intros s.
  - cbn. destruct s as [b i h p r]. unfold set_redState. cbn.
    rewrite xorb_false_r. reflexivity.
  - cbn [status_run]. rewrite IH. unfold statusLEDTask_iter.
    unfold connected_passes, odd_disconnected. cbn [List.filter].
    destruct (n =? 0) eqn:En; cbn [negb fst length].
    + fold (set_redState (negb (redState s)) s).
      rewrite iter_heartbeat_set_redState.
      unfold set_redState.
      cbn [statusBrightness increasing statusHue pulseRestarted redState].
      rewrite Nat.odd_succ, <- Nat.negb_odd. f_equal.
      destruct (redState s),
        (Nat.odd (length (List.filter (fun n0 => n0 =? 0) ns))); reflexivity.
    + rewrite heartbeat_redState.
      rewrite Nat.iter_succ_r. reflexivity.
Qed.

(** One pulse: 85 rising passes, 85 falling ones. *)
Lemma heartbeat_pulse h p r :
  Nat.iter 85 heartbeat (mkStatus 0 true h p r) = mkStatus 255 false h false r
  /\ Nat.iter 170 heartbeat (mkStatus 0 true h p r)
     = mkStatus 0 true (u8 (h + hueStep)) true r.
Proof. split; vm_compute; reflexivity. Qed.

(** X4: a pulse of the heartbeat takes 170 connected passes, 85 up to
    brightness 255 and 85 back to 0, and moves the hue by 21; [k] pulses
    from hue [h] end at hue [(h + 21 k) mod 256], so that the twelve steps
    of the source's partition end at 252, short of a full turn. *)
Theorem heartbeat_pulses k h p r :
  0 <= h <= 255 ->
  Nat.iter (85 + 170 * k) heartbeat (mkStatus 0 true h p r)
  = mkStatus 255 false ((h + 21 * Z.of_nat k) mod 256) false r
  /\ Nat.iter (170 * S k) heartbeat (mkStatus 0 true h p r)
     = mkStatus 0 true ((h + 21 * Z.of_nat (S k)) mod 256) true r.
Proof.
  intros Hh.
  assert (H : forall j q,
            Nat.iter (170 * j) heartbeat (mkStatus 0 true h q r)
            = mkStatus 0 true ((h + 21 * Z.of_nat j) mod 256)
                       (match j with O => q | S _ => true end) r).
  { induction j as [|j IH]; intros q.
    - change (170 * 0)%nat with 0%nat. change (Z.of_nat 0) with 0.
      unfold Nat.iter. cbn [nat_rect].
      rewrite Z.mul_0_r, Z.add_0_r, Z.mod_small by lia. reflexivity.
    - replace (170 * S j)%nat with (170 + 170 * j)%nat by lia.
      rewrite Nat.iter_add, IH.
      destruct (heartbeat_pulse ((h + 21 * Z.of_nat j) mod 256)
                  (match j with O => q | S _ => true end) r) as [_ E].
      rewrite E. unfold u8, hueStep. f_equal.
      change (u8 (256 /i NUM_PARTITIONS)) with 21.
      rewrite Zplus_mod_idemp_l. f_equal. lia. }
  split.
  - rewrite Nat.iter_add, H.
    destruct (heartbeat_pulse ((h + 21 * Z.of_nat k) mod 256)
                (match k with O => p | S _ => true end) r) as [E _].
    exact E.
  - rewrite H. reflexivity.
Qed.

(** X4 for the twelfth pulse after power-up. *)
Lemma heartbeat_pulses_witness :
  Nat.iter (170 * 12) heartbeat initStatus = mkStatus 0 true 252 true false.
Proof.
  destruct (heartbeat_pulses 11 0 false false ltac:(lia)) as [_ H].
  exact H.
Defined.

(** ** More on the mode controller *)

(** X5: a [/set] request repeated changes nothing more: [handleSet] is
    idempotent, for every pair of arguments and every configuration. *)
Theorem handleSet_idempotent mode brightness c :
  handleSet mode brightness (handleSet mode brightness c)
  = handleSet mode brightness c.
Proof.
  unfold handleSet. cfg_simp. destruct mode as [m|], brightness as [b|];
    repeat match goal with
      | |- context [if ?t then _ else _] => destruct t eqn:?
      end;
    cbn [currentMode ringBrightness fastledBrightness];
    repeat match goal with
      | H : ?t = _ |- context [if ?t then _ else _] => rewrite H
      end;
    cbn [currentMode ringBrightness fastledBrightness];
    try reflexivity; destruct c; reflexivity.
Qed.

(** X6: mode up and mode down undo each other on a configuration in
    range, in either order, and a pass of the button loop that sees both
    mode buttons fall leaves the configuration as it was. *)
Theorem mode_up_down_inverse c :
  config_ok c ->
  modeDecrement (modeIncrement c) = c
  /\ modeIncrement (modeDecrement c) = c
  /\ fst (buttonTask_iter (mkPins LOW LOW HIGH HIGH) initPins c) = c.
Proof.
  intros [Hm Hb]. destruct c as [m b f].
  cbn [currentMode ringBrightness] in *.
  assert (H1 : modeDecrement (modeIncrement (mkConfig m b f)) = mkConfig m b f).
  { unfold modeDecrement, modeIncrement. cfg_simp.
    rewrite int_add_small by lia. rewrite int_rem_nonneg by lia.
    destruct (Z.eq_dec m 26) as [->|Hne].
    - reflexivity.
    - rewrite Z.mod_small by lia. rewrite !int_sub_small by lia.
      destruct (m + 1 - 1 <? 0) eqn:E; [lia|]. f_equal. lia. }
  split; [exact H1|]. split; [|exact H1].
  unfold modeDecrement, modeIncrement. cfg_simp.
  rewrite !int_sub_small by lia.
  destruct (m - 1 <? 0) eqn:E; cbn [currentMode ringBrightness fastledBrightness].
  - assert (m = 0) by lia. subst. reflexivity.
  - rewrite int_add_small by lia. rewrite int_rem_nonneg by lia.
    rewrite Z.mod_small by lia. f_equal. lia.
Qed.

(** X6 at mode 26, where the increment wraps. *)
Lemma mode_up_down_inverse_witness :
  modeDecrement (modeIncrement (mkConfig 26 50 50)) = mkConfig 26 50 50.
Proof.
  apply (mode_up_down_inverse (mkConfig 26 50 50)).
  unfold config_ok. cbn. lia.
Defined.

(** X7: [k] presses of the mode-up button from mode [m] end in mode
    [(m + k) mod 27] and leave the brightness alone; 27 presses come back
    to the same configuration. *)
Theorem mode_presses k c :
  config_ok c ->
  Nat.iter k modeIncrement c
  = set_currentMode ((currentMode c + Z.of_nat k) mod 27) c
  /\ Nat.iter 27 modeIncrement c = c.
Proof.
  intros [Hm Hb].
  assert (H : forall j, Nat.iter j modeIncrement c
                        = set_currentMode ((currentMode c + Z.of_nat j) mod 27) c).
  { induction j as [|j IH].
    - unfold Nat.iter. cbn [nat_rect]. change (Z.of_nat 0) with 0.
      rewrite Z.add_0_r, Z.mod_small by lia. destruct c; reflexivity.
    - rewrite Nat.iter_succ, IH. unfold modeIncrement. cfg_simp.
      pose proof (Z.mod_pos_bound (currentMode c + Z.of_nat j) 27 ltac:(lia)).
      rewrite int_add_small by lia. rewrite int_rem_nonneg by lia.
      rewrite Zplus_mod_idemp_l. do 2 f_equal. lia. }
  split; [apply H|]. rewrite H. change (Z.of_nat 27) with 27.
  rewrite <- Zplus_mod_idemp_r. change (27 mod 27) with 0.
  rewrite Z.add_0_r, Z.mod_small by lia. destruct c; reflexivity.
Qed.

(** X7 for 30 presses from the initial mode. *)
Lemma mode_presses_witness :
  currentMode (Nat.iter 30 modeIncrement initConfig) = 3.
Proof.
  assert (H : config_ok initConfig) by (unfold config_ok; cbn; lia).
  destruct (mode_presses 30 initConfig H) as [E _]. rewrite E. reflexivity.
Defined.

Lemma pressed_same l : pressed l l = false.
Proof. destruct l; reflexivity. Qed.

(** X9: the button loop is edge-triggered. A pass that finds no button
    newly down changes nothing, and after any pass a second pass reading
    the same levels changes nothing: a button held down counts once. *)
Theorem button_held_counts_once now last c :
  (pressed (pinModeInc now) (pinModeInc last) = false ->
   pressed (pinModeDec now) (pinModeDec last) = false ->
   pressed (pinBrightInc now) (pinBrightInc last) = false ->
   pressed (pinBrightDec now) (pinBrightDec last) = false ->
   buttonTask_iter now last c = (c, now))
  /\ buttonTask_iter now (snd (buttonTask_iter now last c))
                     (fst (buttonTask_iter now last c))
     = (fst (buttonTask_iter now last c), now).
Proof.
  split.
  - intros H1 H2 H3 H4. unfold buttonTask_iter. rewrite H1, H2, H3, H4.
    reflexivity.
  - generalize (fst (buttonTask_iter now last c)). intros c1.
    unfold buttonTask_iter at 1. cbn [snd].
    unfold buttonTask_iter. rewrite !pressed_same. reflexivity.
Qed.

(** X10: brightness up then down returns to the start unless the start
    was above 245, where the pair ends at 245; down then up returns unless
    the start was below 10, where the pair ends at 10. *)
Theorem brightness_up_down c :
  config_ok c ->
  ringBrightness (brightnessDecrement (brightnessIncrement c))
  = Z.min (ringBrightness c) 245
  /\ ringBrightness (brightnessIncrement (brightnessDecrement c))
     = Z.max (ringBrightness c) 10.
Proof.
  intros [Hm Hb]. unfold brightnessDecrement, brightnessIncrement. cfg_simp.
  split.
  - rewrite int_add_small by lia.
    destruct (ringBrightness c + 10 >? 255) eqn:E;
      cbn [ringBrightness]; rewrite int_sub_small by lia;
      match goal with |- context [?x <? 0] => destruct (x <? 0) eqn:E' end;
      cbn [ringBrightness]; lia.
  - rewrite int_sub_small by lia.
    destruct (ringBrightness c - 10 <? 0) eqn:E;
      cbn [ringBrightness]; rewrite int_add_small by lia;
      match goal with |- context [?x >? 255] => destruct (x >? 255) eqn:E' end;
      cbn [ringBrightness]; lia.
Qed.

(** X10 at brightness 250. *)
Lemma brightness_up_down_witness :
  ringBrightness (brightnessDecrement (brightnessIncrement (mkConfig 0 250 250)))
  = 245.
Proof.
  assert (H : config_ok (mkConfig 0 250 250)) by (unfold config_ok; cbn; lia).
  destruct (brightness_up_down _ H) as [E _]. rewrite E. reflexivity.
Defined.

(** ** One frame and one wait per pass *)

Lemma quiet_ret {P A} (a : A) : quiet (P := P) (ret a).
Proof. intros s a' s' H. unfold ret in H. injection H as _ <-. reflexivity. Qed.

Lemma quiet_bind {P A B} (m : M P A) (k : A -> M P B) :
  quiet m -> (forall a, quiet (k a)) -> quiet (bind m k).
Proof.
  intros Hm Hk s b s' H. apply bind_Some in H as (a & s1 & H1 & H2).
  rewrite (Hk a _ _ _ H2). eapply Hm, H1.
Qed.

Lemma quiet_store {P} i c : quiet (P := P) (store i c).
Proof.
  intros s a s' H. unfold store in H.
  destruct (in_leds i && (i <? Z.of_nat (length (leds s)))); [|discriminate].
  injection H as _ <-. reflexivity.
Qed.

Lemma quiet_load {P} i : quiet (P := P) (load i).
Proof.
  intros s a s' H. unfold load in H.
  destruct (in_leds i); [|discriminate].
  destruct (leds s !! Z.to_nat i); [|discriminate].
  injection H as _ <-. reflexivity.
Qed.

Lemma quiet_add_led {P} i c : quiet (P := P) (add_led i c).
Proof.
  unfold add_led. apply quiet_bind; [apply quiet_load|].
  intros. apply quiet_store.
Qed.

Lemma quiet_for_loop {P} n i (body : Z -> M P unit) :
  (forall j, quiet (body j)) -> quiet (for_loop n i body).
Proof.
  intros H. revert i. induction n as [|n IH]; intros i; cbn [for_loop].
  - apply quiet_ret.
  - apply quiet_bind; [apply H | intros; apply IH].
Qed.

Lemma quiet_for {P} lo hi (body : Z -> M P unit) :
  (forall j, quiet (body j)) -> quiet (for_ lo hi body).
Proof. intros H. apply quiet_for_loop, H. Qed.

Lemma quiet_fill_solid {P} ring n c : quiet (P := P) (fill_solid ring n c).
Proof. apply quiet_for. intros. apply quiet_store. Qed.

Lemma quiet_fadeToBlackBy {P} ring n k : quiet (P := P) (fadeToBlackBy ring n k).
Proof.
  apply quiet_for. intros. apply quiet_bind; [apply quiet_load|].
  intros. apply quiet_store.
Qed.

Lemma quiet_ask {P} (f : World P -> Z * World P) : quiet (ask f).
Proof.
  intros s a s' H. unfold ask in H. destruct (f (world s)).
  injection H as _ <-. reflexivity.
Qed.

Lemma quiet_rainbow_loop {P} n ring i frac hue error :
  quiet (P := P) (rainbow_loop n ring i frac hue error).
Proof.
  revert i hue error. induction n as [|n IH]; intros i hue error;
    cbn [rainbow_loop].
  - apply quiet_ret.
  - apply quiet_bind; [apply quiet_store|]. intros _.
    destruct (rainbow_next frac hue error). apply IH.
Qed.

Lemma quiet_fill_ring {P} ring ringSize startHue :
  quiet (P := P) (fill_ring_with_exact_rainbow ring ringSize startHue).
Proof. apply quiet_rainbow_loop. Qed.

Lemma still_ret {P A} (a : A) : still (P := P) (ret a).
Proof. intros s a' s' H. unfold ret in H. injection H as _ <-. auto. Qed.

Lemma still_bind {P A B} (m : M P A) (k : A -> M P B) :
  still m -> (forall a, still (k a)) -> still (bind m k).
Proof.
  intros Hm Hk s b s' H. apply bind_Some in H as (a & s1 & H1 & H2).
  destruct (Hm _ _ _ H1) as [E1 E2]. destruct (Hk a _ _ _ H2) as [E3 E4].
  split; congruence.
Qed.

Lemma still_ask {P} (f : World P -> Z * World P) : still (ask f).
Proof.
  intros s a s' H. unfold ask in H. destruct (f (world s)).
  injection H as _ <-. auto.
Qed.

Lemma shows_show_delay {P A} d (k : M P A) :
  still k -> shows_once d (bind show (fun _ => bind (delay d) (fun _ => k))).
Proof.
  intros Hk s a s' H. unfold bind at 1, show in H.
  unfold bind at 1, delay in H. cbn [leds world out] in H.
  destruct (Hk _ _ _ H) as [E1 E2]. cbn [leds out] in E1, E2.
  rewrite E1, E2, <- app_assoc. reflexivity.
Qed.

Lemma shows_show_delay_end {P} d :
  shows_once (P := P) d (bind show (fun _ => delay d)).
Proof.
  intros s a s' H. unfold bind, show, delay in H. injection H as _ <-.
  cbn [leds out]. rewrite <- app_assoc. reflexivity.
Qed.

Lemma shows_bind_quiet {P A B} d (m : M P A) (k : A -> M P B) :
  quiet m -> (forall a, shows_once d (k a)) -> shows_once d (bind m k).
Proof.
  intros Hm Hk s b s' H. apply bind_Some in H as (a & s1 & H1 & H2).
  rewrite (Hk a _ _ _ H2), (Hm _ _ _ H1). reflexivity.
Qed.

Lemma shows_bind_still {P A B} d (m : M P A) (k : A -> M P B) :
  shows_once d m -> (forall a, still (k a)) -> shows_once d (bind m k).
Proof.
  intros Hm Hk s b s' H. apply bind_Some in H as (a & s1 & H1 & H2).
  destruct (Hk a _ _ _ H2) as [E1 E2].
  rewrite E1, E2. eapply Hm, H1.
Qed.

Ltac quiet_walk :=
  repeat lazymatch goal with
    | |- quiet (bind _ _) => apply quiet_bind; [ | intros ? ]
    | |- quiet (ret _) => apply quiet_ret
    | |- quiet (store _ _) => apply quiet_store
    | |- quiet (load _) => apply quiet_load
    | |- quiet (add_led _ _) => apply quiet_add_led
    | |- quiet (fill_solid _ _ _) => apply quiet_fill_solid
    | |- quiet (fadeToBlackBy _ _ _) => apply quiet_fadeToBlackBy
    | |- quiet (fill_ring_with_exact_rainbow _ _ _) => apply quiet_fill_ring
    | |- quiet (ask _) => apply quiet_ask
    | |- quiet (for_ _ _ _) => apply quiet_for; intros ?
    | |- quiet (if ?b then _ else _) => destruct b
    | |- quiet (match ?x with Some _ => _ | None => _ end) => destruct x
    | |- quiet (let _ := _ in _) => cbv zeta
    end.

Ltac still_walk :=
  repeat lazymatch goal with
    | |- still (bind _ _) => apply still_bind; [ | intros ? ]
    | |- still (ret _) => apply still_ret
    | |- still (ask _) => apply still_ask
    | |- still (if ?b then _ else _) => destruct b
    | |- still (let _ := _ in _) => cbv zeta
    end.

Ltac shows_walk :=
  repeat lazymatch goal with
    | |- shows_once _ (bind show (fun _ => bind (delay _) _)) =>
        apply shows_show_delay; still_walk
    | |- shows_once _ (bind show (fun _ => delay _)) =>
        apply shows_show_delay_end
    | |- shows_once _ (bind _ _) =>
        apply shows_bind_quiet; [solve [quiet_walk] | intros ? ]
    | |- shows_once _ (if ?b then _ else _) => destruct b
    | |- shows_once _ (let _ := _ in _) => cbv zeta
    end.

Section CasesShow.
Context (P : Platform).

Lemma case0_shows s : shows_once 10 (case0 P s).
Proof. unfold case0. shows_walk. Qed.
Lemma case1_shows : shows_once 50 (case1 P).
Proof. unfold case1. shows_walk. Qed.
Lemma case2_shows t : shows_once 100 (case2 P t).
Proof. unfold case2. shows_walk. Qed.
Lemma case3_shows o : shows_once 50 (case3 P o).
Proof. unfold case3. shows_walk. Qed.
Lemma case5_shows : shows_once 30 (case5 P).
Proof. unfold case5. shows_walk. Qed.
Lemma case6_shows g : shows_once 20 (case6 P g).
Proof. unfold case6. shows_walk. Qed.
Lemma case7_shows g : shows_once 20 (case7 P g).
Proof. unfold case7. shows_walk. Qed.
Lemma case8_shows s : shows_once 30 (case8 P s).
Proof. unfold case8. shows_walk. Qed.
Lemma case9_shows s g : shows_once 20 (case9 P s g).
Proof. unfold case9. shows_walk. Qed.
Lemma case10_shows b s g : shows_once 30 (case10 P b s g).
Proof.
  unfold case10. apply shows_bind_still; [|intros; apply still_ret].
  shows_walk.
Qed.
Lemma case11_shows s g : shows_once 30 (case11 P s g).
Proof. unfold case11. shows_walk. Qed.
Lemma case12_shows s g : shows_once 40 (case12 P s g).
Proof. unfold case12. shows_walk. Qed.
Lemma case13_shows b x : shows_once 20 (case13 P b x).
Proof. unfold case13. shows_walk. Qed.
Lemma case14_shows b g : shows_once 30 (case14 P b g).
Proof. unfold case14. shows_walk. Qed.
Lemma case15_shows g : shows_once 20 (case15 P g).
Proof. unfold case15. shows_walk. Qed.
Lemma case16_shows g : shows_once 30 (case16 P g).
Proof. unfold case16. shows_walk. Qed.
Lemma case17_shows b s g : shows_once 30 (case17 P b s g).
Proof. unfold case17. shows_walk. Qed.
Lemma case18_shows s g : shows_once 40 (case18 P s g).
Proof. unfold case18. shows_walk. Qed.
Lemma case19_shows g : shows_once 20 (case19 P g).
Proof. unfold case19. shows_walk. Qed.
Lemma case20_shows g : shows_once 20 (case20 P g).
Proof. unfold case20. shows_walk. Qed.
Lemma case21_shows c g : shows_once 30 (case21 P c g).
Proof. unfold case21. shows_walk. Qed.
Lemma case22_shows s g : shows_once 10 (case22 P s g).
Proof. unfold case22, static_random. shows_walk. Qed.
Lemma case23_shows c g : shows_once 100 (case23 P c g).
Proof. unfold case23. shows_walk. Qed.
Lemma case24_shows g : shows_once 80 (case24 P g).
Proof. unfold case24. shows_walk. Qed.
Lemma case25_shows s g : shows_once 10 (case25 P s g).
Proof. unfold case25. shows_walk. Qed.
Lemma case26_shows s g : shows_once 50 (case26 P s g).
Proof. unfold case26. shows_walk. Qed.
Lemma case_default_shows : shows_once 50 (case_default P).
Proof. unfold case_default. shows_walk. Qed.

(** Case 4 once its flag is set. *)
Lemma case4_shows s :
  sideWipeInitialized s = true -> shows_once 15 (case4 P s).
Proof.
  intros Hi. unfold case4. rewrite Hi. cbn [negb].
  apply shows_bind_quiet; [apply quiet_ret | intros s1].
  shows_walk.
Qed.
End CasesShow.

Lemma mode_delay_default mode : ~ 0 <= mode <= 26 -> mode_delay mode = 50.
Proof.
  intros H. destruct mode as [|p|p]; [lia | | reflexivity].
  do 5 (destruct p as [p|p|]; try lia; try reflexivity).
Qed.

Ltac case_shows :=
  lazymatch goal with
  | |- shows_once _ (case0 _ _) => apply case0_shows
  | |- shows_once _ (case1 _) => apply case1_shows
  | |- shows_once _ (case2 _ _) => apply case2_shows
  | |- shows_once _ (case3 _ _) => apply case3_shows
  | |- shows_once _ (case5 _) => apply case5_shows
  | |- shows_once _ (case6 _ _) => apply case6_shows
  | |- shows_once _ (case7 _ _) => apply case7_shows
  | |- shows_once _ (case8 _ _) => apply case8_shows
  | |- shows_once _ (case9 _ _ _) => apply case9_shows
  | |- shows_once _ (case10 _ _ _ _) => apply case10_shows
  | |- shows_once _ (case11 _ _ _) => apply case11_shows
  | |- shows_once _ (case12 _ _ _) => apply case12_shows
  | |- shows_once _ (case13 _ _ _) => apply case13_shows
  | |- shows_once _ (case14 _ _ _) => apply case14_shows
  | |- shows_once _ (case15 _ _) => apply case15_shows
  | |- shows_once _ (case16 _ _) => apply case16_shows
  | |- shows_once _ (case17 _ _ _ _) => apply case17_shows
  | |- shows_once _ (case18 _ _ _) => apply case18_shows
  | |- shows_once _ (case19 _ _) => apply case19_shows
  | |- shows_once _ (case20 _ _) => apply case20_shows
  | |- shows_once _ (case21 _ _ _) => apply case21_shows
  | |- shows_once _ (case22 _ _ _) => apply case22_shows
  | |- shows_once _ (case23 _ _ _) => apply case23_shows
  | |- shows_once _ (case24 _ _) => apply case24_shows
  | |- shows_once _ (case25 _ _ _) => apply case25_shows
  | |- shows_once _ (case26 _ _ _) => apply case26_shows
  end.

Lemma ledRingTask_iter_shows P mode bright st :
  (mode = 4 -> sideWipeInitialized (wipe st) = true) ->
  shows_once (mode_delay mode) (ledRingTask_iter P mode bright st).
Proof.
  intros H4.
  destruct (Z_le_dec 0 mode) as [H0|H0];
    [destruct (Z_le_dec mode 26) as [H1|H1]|].
  2,3: rewrite ledRingTask_iter_default, mode_delay_default by lia;
       (apply shows_bind_still; [apply case_default_shows|]);
       intros; apply still_ret.
  assert (H : 0 <= mode <= 26) by lia. clear H0 H1.
  each_mode H; cbn [ledRingTask_iter mode_delay];
    (apply shows_bind_still; [ | intros; apply still_ret ]);
    try case_shows.
  apply case4_shows, H4. reflexivity.
Qed.

Lemma mode_delay_range mode : 10 <= mode_delay mode <= 100.
Proof.
  destruct (Z_le_dec 0 mode) as [H0|H0];
    [destruct (Z_le_dec mode 26) as [H1|H1]|].
  2,3: rewrite mode_delay_default by lia; lia.
  assert (H : 0 <= mode <= 26) by lia. clear H0 H1.
  each_mode H; cbn [mode_delay]; lia.
Qed.

(** The pass of mode 4 that finds the flag unset. *)
Lemma mode4_first_pass P bright st (m : Machine P) st' m' :
  ledRingTask_iter P 4 bright st m = Some (st', m') ->
  sideWipeInitialized (wipe st) = false ->
  length (leds m) = Z.to_nat NUM_LEDS ->
  out m' = out m ++ [EvShow (replicate 96 Black); EvDelay 50;
                     EvShow (leds m'); EvDelay 15].
Proof.
  intros E Hi Hl. cbn [ledRingTask_iter] in E.
  apply bind_Some in E as (w1 & m1 & E1 & E2).
  unfold ret in E2. injection E2 as _ <-.
  unfold case4 in E1. rewrite Hi in E1. cbn [negb] in E1.
  apply bind_Some in E1 as (w0 & m0 & E0 & E1).
  unfold bind at 1 in E0. rewrite fill_solid_all in E0 by exact Hl.
  unfold bind, show, delay, ret in E0. cbn [leds world out] in E0.
  injection E0 as <- <-.
  assert (Hs : shows_once 15 (case4 P (mkWipe 0 (wipeColor (wipe st)) true)))
    by (apply case4_shows; reflexivity).
  assert (E' : case4 P (mkWipe 0 (wipeColor (wipe st)) true)
                 (mkMachine (replicate (Z.to_nat NUM_LEDS) Black)
                    (sleep P 50 (world m))
                    ((out m ++ [EvShow (replicate (Z.to_nat NUM_LEDS) Black)])
                     ++ [EvDelay 50]))
               = Some (w1, m1)).
  { unfold case4. cbn [sideWipeInitialized negb]. unfold bind at 1.
    unfold ret at 1. exact E1. }
  rewrite (Hs _ _ _ E'). cbn [out].
  rewrite <- !app_assoc. reflexivity.
Qed.

(** X11: a pass of the render loop calls [FastLED.show()] once, on the
    array as the pass leaves it, and then waits the constant of its case,
    between 10 and 100 ms; nothing else is shown or waited for. This holds
    for every mode value (outside 0..26 the wait is 50 ms), for mode 4
    once its flag is set. The pass of mode 4 that finds the flag unset
    first shows an all-black frame and waits 50 ms. *)
Theorem one_frame_per_pass P mode bright st (m : Machine P) st' m' :
  ledRingTask_iter P mode bright st m = Some (st', m') ->
  10 <= mode_delay mode <= 100
  /\ ((mode = 4 -> sideWipeInitialized (wipe st) = true) ->
      out m' = out m ++ [EvShow (leds m'); EvDelay (mode_delay mode)])
  /\ (mode = 4 -> sideWipeInitialized (wipe st) = false ->
      length (leds m) = Z.to_nat NUM_LEDS ->
      out m' = out m ++ [EvShow (replicate 96 Black); EvDelay 50;
                         EvShow (leds m'); EvDelay 15]).
Proof.
  intros E. split; [apply mode_delay_range|]. split.
  - intros H4. exact (ledRingTask_iter_shows P mode bright st H4 _ _ _ E).
  - intros -> Hi Hl. exact (mode4_first_pass P bright st m st' m' E Hi Hl).
Qed.

(** On the concrete platform every pass from the state after [setup()]
    succeeds. *)
Lemma demo_pass mode bright :
  exists st' m',
    ledRingTask_iter demoPlatform mode bright initStatics
                     (machine (boot (P := demoPlatform) 0)) = Some (st', m').
Proof.
  destruct (boot_ok (P := demoPlatform) 0) as (_ & Hst & Hm).
  destruct (ledRingTask_iter_safe demoPlatform demo_ok mode bright
              initStatics Hst _ Hm) as (st' & m' & E & _).
  exists st', m'. exact E.
Qed.

(** X11 for a pass of the bounce mode after [setup()]. *)
Lemma one_frame_per_pass_witness :
  exists st' m',
    ledRingTask_iter demoPlatform 12 50 initStatics
                     (machine (boot (P := demoPlatform) 0)) = Some (st', m')
    /\ out m' = [EvShow (leds m'); EvDelay 40].
Proof.
  destruct (demo_pass 12 50) as (st' & m' & E).
  exists st', m'. split; [exact E|].
  apply (proj1 (proj2 (one_frame_per_pass _ _ _ _ _ _ _ E))).
  intros H. discriminate H.
Defined.

(** ** Which statics a pass touches *)

Ltac statics_simp :=
  cbn [rainbow theatreOffset wipe gHue toggle running laser strobe comets
       bounce swirlX bar ripple pulseCounter shock dropCounter slice gap
       set_rainbow set_theatreOffset set_wipe set_gHue set_toggle
       set_running set_laser set_strobe set_comets set_bounce set_swirlX
       set_bar set_ripple set_pulseCounter set_shock set_dropCounter
       set_slice set_gap fst snd].

(** X12: a pass of the render loop in mode [mode] leaves the statics of
    every other mode as they were: each group of counters is written by
    its own case only (rainbow by 0, toggle by 2, theatre offset by 3,
    wipe by 4, running by 8, laser by 9, strobe by 10, comets by 11,
    bounce by 12, swirl by 13, bar by 17, ripple by 18, pulse counter by
    21, shock by 22, drop counter by 23, slice by 25, gap by 26), and the
    shared [gHue] is left alone by modes 0 to 5, 8, 13 and by the default
    case. *)
Theorem statics_isolation P mode bright st (m : Machine P) st' m' :
  ledRingTask_iter P mode bright st m = Some (st', m') ->
  (mode <> 0 -> rainbow st' = rainbow st)
  /\ (mode <> 2 -> toggle st' = toggle st)
  /\ (mode <> 3 -> theatreOffset st' = theatreOffset st)
  /\ (mode <> 4 -> wipe st' = wipe st)
  /\ (mode <> 8 -> running st' = running st)
  /\ (mode <> 9 -> laser st' = laser st)
  /\ (mode <> 10 -> strobe st' = strobe st)
  /\ (mode <> 11 -> comets st' = comets st)
  /\ (mode <> 12 -> bounce st' = bounce st)
  /\ (mode <> 13 -> swirlX st' = swirlX st)
  /\ (mode <> 17 -> bar st' = bar st)
  /\ (mode <> 18 -> ripple st' = ripple st)
  /\ (mode <> 21 -> pulseCounter st' = pulseCounter st)
  /\ (mode <> 22 -> shock st' = shock st)
  /\ (mode <> 23 -> dropCounter st' = dropCounter st)
  /\ (mode <> 25 -> slice st' = slice st)
  /\ (mode <> 26 -> gap st' = gap st)
  /\ (mode <= 5 \/ mode = 8 \/ mode = 13 \/ 26 < mode -> gHue st' = gHue st).
Proof.
  intros E.
  destruct (Z_le_dec 0 mode) as [H0|H0];
    [destruct (Z_le_dec mode 26) as [H1|H1]|].
  2,3: rewrite ledRingTask_iter_default in E by lia; bind_inv;
       repeat split; reflexivity.
  assert (H : 0 <= mode <= 26) by lia. clear H0 H1.
  each_mode H; cbn [ledRingTask_iter] in E; bind_inv; statics_simp;
    repeat split; intros Hne; try reflexivity;
    solve [exfalso; apply Hne; reflexivity | exfalso; lia].
Qed.

(** X12 for a pass of the bounce mode after [setup()]. *)
Lemma statics_isolation_witness :
  exists st' m',
    ledRingTask_iter demoPlatform 12 50 initStatics
                     (machine (boot (P := demoPlatform) 0)) = Some (st', m')
    /\ wipe st' = wipe initStatics /\ rainbow st' = rainbow initStatics.
Proof.
  destruct (demo_pass 12 50) as (st' & m' & E).
  exists st', m'. split; [exact E|].
  destruct (statics_isolation _ _ _ _ _ _ _ E) as (H0 & _ & _ & H4 & _).
  split; [apply H4 | apply H0]; discriminate.
Defined.

Ltac open_cases E :=
  unfold case6, case7, case9, case10, case11, case12, case14, case15,
         case16, case17, case18, case19, case20, case21, case23, case24,
         case25, case26 in E;
  cbv zeta in E.

(** Case 22 advances [gHue] exactly when its wave restarts. *)
Lemma case22_gHue P s g (m : Machine P) r m' :
  case22 P s g m = Some (r, m') ->
  snd r = if shockExp s +i 3 >? 12 then u8 (g + 1) else g.
Proof.
  unfold case22. intros E. cbv zeta in E. bind_inv.
  destruct (shockExp s +i 3 >? 12); bind_inv; reflexivity.
Qed.

(** X13: the hue counter [gHue] is shared by the modes 6, 7, 9 to 12 and
    14 to 26: a pass of one of them continues from the value the previous
    mode left and advances it modulo 256 by 1, except mode 20 (by 5), mode
    23 (by 3), mode 25 (by 2) and mode 22 (by 1 on the pass that restarts
    the wave, by 0 otherwise). *)
Theorem gHue_shared P mode bright st (m : Machine P) st' m' :
  ledRingTask_iter P mode bright st m = Some (st', m') ->
  (mode <> 22 -> gHue_step mode <> 0 ->
     gHue st' = u8 (gHue st + gHue_step mode))
  /\ (mode = 22 ->
     gHue st' = if shockExp (shock st) +i 3 >? 12
                then u8 (gHue st + 1) else gHue st).
Proof.
  intros E.
  destruct (Z_le_dec 0 mode) as [H0|H0];
    [destruct (Z_le_dec mode 26) as [H1|H1]|].
  2,3: split; [intros _ Hs; exfalso; apply Hs;
               destruct mode as [|p|p]; [lia | | reflexivity];
               do 5 (destruct p as [p|p|]; try lia; try reflexivity)
              | lia].
  assert (H : 0 <= mode <= 26) by lia. clear H0 H1.
  each_mode H; cbn [ledRingTask_iter] in E;
    (split; [intros Hne Hs; try (exfalso; apply Hs; reflexivity);
             try (exfalso; apply Hne; reflexivity)
            | intros H22; try discriminate H22]).
  all: apply bind_Some in E as (r & m1 & E1 & E2);
       unfold ret in E2; injection E2 as <- _; statics_simp.
  all: try (open_cases E1; bind_inv; reflexivity).
  eapply case22_gHue, E1.
Qed.

(** X13 for a pass of the rave-strobe mode after [setup()]. *)
Lemma gHue_shared_witness :
  exists st' m',
    ledRingTask_iter demoPlatform 20 50 initStatics
                     (machine (boot (P := demoPlatform) 0)) = Some (st', m')
    /\ gHue st' = 5.
Proof.
  destruct (demo_pass 20 50) as (st' & m' & E).
  exists st', m'. split; [exact E|].
  destruct (gHue_shared _ _ _ _ _ _ _ E) as [H _].
  rewrite H; [reflexivity | discriminate | discriminate].
Defined.

(** ** The two rings move together *)

Ltac open_all E :=
  unfold case0, case1, case2, case3, case5, case6, case7, case8, case9,
         case11, case12, case13, case14, case15, case16, case17, case18,
         case19, case20, case21, case23, case24, case25, case26,
         case_default in E;
  cbv zeta in E.

Ltac record_simp :=
  cbn [startHueRing1 startHueRing2 runIndex1 runIndex2 laserPos1 laserPos2
       strobeOn strobeCount cometPos1 cometPos2 bouncePos1 bounceDir1
       bouncePos2 bounceDir2 barPos1 barPos2 rippleCenter1 rippleCenter2
       shockExp shockCenter1 shockCenter2 slicePos1 slicePos2
       gapPos1 gapPos2 wipeExp wipeColor sideWipeInitialized].

Lemma ledRingTask_iter_paired P mode bright st (m : Machine P) st' m' :
  ledRingTask_iter P mode bright st m = Some (st', m') ->
  paired st -> paired st'.
Proof.
  intros E Hp.
  destruct (Z_le_dec 0 mode) as [H0|H0];
    [destruct (Z_le_dec mode 26) as [H1|H1]|].
  2,3: rewrite ledRingTask_iter_default in E by lia; bind_inv; exact Hp.
  assert (H : 0 <= mode <= 26) by lia. clear H0 H1.
  destruct Hp as (Hr & Hrun & Hl & Hbp & Hbd & Hbar & Hrip & Hsl & Hgap
                  & Hc1 & Hc2).
  each_mode H; cbn [ledRingTask_iter] in E;
    apply bind_Some in E as (r & m1 & E1 & E2);
    unfold ret in E2; injection E2 as <- _;
    unfold paired; statics_simp;
    try (repeat split; first [assumption | lia]).
  - (* 0 *) open_all E1. bind_inv. record_simp. rewrite Hr.
    repeat split; first [assumption | reflexivity | lia].
  - (* 8 *) open_all E1. bind_inv. record_simp. rewrite Hrun.
    repeat split; first [assumption | reflexivity | lia].
  - (* 9 *) open_all E1. bind_inv. statics_simp. record_simp. rewrite Hl.
    repeat split; first [assumption | reflexivity | lia].
  - (* 11 *) open_all E1. bind_inv. statics_simp. record_simp.
    unfold RING_LEDS. rewrite Hc2.
    pose proof (Z.mod_pos_bound (2 * cometPos1 (comets st)) 48 ltac:(lia)).
    rewrite !int_add_small by lia. rewrite !int_rem_nonneg by lia.
    pose proof (Z.mod_pos_bound (cometPos1 (comets st) + 1) 48 ltac:(lia)).
    repeat split; try first [assumption | reflexivity | lia].
    rewrite Zplus_mod_idemp_l, Zmult_mod_idemp_r. f_equal. lia.
  - (* 12 *) open_all E1. bind_inv. statics_simp. record_simp.
    rewrite Hbp, Hbd. repeat split; first [assumption | reflexivity | lia].
  - (* 17 *) open_all E1. bind_inv. statics_simp. record_simp. rewrite Hbar.
    repeat split; first [assumption | reflexivity | lia].
  - (* 18 *) open_all E1. bind_inv. statics_simp. record_simp. rewrite Hrip.
    repeat split; first [assumption | reflexivity | lia].
  - (* 25 *) open_all E1. bind_inv. statics_simp. record_simp. rewrite Hsl.
    repeat split; first [assumption | reflexivity | lia].
  - (* 26 *) open_all E1. bind_inv. statics_simp. record_simp. rewrite Hgap.
    repeat split; first [assumption | reflexivity | lia].
Qed.

Lemma reachable_paired {P} (s : System P) :
  reachable s -> paired (statics s).
Proof.
  induction 1 as [w | s s' Hr IH Hs].
  - unfold paired. cbn. repeat split; lia.
  - destruct Hs as [s m b | s now | s Hn | s s' _ E | s w];
      cbn [sys_handleSet sys_buttons sys_ring_entry sys_world statics]; auto.
    + unfold ledRingTask_entry.
      destruct (negb (currentMode (config s) =? 4)); exact IH.
    + apply sys_ring_iter_Some in E as (_ & _ & E).
      eapply ledRingTask_iter_paired; eauto.
Qed.

(** X14: in every reachable state the counters that the source keeps per
    ring are equal (rainbow start hues, running, laser, bounce position
    and direction, bar, ripple, slice and gap positions), and the second
    comet stands at twice the first comet's position modulo 48: the two
    rings are always in phase. *)
Theorem rings_in_phase {P} (s : System P) :
  reachable s -> paired (statics s).
Proof. apply reachable_paired. Qed.

(** From a reachable state a pass of the render loop always succeeds. *)
Lemma sys_ring_iter_total {P} (HP : PlatformOK P) (s0 : System P) :
  reachable s0 -> exists s, sys_ring_iter s0 = Some s.
Proof.
  intros Hr. destruct (reachable_ok HP s0 Hr) as (_ & Hst & Hm).
  destruct (ledRingTask_iter_safe P HP (currentMode (config s0))
              (ringBrightness (config s0)) (statics s0) Hst _ Hm)
    as (st' & m' & E & _).
  unfold sys_ring_iter. rewrite E. eauto.
Qed.

Lemma demo_start_reachable mode : reachable (demo_start mode).
Proof.
  unfold demo_start.
  eapply reach_step; [eapply reach_step; [apply reach_boot|]|].
  - apply step_ring_entry. reflexivity.
  - apply step_handleSet.
Qed.

(** X14 after a pass of the comet mode. *)
Lemma rings_in_phase_witness :
  exists s,
    sys_ring_iter (demo_start 11) = Some s
    /\ cometPos2 (comets (statics s)) = (2 * cometPos1 (comets (statics s))) mod 48.
Proof.
  destruct (sys_ring_iter_total demo_ok (demo_start 11)
              (demo_start_reachable 11)) as [s Es].
  exists s. split; [exact Es|].
  refine (proj2 (proj2 (proj2 (proj2 (proj2 (proj2 (proj2 (proj2 (proj2 (proj2
            (rings_in_phase s _))))))))))).
  apply (reachable_ring_iter (demo_start 11) s);
    [apply demo_start_reachable | reflexivity | exact Es].
Defined.

(** ** Counters stay in their ranges *)

Lemma int32_range z : -2147483648 <= int32 z < 2147483648.
Proof.
  unfold int32. pose proof (Z.mod_pos_bound (z + 2147483648) 4294967296).
  lia.
Qed.

Lemma int_add_range a b : -2147483648 <= a +i b < 2147483648.
Proof. apply int32_range. Qed.

Lemma u16_range z : 0 <= u16 z <= 65535.
Proof. unfold u16. pose proof (Z.mod_pos_bound z 65536). lia. Qed.

Ltac counter_facts :=
  repeat match goal with
    | |- context [u8 ?a] =>
        lazymatch goal with
        | _ : 0 <= u8 a <= 255 |- _ => fail
        | _ => pose proof (u8_range a)
        end
    | |- context [u16 ?a] =>
        lazymatch goal with
        | _ : 0 <= u16 a <= 65535 |- _ => fail
        | _ => pose proof (u16_range a)
        end
    | |- context [?a +i ?b] =>
        lazymatch goal with
        | _ : -2147483648 <= a +i b < 2147483648 |- _ => fail
        | _ => pose proof (int_add_range a b)
        end
    end.

Lemma case10_strobe P b s g (m : Machine P) r m' :
  case10 P b s g m = Some (r, m') ->
  0 <= strobeCount s <= 2 ->
  0 <= strobeCount (fst r) <= 2 /\ snd r = u8 (g + 1).
Proof.
  unfold case10. intros E Hs. apply bind_Some in E as (s1 & m1 & E1 & E2).
  unfold ret in E2. injection E2 as <- _. cbn [fst snd].
  split; [|reflexivity].
  destruct (strobeOn s); cbv zeta in E1; bind_inv;
    match goal with
    | H : (if ?c then _ else _) _ = Some _ |- _ => destruct c eqn:En
    end; bind_inv; cbn [strobeCount]; try lia.
  rewrite int_add_small in * by lia. lia.
Qed.

Lemma case22_shock P s g (m : Machine P) r m' :
  case22 P s g m = Some (r, m') ->
  shockExp (fst r) = if shockExp s +i 3 >? 12 then 0 else shockExp s +i 3.
Proof.
  unfold case22. intros E. cbv zeta in E. bind_inv.
  destruct (shockExp s +i 3 >? 12); bind_inv; reflexivity.
Qed.

Lemma ledRingTask_iter_counters P mode bright st (m : Machine P) st' m' :
  ledRingTask_iter P mode bright st m = Some (st', m') ->
  counters_ok st -> counters_ok st'.
Proof.
  intros E Hc.
  destruct (Z_le_dec 0 mode) as [H0|H0];
    [destruct (Z_le_dec mode 26) as [H1|H1]|].
  2,3: rewrite ledRingTask_iter_default in E by lia; bind_inv; exact Hc.
  assert (H : 0 <= mode <= 26) by lia. clear H0 H1.
  destruct Hc as (Ha & Hb & Ht & Hg & Hx & Hp & Hs & [He He3] & Hr1 & Hr2 & Hd).
  each_mode H; cbn [ledRingTask_iter] in E;
    apply bind_Some in E as (r & m1 & E1 & E2);
    unfold ret in E2; injection E2 as <- _;
    unfold counters_ok; statics_simp.
  all: try (open_all E1; bind_inv; statics_simp; record_simp;
            counter_facts; int_simp; repeat split; first [assumption | lia]).
  - (* 10 *) destruct (case10_strobe _ _ _ _ _ _ _ E1 Hs) as [H1 ->].
    counter_facts. repeat split; first [assumption | lia].
  - (* 22 *) rewrite (case22_shock _ _ _ _ _ _ E1), (case22_gHue _ _ _ _ _ _ E1).
    rewrite int_add_small by lia.
    destruct (shockExp (shock st) + 3 >? 12) eqn:En;
      counter_facts; repeat split; try first [assumption | lia].
    rewrite <- Z.add_mod_idemp_l, He3 by lia. reflexivity.
Qed.

(** X15: in every reachable state the remaining counters are within
    fixed ranges: the hue counters and the theatre offset are bytes, the
    swirl phase is a 16-bit value, the pulse counter is below 60, the
    strobe count at most 2, the shockwave radius one of 0, 3, 6, 9, 12, and
    the ripple centres are positions on the ring. *)
Theorem counters_in_range {P} (s : System P) :
  reachable s -> counters_ok (statics s).
Proof.
  induction 1 as [w | s s' Hr IH Hs].
  - unfold counters_ok. cbn. repeat split; lia.
  - destruct Hs as [s m b | s now | s Hn | s s' _ E | s w];
      cbn [sys_handleSet sys_buttons sys_ring_entry sys_world statics]; auto.
    + unfold ledRingTask_entry.
      destruct (negb (currentMode (config s) =? 4)); exact IH.
    + apply sys_ring_iter_Some in E as (_ & _ & E).
      eapply ledRingTask_iter_counters; eauto.
Qed.

(** X15 after a pass of the shockwave mode. *)
Lemma counters_in_range_witness :
  exists s,
    sys_ring_iter (demo_start 22) = Some s
    /\ 0 <= shockExp (shock (statics s)) <= 12.
Proof.
  destruct (sys_ring_iter_total demo_ok (demo_start 22)
              (demo_start_reachable 22)) as [s Es].
  exists s. split; [exact Es|].
  refine (proj1 (proj1 (proj2 (proj2 (proj2 (proj2 (proj2 (proj2 (proj2
            (counters_in_range s _)))))))))).
  apply (reachable_ring_iter (demo_start 22) s);
    [apply demo_start_reachable | reflexivity | exact Es].
Defined.

(** ** More on the hue distribution *)

Lemma sf_eqb_eq x y : sf_eqb x y = true -> x = y.
Proof.
  destruct x as [a|a| |a m e], y as [b|b| |b n f]; cbn; try discriminate;
    try reflexivity.
  - intros H. apply Bool.eqb_prop in H. congruence.
  - intros H. apply Bool.eqb_prop in H. congruence.
  - intros H. apply andb_prop in H as [H He]. apply andb_prop in H as [Ha Hm].
    apply Bool.eqb_prop in Ha. apply Pos.eqb_eq in Hm. apply Z.eqb_eq in He.
    congruence.
Qed.

Lemma int_float_check_all : forallb int_float_check (Zrange 1800) = true.
Proof. vm_compute. reflexivity. Qed.

Lemma int_float h :
  0 <= h < 1800 ->
  F32.add (F32.of_Z h) baseIncrement = F32.of_Z (h + 5)
  /\ F32.add (F32.of_Z h) (F32.of_Z 1) = F32.of_Z (h + 1)
  /\ F32.to_u8 (F32.of_Z h) = u8 h.
Proof.
  intros H.
  pose proof (Zrange_forallb 1800 int_float_check h int_float_check_all
                ltac:(lia)) as E.
  unfold int_float_check in E.
  apply andb_prop in E as [E E3]. apply andb_prop in E as [E1 E2].
  apply sf_eqb_eq in E1, E2. apply Z.eqb_eq in E3.
  unfold F32.to_u8. rewrite E3. auto.
Qed.

(** One pass of the loop body moves an integer hue by 5 or by 6. *)
Lemma rainbow_next_int frac h error :
  0 <= h < 1794 ->
  exists h' error',
    rainbow_next frac (F32.of_Z h) error = (F32.of_Z h', error')
    /\ (h' = h + 5 \/ h' = h + 6).
Proof.
  intros H. unfold rainbow_next.
  destruct (int_float h ltac:(lia)) as (E5 & _ & _).
  destruct (int_float (h + 5) ltac:(lia)) as (_ & E1 & _).
  rewrite E5.
  destruct (F32.dgeb _ _).
  - rewrite E1. eexists. eexists. split; [reflexivity|]. right. lia.
  - eexists. eexists. split; [reflexivity|]. left. reflexivity.
Qed.

Lemma rainbow_hues_steps n :
  forall frac h error,
    0 <= h -> h + 6 * Z.of_nat n < 1800 ->
    length (rainbow_hues n frac (F32.of_Z h) error) = n
    /\ (forall d, rainbow_hues n frac (F32.of_Z h) error !! 0%nat = Some d ->
                  d = u8 h)
    /\ forall (i : nat) a b,
         rainbow_hues n frac (F32.of_Z h) error !! i = Some a ->
         rainbow_hues n frac (F32.of_Z h) error !! S i = Some b ->
         (b - a) mod 256 = 5 \/ (b - a) mod 256 = 6.
Proof.
  induction n as [|n IH]; intros frac h error H0 H1.
  - cbn. repeat split; intros; discriminate.
  - cbn [rainbow_hues].
    destruct (rainbow_next_int frac h error ltac:(lia))
      as (h' & error' & E & Hh').
    rewrite E.
    destruct (IH frac h' error' ltac:(lia) ltac:(lia)) as (Hl & Hd & Hs).
    destruct (int_float h ltac:(lia)) as (_ & _ & Eu). rewrite Eu.
    split; [cbn [length]; rewrite Hl; reflexivity|].
    split; [intros d Hd0; cbn in Hd0; congruence|].
    intros [|i] a b Ha Hb.
    + cbn in Ha. injection Ha as <-.
      change ((u8 h :: rainbow_hues n frac (F32.of_Z h') error') !! 1%nat)
        with (rainbow_hues n frac (F32.of_Z h') error' !! 0%nat) in Hb.
      rewrite (Hd b Hb). unfold u8.
      rewrite <- Zminus_mod. destruct Hh' as [-> | ->]; [left | right];
        match goal with |- (?x - _) mod _ = ?k =>
          replace (x - h) with k by lia end; reflexivity.
    + change ((u8 h :: rainbow_hues n frac (F32.of_Z h') error') !! S i)
        with (rainbow_hues n frac (F32.of_Z h') error' !! i) in Ha.
      change ((u8 h :: rainbow_hues n frac (F32.of_Z h') error') !! S (S i))
        with (rainbow_hues n frac (F32.of_Z h') error' !! S i) in Hb.
      eapply Hs; eassumption.
Qed.

(** X16: for every ring size and starting hue the hue distribution gives
    one hue per pixel, the first being the starting hue, and from each
    pixel to the next the hue moves by 5 or by 6 modulo 256, never more or
    less: the base step is the constant 5 whatever the ring size. *)
Theorem exact_rainbow_steps ringSize startHue :
  0 <= ringSize <= 255 -> 0 <= startHue <= 255 ->
  length (exact_rainbow_hues ringSize startHue) = Z.to_nat ringSize
  /\ (0 < ringSize -> exact_rainbow_hues ringSize startHue !! 0%nat
                      = Some startHue)
  /\ forall (i : nat) a b,
       exact_rainbow_hues ringSize startHue !! i = Some a ->
       exact_rainbow_hues ringSize startHue !! S i = Some b ->
       (b - a) mod 256 = 5 \/ (b - a) mod 256 = 6.
Proof.
  intros Hr Hs. unfold exact_rainbow_hues.
  destruct (rainbow_hues_steps (Z.to_nat ringSize) (fractional ringSize)
              startHue (F32.of_double (F32.double_of_Z 0))
              ltac:(lia) ltac:(lia)) as (Hl & Hd & Hst).
  split; [exact Hl|]. split; [|exact Hst].
  intros Hpos.
  destruct (rainbow_hues (Z.to_nat ringSize) (fractional ringSize)
              (F32.of_Z startHue) (F32.of_double (F32.double_of_Z 0)) !! 0%nat)
    as [d|] eqn:E.
  - rewrite (Hd d eq_refl). f_equal. apply u8_small, Hs.
  - apply lookup_ge_None in E. lia.
Qed.

(** X16 for a ring of 24 pixels: the second hue is 6 after the first. *)
Lemma exact_rainbow_steps_witness :
  exists a b,
    exact_rainbow_hues 24 10 !! 0%nat = Some a
    /\ exact_rainbow_hues 24 10 !! 1%nat = Some b
    /\ ((b - a) mod 256 = 5 \/ (b - a) mod 256 = 6).
Proof.
  exists 10, 16. split; [reflexivity|]. split; [vm_compute; reflexivity|].
  destruct (exact_rainbow_steps 24 10 ltac:(lia) ltac:(lia)) as (_ & _ & H).
  apply (H 0%nat 10 16); vm_compute; reflexivity.
Defined.

(** ** What the frames show *)

(** X17: a pass of the rainbow mode from a reachable state gives pixel
    [i] of the second ring the colour of pixel [i] of the first, for all
    48 pixels: the rainbow runs the same way round on both rings. *)
Theorem rainbow_rings_alike {P} (HP : PlatformOK P) (s : System P) :
  reachable s -> currentMode (config s) = 0 ->
  exists s',
    sys_ring_iter s = Some s'
    /\ forall i, 0 <= i < 48 ->
         exists c, leds (machine s') !! Z.to_nat i = Some c
                   /\ leds (machine s') !! Z.to_nat (48 + i) = Some c.
Proof.
  intros Hr Hmode.
  destruct (reachable_ok HP s Hr) as (_ & _ & Hl & _).
  destruct (reachable_paired s Hr) as (Hh & _).
  unfold sys_ring_iter. rewrite Hmode. cbn [ledRingTask_iter].
  unfold bind at 1. unfold case0, bind, fill_ring_with_exact_rainbow.
  rewrite <- Hh.
  rewrite rainbow_loop_run by (try exact Hl; unfold NUM_LEDS, RING_LEDS; cbn; lia).
  rewrite rainbow_loop_run;
    [ | unfold RING_LEDS; lia | unfold NUM_LEDS, RING_LEDS; cbn; lia
      | cbn [leds]; rewrite write_at_length; exact Hl ].
  cbv zeta. unfold show, delay, ret. cbn [leds world out].
  eexists. split; [reflexivity|]. cbn [machine leds].
  intros i Hi.
  change (Z.to_nat (0 + 0)) with 0%nat.
  change (Z.to_nat (RING_LEDS + 0)) with 48%nat.
  change (Z.to_nat RING_LEDS) with 48%nat.
  set (L := map (fun h => hsv P h 255 255)
                (rainbow_hues 48 (fractional RING_LEDS)
                   (F32.of_Z (startHueRing1 (rainbow (statics s))))
                   (F32.of_double (F32.double_of_Z 0)))).
  assert (HL : length L = 48%nat)
    by (unfold L; rewrite length_map; apply rainbow_hues_length).
  unfold NUM_LEDS in Hl.
  destruct (L !! Z.to_nat i) as [c|] eqn:Ec;
    [|apply lookup_ge_None in Ec; lia].
  exists c. split.
  - rewrite write_at_outside by (left; lia).
    rewrite <- Ec. apply (write_at_inside 0 L (leds (machine s)) (Z.to_nat i)); lia.
  - replace (Z.to_nat (48 + i)) with (48 + Z.to_nat i)%nat by lia.
    rewrite <- Ec. apply write_at_inside; [rewrite write_at_length|]; lia.
Qed.

(** X17 on the first pass after the start. *)
Lemma rainbow_rings_alike_witness :
  exists s',
    sys_ring_iter (demo_start 0) = Some s'
    /\ exists c, leds (machine s') !! 5%nat = Some c
                 /\ leds (machine s') !! 53%nat = Some c.
Proof.
  destruct (rainbow_rings_alike demo_ok (demo_start 0)
              (demo_start_reachable 0) eq_refl) as (s' & E & H).
  exists s'. split; [exact E|]. apply (H 5). lia.
Defined.

(** *** Loops of conditional stores *)

Lemma for_paint_run {P} n :
  forall i (b : Z -> bool) (g : Z -> Z) (c : Z -> CRGB) (s : Machine P),
    (forall j, i <= j < i + Z.of_nat n -> b j = true -> 0 <= g j < NUM_LEDS) ->
    length (leds s) = Z.to_nat NUM_LEDS ->
    for_loop n i (fun j => if b j then store (g j) (c j) else ret tt) s
    = Some (tt, mkMachine (paint n i b g c (leds s)) (world s) (out s)).
Proof.
  induction n as [|n IH]; intros i b g c s Hg Hl.
  - destruct s; reflexivity.
  - cbn [for_loop paint]. unfold bind.
    destruct (b i) eqn:Eb.
    + rewrite store_run by first [exact Hl | apply Hg; [lia | exact Eb]].
      rewrite IH; cbn [leds world out];
        [reflexivity | intros j Hj; apply Hg; lia
         | rewrite length_insert; exact Hl].
    + unfold ret. rewrite IH; [reflexivity | intros j Hj; apply Hg; lia
                               | exact Hl].
Qed.

Lemma paint_length n : forall i b g c l, length (paint n i b g c l) = length l.
Proof.
  induction n as [|n IH]; intros i b g c l; cbn [paint]; [reflexivity|].
  rewrite IH. destruct (b i); [apply length_insert | reflexivity].
Qed.

(** A pixel that no pass of the loop stores to keeps its colour. *)
Lemma paint_miss n :
  forall i b g c l (k : nat),
    (forall j, i <= j < i + Z.of_nat n -> b j = true -> Z.to_nat (g j) <> k) ->
    paint n i b g c l !! k = l !! k.
Proof.
  induction n as [|n IH]; intros i b g c l k H; cbn [paint]; [reflexivity|].
  rewrite IH by (intros j Hj; apply H; lia).
  destruct (b i) eqn:Eb; [|reflexivity].
  apply list_lookup_insert_ne. apply H; [lia | exact Eb].
Qed.

(** A pixel stored to by pass [j] and by no later pass has the colour of
    pass [j]. *)
Lemma paint_hit n :
  forall i b g c l j,
    i <= j < i + Z.of_nat n -> b j = true ->
    (Z.to_nat (g j) < length l)%nat ->
    (forall j', j < j' < i + Z.of_nat n -> b j' = true ->
                Z.to_nat (g j') <> Z.to_nat (g j)) ->
    paint n i b g c l !! Z.to_nat (g j) = Some (c j).
Proof.
  induction n as [|n IH]; intros i b g c l j Hj Hb Hl Hlater; [lia|].
  cbn [paint]. destruct (Z.eq_dec j i) as [->|Hne].
  - rewrite paint_miss by (intros j' Hj'; apply Hlater; lia).
    rewrite Hb. apply list_lookup_insert_eq. exact Hl.
  - apply IH; [lia | exact Hb | | intros j' Hj'; apply Hlater; lia].
    destruct (b i); [rewrite length_insert|]; exact Hl.
Qed.

(** *** Theatre chase *)

Lemma case3_run {P} o (m : Machine P) :
  0 <= o <= 255 -> length (leds m) = Z.to_nat NUM_LEDS ->
  exists f,
    case3 P o m
    = Some (u8 (o + 1),
            mkMachine f (sleep P 50 (world m))
                      (out m ++ [EvShow f; EvDelay 50]))
    /\ length f = Z.to_nat NUM_LEDS
    /\ forall k, 0 <= k < NUM_LEDS ->
         f !! Z.to_nat k
         = Some (if (k + o) mod 3 =? 0 then White else Black).
Proof.
  intros Ho Hl. unfold case3. unfold bind at 1.
  rewrite fill_solid_all by exact Hl.
  unfold bind at 1. unfold for_.
  rewrite (for_paint_run (Z.to_nat (NUM_LEDS - 0)) 0
             (fun i => (i +i o) %i 3 =? 0) (fun i => i) (fun _ => White));
    [ | intros j Hj _; unfold NUM_LEDS in *; lia
      | cbn [leds]; apply length_replicate ].
  cbn [leds world out]. cbv zeta.
  unfold bind, show, delay, ret. cbn [leds world out].
  rewrite <- app_assoc. cbn [app].
  eexists. split; [reflexivity|].
  split; [rewrite paint_length; apply length_replicate|].
  intros k Hk. unfold NUM_LEDS in *.
  assert (Ek : (k +i o) %i 3 = (k + o) mod 3).
  { rewrite int_add_small by lia. apply int_rem_nonneg; lia. }
  destruct ((k + o) mod 3 =? 0) eqn:E.
  - apply (paint_hit _ 0 (fun i => (i +i o) %i 3 =? 0) (fun i => i)
             (fun _ => White) _ k).
    + cbn. lia.
    + cbn beta. rewrite Ek. exact E.
    + rewrite length_replicate. lia.
    + intros j' Hj' _. lia.
  - rewrite paint_miss.
    + apply lookup_replicate_2. lia.
    + intros j Hj Hb Heq. cbn beta in Hb.
      assert (j = k) by lia. subst j. rewrite Ek in Hb. congruence.
Qed.

(** X18: a pass of the theatre chase at offset [o] shows the frame in
    which pixel [k] of the 96 is white when [k + o] is a multiple of 3
    and black otherwise, waits 50 ms and counts the offset up modulo
    256. *)
Theorem theatre_chase_frame {P} bright st (m : Machine P) :
  0 <= theatreOffset st <= 255 ->
  length (leds m) = Z.to_nat NUM_LEDS ->
  exists f m',
    ledRingTask_iter P 3 bright st m
    = Some (set_theatreOffset (u8 (theatreOffset st + 1)) st, m')
    /\ out m' = out m ++ [EvShow f; EvDelay 50]
    /\ leds m' = f
    /\ length f = Z.to_nat NUM_LEDS
    /\ forall k, 0 <= k < NUM_LEDS ->
         f !! Z.to_nat k
         = Some (if (k + theatreOffset st) mod 3 =? 0 then White else Black).
Proof.
  intros Ho Hl. cbn [ledRingTask_iter]. unfold bind at 1.
  destruct (case3_run (theatreOffset st) m Ho Hl) as (f & E & Hf & Hk).
  rewrite E. unfold ret. exists f. eexists. split; [reflexivity|].
  cbn [leds out]. auto.
Qed.

(** X18 on the first pass. *)
Lemma theatre_chase_frame_witness :
  exists f m',
    ledRingTask_iter demoPlatform 3 50 initStatics (machine (boot (P := demoPlatform) 0))
    = Some (set_theatreOffset 1 initStatics, m')
    /\ leds m' = f
    /\ f !! 3%nat = Some White /\ f !! 4%nat = Some Black.
Proof.
  destruct (theatre_chase_frame (P := demoPlatform) 50 initStatics
              (machine (boot (P := demoPlatform) 0)))
    as (f & m' & E & _ & El & _ & H).
  - cbn. lia.
  - reflexivity.
  - exists f, m'. split; [exact E|]. split; [exact El|].
    split; [apply (H 3) | apply (H 4)]; unfold NUM_LEDS; lia.
Defined.

(** X19: the offset of the theatre chase wraps from 255 to 0, and 256 is
    no multiple of 3: the pass at offset 255 and the pass after it show
    the same frame, so the chase stands still for one step in every 256
    passes. *)
Theorem theatre_chase_stutter {P} bright st (m : Machine P) :
  theatreOffset st = 255 ->
  length (leds m) = Z.to_nat NUM_LEDS ->
  exists f st' m',
    run_modes P [3; 3] bright st m = Some (st', m')
    /\ theatreOffset st' = 1
    /\ out m' = out m ++ [EvShow f; EvDelay 50; EvShow f; EvDelay 50].
Proof.
  intros Ho Hl. cbn [run_modes ledRingTask_iter]. unfold bind at 1.
  unfold bind at 1. rewrite Ho.
  destruct (case3_run 255 m ltac:(lia) Hl) as (f & E & Hf & Hk).
  rewrite E. unfold ret at 1. cbn beta iota.
  unfold bind at 1. unfold bind at 1.
  cbn [set_theatreOffset theatreOffset].
  change (u8 (255 + 1)) with 0.
  destruct (case3_run (P := P) 0
              (mkMachine f (sleep P 50 (world m))
                         (out m ++ [EvShow f; EvDelay 50]))
              ltac:(lia) Hf) as (f' & E' & Hf' & Hk').
  rewrite E'. unfold ret. cbn [leds world out].
  assert (f' = f) as ->.
  { apply list_eq. intros k.
    destruct (decide (k < 96)%nat) as [Hlt|Hge].
    - specialize (Hk (Z.of_nat k)). specialize (Hk' (Z.of_nat k)).
      rewrite Nat2Z.id in Hk, Hk'. unfold NUM_LEDS in *.
      rewrite Hk, Hk' by lia. do 2 f_equal.
      rewrite Z.add_0_r. replace (Z.of_nat k + 255) with (Z.of_nat k + 85 * 3)
        by lia. rewrite Z.mod_add by lia. reflexivity.
    - unfold NUM_LEDS in *. rewrite !lookup_ge_None_2 by lia. reflexivity. }
  exists f. eexists. eexists. split; [reflexivity|].
  cbn [set_theatreOffset theatreOffset out]. split; [reflexivity|].
  rewrite <- app_assoc. reflexivity.
Qed.

(** X19 from the statics with the offset at 255. *)
Lemma theatre_chase_stutter_witness :
  exists f st' m',
    run_modes demoPlatform [3; 3] 50 (set_theatreOffset 255 initStatics)
              (machine (boot (P := demoPlatform) 0)) = Some (st', m')
    /\ theatreOffset st' = 1
    /\ out m' = [EvShow f; EvDelay 50; EvShow f; EvDelay 50].
Proof.
  exact (theatre_chase_stutter (P := demoPlatform) 50
           (set_theatreOffset 255 initStatics) (machine (boot (P := demoPlatform) 0))
           eq_refl eq_refl).
Defined.

(** *** Side wipe *)

(** A pass of case 4 with the flag set and the counter below 24 stores
    the colour at the four pixels of this step. *)
Lemma case4_pass {P} e c (m : Machine P) :
  0 <= e <= 23 -> length (leds m) = Z.to_nat NUM_LEDS ->
  exists f,
    case4 P (mkWipe e c true) m
    = Some (mkWipe (e + 1) c true,
            mkMachine f (sleep P 15 (world m))
                      (out m ++ [EvShow f; EvDelay 15]))
    /\ f = <[Z.to_nat (95 - e) := c]>
             (<[Z.to_nat (48 + e) := c]>
                (<[Z.to_nat (47 - e) := c]>
                   (<[Z.to_nat e := c]> (leds m)))).
Proof.
  intros He Hl. unfold case4.
  cbn [sideWipeInitialized negb wipeExp wipeColor]. unfold bind at 1.
  unfold ret at 1. cbv beta iota zeta.
  cbn [sideWipeInitialized wipeExp wipeColor].
  rewrite !int_add_small, !int_sub_small by lia.
  replace (e <=? 47 - e) with true by (symmetry; apply Z.leb_le; lia).
  replace (48 + e <=? 95 - e) with true by (symmetry; apply Z.leb_le; lia).
  replace (e + 1 >? 24) with false
    by (symmetry; rewrite Z.gtb_ltb; apply Z.ltb_ge; lia).
  unfold bind.
  rewrite store_run by (try exact Hl; unfold NUM_LEDS; lia).
  rewrite store_run
    by (cbn [leds]; rewrite ?length_insert; try exact Hl; unfold NUM_LEDS; lia).
  rewrite store_run
    by (cbn [leds]; rewrite ?length_insert; try exact Hl; unfold NUM_LEDS; lia).
  rewrite store_run
    by (cbn [leds]; rewrite ?length_insert; try exact Hl; unfold NUM_LEDS; lia).
  unfold show, delay, ret. cbn [leds world out].
  rewrite <- app_assoc. cbn [app].
  eexists. split; reflexivity.
Qed.

Lemma wipe_painted_step e j :
  0 <= e <= 23 -> 0 <= j < 96 ->
  wipe_painted e 1 j = true <->
  (j = e \/ j = 47 - e \/ j = 48 + e \/ j = 95 - e).
Proof.
  intros He Hj. unfold wipe_painted.
  assert (Hm : j mod 48 = j \/ j mod 48 = j - 48).
  { destruct (Z_lt_ge_dec j 48).
    - left. apply Z.mod_small. lia.
    - right. replace j with ((j - 48) + 1 * 48) at 1 by lia.
      rewrite Z.mod_add by lia. apply Z.mod_small. lia. }
  rewrite orb_true_iff, !andb_true_iff, !Z.leb_le, !Z.ltb_lt.
  pose proof (Z.mod_pos_bound j 48 ltac:(lia)). lia.
Qed.

Lemma wipe_painted_split e k j :
  0 <= e -> 0 <= k ->
  wipe_painted e (1 + k) j = wipe_painted (e + 1) k j || wipe_painted e 1 j.
Proof.
  intros He Hk. unfold wipe_painted.
  apply eq_true_iff_eq.
  rewrite !orb_true_iff, !andb_true_iff, !Z.leb_le, !Z.ltb_lt. lia.
Qed.

(** [k] consecutive passes of the side wipe from counter [e]. *)
Lemma wipe_passes {P} bright (k : nat) :
  forall e c st (m : Machine P),
    wipe st = mkWipe e c true ->
    0 <= e -> e + Z.of_nat k <= 24 ->
    length (leds m) = Z.to_nat NUM_LEDS ->
    exists st' m',
      run_modes P (repeat 4 k) bright st m = Some (st', m')
      /\ wipe st' = mkWipe (e + Z.of_nat k) c true
      /\ length (leds m') = Z.to_nat NUM_LEDS
      /\ forall j, 0 <= j < 96 ->
           leds m' !! Z.to_nat j
           = if wipe_painted e (Z.of_nat k) j then Some c
             else leds m !! Z.to_nat j.
Proof.
  induction k as [|k IH]; intros e c st m Hw He Hk Hl.
  - exists st, m. split; [reflexivity|].
    split; [rewrite Hw; f_equal; lia|]. split; [exact Hl|].
    intros j Hj. change (Z.of_nat 0) with 0.
    replace (wipe_painted e 0 j) with false; [reflexivity|].
    symmetry. unfold wipe_painted.
    apply orb_false_iff. split; apply andb_false_iff;
      rewrite !Z.leb_gt, ?Z.ltb_ge; lia.
  - cbn [repeat run_modes ledRingTask_iter]. unfold bind at 1. unfold bind at 1.
    rewrite Hw.
    destruct (case4_pass (P := P) e c m ltac:(lia) Hl) as (f & E & Hf).
    rewrite E. unfold ret at 1.
    assert (Hlf : length f = Z.to_nat NUM_LEDS)
      by (rewrite Hf, !length_insert; exact Hl).
    destruct (IH (e + 1) c (set_wipe (mkWipe (e + 1) c true) st)
                 (mkMachine f (sleep P 15 (world m))
                            (out m ++ [EvShow f; EvDelay 15]))
                 eq_refl ltac:(lia) ltac:(lia) Hlf)
      as (st' & m' & Er & Hw' & Hl' & Hp).
    exists st', m'. split; [exact Er|].
    split; [rewrite Hw'; f_equal; lia|]. split; [exact Hl'|].
    intros j Hj. rewrite (Hp j Hj). cbn [leds].
    replace (Z.of_nat (S k)) with (1 + Z.of_nat k) by lia.
    rewrite wipe_painted_split by lia.
    destruct (wipe_painted (e + 1) (Z.of_nat k) j); [reflexivity|].
    cbn [orb].
    pose proof (wipe_painted_step e j ltac:(lia) Hj) as Hs.
    unfold NUM_LEDS in *.
    destruct (wipe_painted e 1 j).
    + destruct Hs as [Hs _]. specialize (Hs eq_refl). rewrite Hf.
      destruct (Z.eq_dec j (95 - e)) as [->|N1];
        [apply list_lookup_insert_eq; rewrite !length_insert; lia|].
      rewrite list_lookup_insert_ne by lia.
      destruct (Z.eq_dec j (48 + e)) as [->|N2];
        [apply list_lookup_insert_eq; rewrite !length_insert; lia|].
      rewrite list_lookup_insert_ne by lia.
      destruct (Z.eq_dec j (47 - e)) as [->|N3];
        [apply list_lookup_insert_eq; rewrite !length_insert; lia|].
      rewrite list_lookup_insert_ne by lia.
      assert (j = e) as -> by lia.
      apply list_lookup_insert_eq. lia.
    + assert (Hn : ~ (j = e \/ j = 47 - e \/ j = 48 + e \/ j = 95 - e))
        by (intros H; apply Hs in H; discriminate).
      rewrite Hf. rewrite !list_lookup_insert_ne by lia. reflexivity.
Qed.

(** X20: the side wipe closes in from both ends of each ring. From the
    counter at 0, [k] passes (at most 24) leave the counter at [k] and the
    wipe colour on the first [k] and the last [k] pixels of each ring,
    every other pixel as it was; after 24 passes all 96 pixels have the
    wipe colour. *)
Theorem wipe_closes_in {P} bright (k : nat) c st (m : Machine P) :
  wipe st = mkWipe 0 c true ->
  (k <= 24)%nat ->
  length (leds m) = Z.to_nat NUM_LEDS ->
  exists st' m',
    run_modes P (repeat 4 k) bright st m = Some (st', m')
    /\ wipe st' = mkWipe (Z.of_nat k) c true
    /\ (forall j, 0 <= j < 96 ->
          leds m' !! Z.to_nat j
          = if (j mod 48 <? Z.of_nat k) || (47 - Z.of_nat k <? j mod 48)
            then Some c else leds m !! Z.to_nat j)
    /\ (k = 24%nat -> leds m' = replicate 96 c).
Proof.
  intros Hw Hk Hl.
  destruct (wipe_passes bright k 0 c st m Hw ltac:(lia) ltac:(lia) Hl)
    as (st' & m' & E & Hw' & Hl' & Hp).
  exists st', m'. split; [exact E|]. split; [exact Hw'|].
  assert (Hwp : forall j, 0 <= j < 96 ->
            wipe_painted 0 (Z.of_nat k) j
            = (j mod 48 <? Z.of_nat k) || (47 - Z.of_nat k <? j mod 48)).
  { intros j Hj. unfold wipe_painted.
    pose proof (Z.mod_pos_bound j 48 ltac:(lia)).
    apply eq_true_iff_eq.
    rewrite !orb_true_iff, !andb_true_iff, !Z.leb_le, !Z.ltb_lt. lia. }
  split.
  - intros j Hj. rewrite (Hp j Hj), (Hwp j Hj). reflexivity.
  - intros ->. apply list_eq. intros i.
    unfold NUM_LEDS in *.
    destruct (decide (i < 96)%nat) as [Hlt|Hge].
    + rewrite lookup_replicate_2 by lia.
      specialize (Hp (Z.of_nat i) ltac:(lia)). rewrite Nat2Z.id in Hp.
      rewrite Hp, Hwp by lia.
      pose proof (Z.mod_pos_bound (Z.of_nat i) 48 ltac:(lia)).
      replace ((Z.of_nat i mod 48 <? Z.of_nat 24)
               || (47 - Z.of_nat 24 <? Z.of_nat i mod 48)) with true;
        [reflexivity|].
      symmetry. apply orb_true_iff. rewrite !Z.ltb_lt. lia.
    + rewrite !lookup_ge_None_2; [reflexivity | | lia].
      rewrite length_replicate. lia.
Qed.

(** X20 for a complete wipe in blue over a white array. *)
Lemma wipe_closes_in_witness :
  exists st' m',
    run_modes demoPlatform (repeat 4 24) 50
              (set_wipe (mkWipe 0 Blue true) initStatics)
              (mkMachine (P := demoPlatform) (replicate 96 White) 0 [])
    = Some (st', m')
    /\ leds m' = replicate 96 Blue.
Proof.
  destruct (wipe_closes_in (P := demoPlatform) 50 24 Blue
              (set_wipe (mkWipe 0 Blue true) initStatics)
              (mkMachine (P := demoPlatform) (replicate 96 White) 0 []) eq_refl)
    as (st' & m' & E & _ & _ & H).
  - lia.
  - reflexivity.
  - exists st', m'. split; [exact E | exact (H eq_refl)].
Defined.

(** *** Colour bounce *)

Lemma pair_eqb_eq a b : pair_eqb a b = true <-> a = b.
Proof.
  destruct a as [a1 a2], b as [b1 b2]. unfold pair_eqb. cbn [fst snd].
  rewrite andb_true_iff, !Z.eqb_eq. split; [intros [-> ->] | intros [= -> ->]];
    auto.
Qed.

Lemma bounce_back_up :
  forallb (fun p => pair_eqb (Nat.iter 94 bounce_move (p, 1)) (p, 1))
          (Zrange 47) = true.
Proof. vm_compute. reflexivity. Qed.

Lemma bounce_back_down :
  forallb (fun p => pair_eqb (Nat.iter 94 bounce_move (p + 1, -1)) (p + 1, -1))
          (Zrange 47) = true.
Proof. vm_compute. reflexivity. Qed.

Lemma bounce_fresh_up :
  forallb (fun p =>
             forallb (fun n => negb (pair_eqb (Nat.iter n bounce_move (p, 1))
                                              (p, 1)))
                     (seq 1 93))
          (Zrange 47) = true.
Proof. vm_compute. reflexivity. Qed.

Lemma bounce_fresh_down :
  forallb (fun p =>
             forallb (fun n => negb (pair_eqb
                                       (Nat.iter n bounce_move (p + 1, -1))
                                       (p + 1, -1)))
                     (seq 1 93))
          (Zrange 47) = true.
Proof. vm_compute. reflexivity. Qed.

(** A position on the ring is back after 94 moves and not before. *)
Lemma bounce_move_period pos dir :
  bounce_ok pos dir ->
  Nat.iter 94 bounce_move (pos, dir) = (pos, dir)
  /\ forall n, (0 < n < 94)%nat ->
       Nat.iter n bounce_move (pos, dir) <> (pos, dir).
Proof.
  intros (Hp & Hd & H0 & H47).
  destruct Hd as [-> | ->].
  - assert (Hr : 0 <= pos < Z.of_nat 47).
    { assert (pos <> 47) by (intros ->; specialize (H47 eq_refl); lia). lia. }
    pose proof (Zrange_forallb 47 _ pos bounce_back_up Hr) as Hb.
    pose proof (Zrange_forallb 47 _ pos bounce_fresh_up Hr) as Hf.
    cbv beta in Hb, Hf. split; [apply pair_eqb_eq, Hb|].
    intros n Hn E. rewrite forallb_forall in Hf.
    specialize (Hf n ltac:(apply in_seq; lia)). cbv beta in Hf.
    apply pair_eqb_eq in E. rewrite E in Hf. discriminate Hf.
  - assert (Hr : 0 <= pos - 1 < Z.of_nat 47).
    { assert (pos <> 0) by (intros ->; specialize (H0 eq_refl); lia). lia. }
    pose proof (Zrange_forallb 47 _ (pos - 1) bounce_back_down Hr) as Hb.
    pose proof (Zrange_forallb 47 _ (pos - 1) bounce_fresh_down Hr) as Hf.
    cbv beta in Hb, Hf.
    replace (pos - 1 + 1) with pos in Hb, Hf by lia.
    split; [apply pair_eqb_eq, Hb|].
    intros n Hn E. rewrite forallb_forall in Hf.
    specialize (Hf n ltac:(apply in_seq; lia)). cbv beta in Hf.
    apply pair_eqb_eq in E. rewrite E in Hf. discriminate Hf.
Qed.

Lemma case12_result P s g (m : Machine P) r m' :
  case12 P s g m = Some (r, m') -> fst r = bounce_next s.
Proof.
  unfold case12. cbv zeta. intros E. bind_inv. reflexivity.
Qed.

Lemma iter_shift {A} (f : A -> A) n x : Nat.iter n f (f x) = f (Nat.iter n f x).
Proof.
  induction n as [|n IH]; [reflexivity|].
  rewrite !Nat.iter_succ, IH. reflexivity.
Qed.

(** [n] passes of mode 12 succeed and move the bounce statics [n]
    times. *)
Lemma mode12_passes P (HP : PlatformOK P) bright n :
  forall st (m : Machine P),
    statics_ok st -> mach_ok m ->
    exists st' m',
      run_modes P (repeat 12 n) bright st m = Some (st', m')
      /\ bounce st' = Nat.iter n bounce_next (bounce st).
Proof.
  induction n as [|n IH]; intros st m Hst Hm.
  - exists st, m. split; reflexivity.
  - destruct (ledRingTask_iter_safe P HP 12 bright st Hst m Hm)
      as (st1 & m1 & E1 & Hm1 & Hst1).
    destruct (IH st1 m1 Hst1 Hm1) as (st' & m' & E & Hb).
    exists st', m'. split.
    + cbn [repeat run_modes]. unfold bind at 1. rewrite E1. exact E.
    + rewrite Hb. rewrite Nat.iter_succ.
      rewrite <- (iter_shift bounce_next n (bounce st)). f_equal.
      cbn [ledRingTask_iter] in E1. bind_inv.
      cbn [set_gHue set_bounce bounce]. eapply case12_result; eassumption.
Qed.

Lemma bounce_next_iter n s :
  Nat.iter n bounce_next s
  = mkBounce (fst (Nat.iter n bounce_move (bouncePos1 s, bounceDir1 s)))
             (snd (Nat.iter n bounce_move (bouncePos1 s, bounceDir1 s)))
             (fst (Nat.iter n bounce_move (bouncePos2 s, bounceDir2 s)))
             (snd (Nat.iter n bounce_move (bouncePos2 s, bounceDir2 s))).
Proof.
  induction n as [|n IH]; [destruct s; reflexivity|].
  rewrite !Nat.iter_succ, IH. unfold bounce_next.
  cbn [bouncePos1 bounceDir1 bouncePos2 bounceDir2].
  rewrite <- !surjective_pairing. reflexivity.
Qed.

(** X21: the bouncing dots of mode 12 have period 94: from statics within
    their ranges, 94 passes of the colour bounce bring the four bounce
    statics back to their values, and no smaller number of passes
    does. *)
Theorem bounce_period P (HP : PlatformOK P) bright st (m : Machine P) :
  statics_ok st -> mach_ok m ->
  (exists st' m',
     run_modes P (repeat 12 94) bright st m = Some (st', m')
     /\ bounce st' = bounce st)
  /\ forall n, (0 < n < 94)%nat ->
       exists st' m',
         run_modes P (repeat 12 n) bright st m = Some (st', m')
         /\ bounce st' <> bounce st.
Proof.
  intros Hst Hm.
  pose proof (ok_bounce1 st Hst) as H1. pose proof (ok_bounce2 st Hst) as H2.
  destruct (bounce_move_period _ _ H1) as (P1 & N1).
  destruct (bounce_move_period _ _ H2) as (P2 & _).
  split.
  - destruct (mode12_passes P HP bright 94 st m Hst Hm) as (st' & m' & E & Hb).
    exists st', m'. split; [exact E|].
    rewrite Hb, bounce_next_iter, P1, P2. destruct (bounce st); reflexivity.
  - intros n Hn.
    destruct (mode12_passes P HP bright n st m Hst Hm) as (st' & m' & E & Hb).
    exists st', m'. split; [exact E|].
    rewrite Hb, bounce_next_iter. intros Heq.
    apply (N1 n Hn).
    pose proof (f_equal bouncePos1 Heq) as Ep.
    pose proof (f_equal bounceDir1 Heq) as Ed.
    cbn [bouncePos1 bounceDir1] in Ep, Ed.
    apply injective_projections; cbn [fst snd]; assumption.
Qed.

(** X21 from the start of the firmware. *)
Lemma bounce_period_witness :
  exists st' m',
    run_modes demoPlatform (repeat 12 94) 50 initStatics
              (machine (boot (P := demoPlatform) 0)) = Some (st', m')
    /\ bounce st' = bounce initStatics.
Proof.
  destruct (boot_ok (P := demoPlatform) 0) as (_ & Hst & Hm).
  exact (proj1 (bounce_period demoPlatform demo_ok 50 initStatics
                  (machine (boot (P := demoPlatform) 0)) Hst Hm)).
Defined.

(** ** Cases that repaint the whole array *)

Lemma covers_pre {P A} (S S0 S1 : Z -> Prop) (m : M P A) :
  covers S0 m S1 -> (forall k, S0 k -> S k) -> covers S m S1.
Proof.
  intros H Hs s1 s2 a s1' Hw Hl Ha E.
  apply (H s1 s2 a s1' Hw Hl); [intros k Hk; apply Ha, Hs, Hk | exact E].
Qed.

Lemma covers_post {P A} (S S1 S' : Z -> Prop) (m : M P A) :
  covers S m S1 -> (forall k, S' k -> S1 k) -> covers S m S'.
Proof.
  intros H Hs s1 s2 a s1' Hw Hl Ha E.
  destruct (H s1 s2 a s1' Hw Hl Ha E) as (s2' & E2 & Hw' & Hl' & Ha').
  exists s2'. repeat split; auto.
Qed.

Lemma covers_bind {P A B} (S S1 S2 : Z -> Prop) (m : M P A) (k : A -> M P B) :
  covers S m S1 -> (forall a, covers S1 (k a) S2) -> covers S (bind m k) S2.
Proof.
  intros Hm Hk s1 s2 b s1' Hw Hl Ha E.
  apply bind_Some in E as (a & t1 & E1 & E2).
  destruct (Hm s1 s2 a t1 Hw Hl Ha E1) as (t2 & F1 & Hw1 & Hl1 & Ha1).
  destruct (Hk a t1 t2 b s1' Hw1 Hl1 Ha1 E2) as (s2' & F2 & R).
  exists s2'. split; [|exact R]. unfold bind. rewrite F1. exact F2.
Qed.

Lemma covers_store {P} (S : Z -> Prop) i c :
  covers (P := P) S (store i c) (fun k => S k \/ k = i).
Proof.
  intros s1 s2 a s1' Hw Hl Ha E. unfold store in *.
  rewrite <- Hl.
  destruct (in_leds i && (i <? Z.of_nat (length (leds s1)))) eqn:Ei;
    [|discriminate].
  injection E as <- <-. eexists. split; [reflexivity|]. cbn [leds world].
  apply andb_prop in Ei as [Ei1 Ei2]. unfold in_leds in Ei1.
  apply andb_prop in Ei1 as [Ei0 _].
  apply Z.leb_le in Ei0. apply Z.ltb_lt in Ei2.
  split; [exact Hw|]. split; [rewrite !length_insert; exact Hl|].
  intros k Hk.
  destruct (decide (Z.to_nat k = Z.to_nat i)) as [Heq|Hne].
  - rewrite Heq, !list_lookup_insert_eq by lia. reflexivity.
  - rewrite !list_lookup_insert_ne by auto.
    destruct Hk as [Hk | ->]; [apply Ha, Hk | congruence].
Qed.

Lemma keeps_covers {P A} (S : Z -> Prop) (m : M P A) : keeps m -> covers S m S.
Proof. intros H. apply H. Qed.

Lemma keeps_ret {P A} (a : A) : keeps (P := P) (ret a).
Proof.
  intros S s1 s2 b s1' Hw Hl Ha E. unfold ret in *. injection E as <- <-.
  exists s2. auto.
Qed.

Lemma keeps_store {P} i c : keeps (P := P) (store i c).
Proof.
  intros S. eapply covers_post; [apply covers_store|]. intros k Hk. left.
  exact Hk.
Qed.

Lemma keeps_ask {P} (f : World P -> Z * World P) : keeps (ask f).
Proof.
  intros S s1 s2 a s1' Hw Hl Ha E. unfold ask in *. rewrite <- Hw.
  destruct (f (world s1)) as [z w]. injection E as <- <-.
  eexists. split; [reflexivity|]. cbn [leds world]. auto.
Qed.

Lemma keeps_show {P} : keeps (P := P) show.
Proof.
  intros S s1 s2 a s1' Hw Hl Ha E. unfold show in *. injection E as <- <-.
  eexists. split; [reflexivity|]. cbn [leds world]. auto.
Qed.

Lemma keeps_delay {P} ms : keeps (P := P) (delay ms).
Proof.
  intros S s1 s2 a s1' Hw Hl Ha E. unfold delay in *. injection E as <- <-.
  eexists. split; [reflexivity|]. cbn [leds world]. rewrite Hw. auto.
Qed.

Lemma keeps_bind {P A B} (m : M P A) (k : A -> M P B) :
  keeps m -> (forall a, keeps (k a)) -> keeps (bind m k).
Proof.
  intros Hm Hk S. eapply covers_bind; [apply Hm | intros a; apply Hk].
Qed.

(** A loop settles what its passes settle. *)
Lemma covers_for_loop {P} (G : Z -> Z -> Prop) n :
  forall i (body : Z -> M P unit) (S : Z -> Prop),
    (forall j (S0 : Z -> Prop), i <= j < i + Z.of_nat n ->
        covers S0 (body j) (fun k => S0 k \/ G j k)) ->
    covers S (for_loop n i body)
           (fun k => S k \/ exists j, i <= j < i + Z.of_nat n /\ G j k).
Proof.
  induction n as [|n IH]; intros i body S Hb.
  - cbn [for_loop]. eapply covers_post; [apply keeps_ret|].
    intros k [Hk | (j & Hj & _)]; [exact Hk | lia].
  - cbn [for_loop]. eapply covers_post.
    + eapply covers_bind; [apply Hb; lia|]. intros _.
      apply IH. intros j S0 Hj. apply Hb. lia.
    + intros k [Hk | (j & Hj & Hg)]; cbv beta.
      * left. left. exact Hk.
      * destruct (Z.eq_dec j i) as [->|Hne];
          [left; right; exact Hg | right; exists j; split; [lia | exact Hg]].
Qed.

Lemma covers_for {P} (G : Z -> Z -> Prop) lo hi (body : Z -> M P unit)
  (S : Z -> Prop) :
  (forall j (S0 : Z -> Prop), lo <= j < hi ->
      covers S0 (body j) (fun k => S0 k \/ G j k)) ->
  covers S (for_ lo hi body)
         (fun k => S k \/ exists j, lo <= j < hi /\ G j k).
Proof.
  intros Hb. unfold for_. eapply covers_post.
  - apply (covers_for_loop G). intros j S0 Hj. apply Hb. lia.
  - intros k [Hk | (j & Hj & Hg)]; [left; exact Hk|].
    right. exists j. split; [lia | exact Hg].
Qed.

Lemma keeps_for {P} lo hi (body : Z -> M P unit) :
  (forall j, keeps (body j)) -> keeps (for_ lo hi body).
Proof.
  intros Hb S. eapply covers_post.
  - apply (covers_for (fun _ _ => False)). intros j S0 _.
    eapply covers_post; [apply Hb|]. intros k [Hk | []]. exact Hk.
  - intros k Hk. left. exact Hk.
Qed.

Lemma covers_fill_solid {P} (S : Z -> Prop) ring n c :
  covers (P := P) S (fill_solid ring n c)
         (fun k => S k \/ ring <= k < ring + n).
Proof.
  unfold fill_solid. eapply covers_post.
  - apply (covers_for (fun j k => k = ring + j)). intros j S0 _.
    apply covers_store.
  - intros k [Hk | Hk]; [left; exact Hk|].
    right. exists (k - ring). split; lia.
Qed.

Lemma covers_rainbow_loop {P} n ring frac :
  forall i hue error (S : Z -> Prop),
    covers (P := P) S (rainbow_loop n ring i frac hue error)
           (fun k => S k \/ ring + i <= k < ring + i + Z.of_nat n).
Proof.
  induction n as [|n IH]; intros i hue error S.
  - cbn [rainbow_loop]. eapply covers_post; [apply keeps_ret|].
    intros k [Hk | Hk]; [exact Hk | lia].
  - cbn [rainbow_loop]. eapply covers_post.
    + eapply covers_bind; [apply covers_store|]. intros _.
      destruct (rainbow_next frac hue error) as [hue' error']. apply IH.
    + intros k [Hk | Hk]; cbv beta; [left; left; exact Hk | lia].
Qed.

Lemma covers_fill_ring {P} (S : Z -> Prop) ring ringSize startHue :
  0 <= ringSize ->
  covers (P := P) S (fill_ring_with_exact_rainbow ring ringSize startHue)
         (fun k => S k \/ ring <= k < ring + ringSize).
Proof.
  intros Hn. unfold fill_ring_with_exact_rainbow. eapply covers_post.
  - apply covers_rainbow_loop.
  - intros k [Hk | Hk]; cbv beta; [left; exact Hk | lia].
Qed.

Lemma covers_fill_all {P} (S : Z -> Prop) c :
  covers (P := P) S (fill_solid 0 NUM_LEDS c) all96.
Proof.
  eapply covers_post; [apply covers_fill_solid|].
  unfold all96, NUM_LEDS. intros k Hk. right. lia.
Qed.

Ltac keeps_walk :=
  repeat lazymatch goal with
    | |- keeps (bind _ _) => apply keeps_bind; [ | intros ? ]
    | |- keeps (ret _) => apply keeps_ret
    | |- keeps (store _ _) => apply keeps_store
    | |- keeps (ask _) => apply keeps_ask
    | |- keeps show => apply keeps_show
    | |- keeps (delay _) => apply keeps_delay
    | |- keeps (for_ _ _ _) => apply keeps_for; intros ?
    | |- keeps (if ?b then _ else _) => destruct b
    | |- keeps (match ?x with Some _ => _ | None => _ end) => destruct x
    | |- keeps (let _ := _ in _) => cbv zeta
    end.

(** The rest of a case after all the pixels are settled. *)
Ltac settled := intros; apply keeps_covers; keeps_walk.

(** The two loops of the modes that store to every pixel of ring 1 and
    then, mirrored, to every pixel of ring 2. *)
Lemma covers_two_rings {P A} (S : Z -> Prop) (body1 body2 : Z -> M P unit)
  (rest : M P A) :
  (forall j (S0 : Z -> Prop), 0 <= j < RING_LEDS ->
      covers S0 (body1 j) (fun k => S0 k \/ k = j)) ->
  (forall j (S0 : Z -> Prop), 0 <= j < RING_LEDS ->
      covers S0 (body2 j)
             (fun k => S0 k \/ k = RING_LEDS +i ((RING_LEDS - 1) -i j))) ->
  keeps rest ->
  covers S (for_ 0 RING_LEDS body1 ;; for_ 0 RING_LEDS body2 ;; rest) all96.
Proof.
  intros H1 H2 Hr. eapply covers_post.
  - eapply covers_bind; [apply (covers_for (fun j k => k = j)), H1|].
    intros _. eapply covers_bind;
      [apply (covers_for
                (fun j k => k = RING_LEDS +i ((RING_LEDS - 1) -i j))), H2|].
    intros _. apply keeps_covers, Hr.
  - unfold all96. intros k Hk. cbv beta.
    destruct (Z_lt_ge_dec k 48).
    + left. right. exists k. unfold RING_LEDS. lia.
    + right. exists (95 - k). unfold RING_LEDS.
      rewrite !int_sub_small, int_add_small by lia. lia.
Qed.

Section CasesRepaint.
Context (P : Platform).

Lemma case0_repaints S s : covers S (case0 P s) all96.
Proof.
  unfold case0. eapply covers_post.
  - eapply covers_bind; [apply covers_fill_ring; unfold RING_LEDS; lia|].
    intros _.
    eapply covers_bind; [apply covers_fill_ring; unfold RING_LEDS; lia|].
    settled.
  - unfold all96, RING_LEDS. intros k Hk. cbv beta. lia.
Qed.

Lemma case1_repaints S : covers S (case1 P) all96.
Proof.
  unfold case1. eapply covers_bind; [apply covers_fill_all | settled].
Qed.

Lemma case2_repaints S t : covers S (case2 P t) all96.
Proof.
  unfold case2. eapply covers_bind; [apply covers_fill_all | settled].
Qed.

Lemma case3_repaints S o : covers S (case3 P o) all96.
Proof.
  unfold case3. eapply covers_bind; [apply covers_fill_all | settled].
Qed.

Lemma case13_repaints S b x : covers S (case13 P b x) all96.
Proof.
  unfold case13. cbv zeta. apply covers_two_rings.
  - intros j S0 _. apply covers_store.
  - intros j S0 _. apply covers_store.
  - keeps_walk.
Qed.

Lemma case14_repaints S b g : covers S (case14 P b g) all96.
Proof.
  unfold case14. cbv zeta. apply covers_two_rings.
  - intros j S0 _.
    destruct ((j +i g %i (4 *i 2)) %i (4 *i 2) <? 4); apply covers_store.
  - intros j S0 _.
    destruct ((j +i g %i (4 *i 2)) %i (4 *i 2) <? 4); apply covers_store.
  - keeps_walk.
Qed.

Lemma case15_repaints S g : covers S (case15 P g) all96.
Proof.
  unfold case15. cbv zeta. apply covers_two_rings.
  - intros j S0 _. apply covers_store.
  - intros j S0 _. apply covers_store.
  - keeps_walk.
Qed.

Lemma case17_repaints S b s g : covers S (case17 P b s g) all96.
Proof.
  unfold case17. cbv zeta. eapply covers_post.
  - eapply covers_bind; [apply covers_fill_solid|]. intros _.
    eapply covers_bind; [apply keeps_covers; keeps_walk|]. intros _.
    eapply covers_bind; [apply covers_fill_solid|]. settled.
  - unfold all96, RING_LEDS. intros k Hk. cbv beta. lia.
Qed.

Lemma case18_repaints S s g : covers S (case18 P s g) all96.
Proof.
  unfold case18. cbv zeta. apply covers_two_rings.
  - intros j S0 _. apply covers_store.
  - intros j S0 _. apply covers_store.
  - keeps_walk.
Qed.

Lemma case19_repaints S g : covers S (case19 P g) all96.
Proof.
  unfold case19. eapply covers_bind; [apply keeps_covers, keeps_ask|].
  intros v. eapply covers_bind; [apply covers_fill_all | settled].
Qed.

Lemma case20_repaints S g : covers S (case20 P g) all96.
Proof.
  unfold case20. eapply covers_post.
  - eapply covers_bind; [apply covers_fill_solid|]. intros _.
    eapply covers_bind; [apply covers_fill_solid|]. settled.
  - unfold all96, RING_LEDS. intros k Hk. cbv beta. lia.
Qed.

Lemma case21_repaints S c g : covers S (case21 P c g) all96.
Proof.
  unfold case21. cbv zeta.
  eapply covers_bind; [apply covers_fill_all | settled].
Qed.

Lemma case22_repaints S s g : covers S (case22 P s g) all96.
Proof.
  unfold case22.
  eapply covers_bind;
    [apply keeps_covers; unfold static_random; keeps_walk|]. intros c1.
  eapply covers_bind;
    [apply keeps_covers; unfold static_random; keeps_walk|]. intros c2.
  eapply covers_bind; [apply covers_fill_all | settled].
Qed.

Lemma case23_repaints S c g : covers S (case23 P c g) all96.
Proof.
  unfold case23. eapply covers_bind; [|settled].
  destruct (c %i 4 =? 0); apply covers_fill_all.
Qed.

Lemma case24_repaints S g : covers S (case24 P g) all96.
Proof.
  unfold case24. cbv zeta. change (RING_LEDS /i 3) with 16.
  eapply covers_post.
  - eapply covers_bind; [|settled].
    apply (covers_for
             (fun b k =>
                (exists i, 0 <= i < 16 /\ k = b *i 16 +i i)
                \/ exists i, 0 <= i < 16
                             /\ k = RING_LEDS +i (b *i 16 +i (16 -i 1 -i i)))).
    intros b S0 Hb. eapply covers_post.
    + eapply covers_bind; [apply keeps_covers, keeps_ask|]. intros h1.
      eapply covers_bind; [apply keeps_covers, keeps_ask|]. intros h2.
      eapply covers_bind.
      * apply (covers_for (fun i k => k = b *i 16 +i i)). intros i S1 _.
        destruct (i <? h1); apply covers_store.
      * intros _.
        apply (covers_for
                 (fun i k => k = RING_LEDS +i (b *i 16 +i (16 -i 1 -i i)))).
        intros i S1 _. destruct (i <? h2); apply covers_store.
    + intros k Hk. cbv beta. tauto.
  - unfold all96, RING_LEDS. intros k Hk. cbv beta. right.
    destruct (Z_lt_ge_dec k 16);
      [exists 0; split; [lia|]; left; exists k; split; [lia|];
       idx|].
    destruct (Z_lt_ge_dec k 32);
      [exists 1; split; [lia|]; left; exists (k - 16); split; [lia|];
       idx|].
    destruct (Z_lt_ge_dec k 48);
      [exists 2; split; [lia|]; left; exists (k - 32); split; [lia|];
       idx|].
    destruct (Z_lt_ge_dec k 64);
      [exists 0; split; [lia|]; right; exists (63 - k); split; [lia|];
       idx|].
    destruct (Z_lt_ge_dec k 80);
      [exists 1; split; [lia|]; right; exists (79 - k); split; [lia|];
       idx|].
    exists 2; split; [lia|]; right; exists (95 - k); split; [lia|].
    idx.
Qed.

Lemma case26_repaints S s g : covers S (case26 P s g) all96.
Proof.
  unfold case26. cbv zeta. eapply covers_post.
  - eapply covers_bind; [apply covers_fill_solid|]. intros _.
    eapply covers_bind; [apply covers_fill_solid|]. settled.
  - unfold all96, RING_LEDS. intros k Hk. cbv beta. lia.
Qed.

Lemma case_default_repaints S : covers S (case_default P) all96.
Proof.
  unfold case_default. eapply covers_bind; [apply covers_fill_all | settled].
Qed.

End CasesRepaint.

Ltac case_repaints :=
  lazymatch goal with
  | |- covers _ (case0 _ _) _ => apply case0_repaints
  | |- covers _ (case1 _) _ => apply case1_repaints
  | |- covers _ (case2 _ _) _ => apply case2_repaints
  | |- covers _ (case3 _ _) _ => apply case3_repaints
  | |- covers _ (case13 _ _ _) _ => apply case13_repaints
  | |- covers _ (case14 _ _ _) _ => apply case14_repaints
  | |- covers _ (case15 _ _) _ => apply case15_repaints
  | |- covers _ (case17 _ _ _ _) _ => apply case17_repaints
  | |- covers _ (case18 _ _ _) _ => apply case18_repaints
  | |- covers _ (case19 _ _) _ => apply case19_repaints
  | |- covers _ (case20 _ _) _ => apply case20_repaints
  | |- covers _ (case21 _ _ _) _ => apply case21_repaints
  | |- covers _ (case22 _ _ _) _ => apply case22_repaints
  | |- covers _ (case23 _ _ _) _ => apply case23_repaints
  | |- covers _ (case24 _ _) _ => apply case24_repaints
  | |- covers _ (case26 _ _ _) _ => apply case26_repaints
  end.

Lemma ledRingTask_iter_repaints P mode bright st (S : Z -> Prop) :
  repaints mode = true ->
  covers S (ledRingTask_iter P mode bright st) all96.
Proof.
  intros Hr.
  destruct (Z_le_dec 0 mode) as [H0|H0];
    [destruct (Z_le_dec mode 26) as [H1|H1]|].
  2,3: rewrite ledRingTask_iter_default by lia;
       (eapply covers_bind; [apply case_default_repaints|]); settled.
  assert (H : 0 <= mode <= 26) by lia. clear H0 H1.
  each_mode H; try discriminate Hr; cbn [ledRingTask_iter];
    (eapply covers_bind; [case_repaints | settled]).
Qed.

(** X22: the modes 0 to 3, 13 to 15, 17 to 24 and 26 and every mode value
    outside 0..26 store to all 96 pixels before they show the array: run
    on two arrays with different contents, in the same world and from the
    same statics, a pass gives the same statics, the same array and the
    same frame, so that nothing of what an earlier mode left is shown. *)
Theorem repaint_independent P (HP : PlatformOK P) mode bright st
  (m1 m2 : Machine P) :
  repaints mode = true ->
  statics_ok st -> mach_ok m1 -> mach_ok m2 -> world m1 = world m2 ->
  exists st' m1' m2',
    ledRingTask_iter P mode bright st m1 = Some (st', m1')
    /\ ledRingTask_iter P mode bright st m2 = Some (st', m2')
    /\ leds m1' = leds m2'
    /\ world m1' = world m2'
    /\ out m1' = out m1 ++ [EvShow (leds m1'); EvDelay (mode_delay mode)]
    /\ out m2' = out m2 ++ [EvShow (leds m1'); EvDelay (mode_delay mode)].
Proof.
  intros Hr Hst Hm1 Hm2 Hw.
  destruct (ledRingTask_iter_safe P HP mode bright st Hst m1 Hm1)
    as (st' & m1' & E1 & Hm1' & _).
  destruct Hm1 as [Hl1 _]. destruct Hm2 as [Hl2 _]. destruct Hm1' as [Hl1' _].
  destruct (ledRingTask_iter_repaints P mode bright st (fun _ => False) Hr
              m1 m2 st' m1' Hw ltac:(congruence) ltac:(intros k [])  E1)
    as (m2' & E2 & Hw' & Hl' & Ha).
  assert (Hleds : leds m1' = leds m2').
  { apply list_eq. intros i. unfold NUM_LEDS in *.
    destruct (decide (i < 96)%nat) as [Hlt|Hge].
    - specialize (Ha (Z.of_nat i)). rewrite Nat2Z.id in Ha. apply Ha.
      unfold all96. lia.
    - rewrite !lookup_ge_None_2 by lia. reflexivity. }
  assert (H4 : mode = 4 -> sideWipeInitialized (wipe st) = true)
    by (intros ->; discriminate Hr).
  exists st', m1', m2'. split; [exact E1|]. split; [exact E2|].
  split; [exact Hleds|]. split; [exact Hw'|]. split.
  - exact (ledRingTask_iter_shows P mode bright st H4 _ _ _ E1).
  - rewrite Hleds.
    exact (ledRingTask_iter_shows P mode bright st H4 _ _ _ E2).
Qed.

(** X22 for the swirl, over a black and over a white array. *)
Lemma repaint_independent_witness :
  exists st' m1' m2',
    ledRingTask_iter demoPlatform 13 50 initStatics
                     (mkMachine (P := demoPlatform) (replicate 96 Black) 0 [])
    = Some (st', m1')
    /\ ledRingTask_iter demoPlatform 13 50 initStatics
                        (mkMachine (P := demoPlatform) (replicate 96 White) 0 [])
       = Some (st', m2')
    /\ leds m1' = leds m2'.
Proof.
  destruct (repaint_independent demoPlatform demo_ok 13 50 initStatics
              (mkMachine (P := demoPlatform) (replicate 96 Black) 0 [])
              (mkMachine (P := demoPlatform) (replicate 96 White) 0 []))
    as (st' & m1' & m2' & E1 & E2 & Hl & _).
  - reflexivity.
  - apply (boot_ok (P := demoPlatform) 0).
  - split; [reflexivity|]. apply Forall_replicate, crgb_ok_const.
  - split; [reflexivity|]. apply Forall_replicate, crgb_ok_const.
  - reflexivity.
  - exists st', m1', m2'. auto.
Defined.

(** ** Brightness and distance on a ring *)

(** X23: the brightness that the liquid ripple gives pixel [i] of a ring
    whose ripple is centred at [c] is 255 minus 10 for every pixel of
    distance the short way round: the step [255 / (RING_LEDS / 2)] is an
    integer division, so the pixel opposite the centre keeps brightness
    15 and no pixel is dark, and [constrain] never changes the value. *)
Theorem ripple_brightness i c :
  0 <= i < RING_LEDS -> 0 <= c < RING_LEDS ->
  ripple_bri i c = 255 - 10 * ring_dist i c
  /\ 15 <= ripple_bri i c <= 255
  /\ (ripple_bri i c = 255 <-> i = c)
  /\ (ripple_bri i c = 15 <-> Z.abs (i - c) = 24).
Proof.
  unfold RING_LEDS. intros Hi Hc.
  assert (E : ripple_bri i c = 255 - 10 * ring_dist i c).
  { unfold ripple_bri, ring_dist, int_abs, constrain, RING_LEDS.
    change (255 /i (48 /i 2)) with 10.
    rewrite (int_sub_small i c) by lia.
    rewrite (int32_small (Z.abs (i - c))) by lia.
    rewrite (int_sub_small 48) by lia.
    rewrite int_mul_small by lia.
    rewrite int_sub_small by lia.
    rewrite (u8_small (255 - _)) by lia.
    destruct (_ <? 0) eqn:E1; [apply Z.ltb_lt in E1; lia|].
    destruct (_ >? 255) eqn:E2; [rewrite Z.gtb_ltb in E2; apply Z.ltb_lt in E2; lia|].
    rewrite u8_small by lia. lia. }
  rewrite E. unfold ring_dist. repeat split; lia.
Qed.

(** X23 at the centre and opposite it. *)
Lemma ripple_brightness_witness :
  ripple_bri 7 7 = 255 /\ ripple_bri 31 7 = 15.
Proof.
  destruct (ripple_brightness 7 7) as (_ & _ & H & _);
    [unfold RING_LEDS; lia | unfold RING_LEDS; lia |].
  destruct (ripple_brightness 31 7) as (_ & _ & _ & H');
    [unfold RING_LEDS; lia | unfold RING_LEDS; lia |].
  split; [apply H; reflexivity | apply H'; reflexivity].
Defined.

Lemma lit_count_all :
  forallb (fun c =>
             forallb (fun e => Nat.eqb (lit_count c e) (Z.to_nat (2 * e + 1)))
                     (Zrange 13))
          (Zrange 48) = true.
Proof. vm_compute. reflexivity. Qed.

(** X24: the shockwave at expansion [e] lights the pixels within distance
    [e] of its centre, the short way round the ring and so across the
    ring's end: [2 e + 1] pixels of the 48, for every centre and every
    expansion up to 12. *)
Theorem shockwave_window c e :
  0 <= c < RING_LEDS -> 0 <= e <= 12 ->
  (forall i, 0 <= i < RING_LEDS ->
             (shock_lit i c e = true <-> ring_dist i c <= e))
  /\ lit_count c e = Z.to_nat (2 * e + 1).
Proof.
  unfold RING_LEDS. intros Hc He. split.
  - intros i Hi. unfold shock_lit, ring_dist, int_abs, RING_LEDS.
    change (48 /i 2) with 24.
    rewrite (int_sub_small i c) by lia.
    rewrite (int32_small (Z.abs (i - c))) by lia.
    rewrite (int_sub_small 48) by lia.
    destruct (Z.abs (i - c) >? 24) eqn:E;
      rewrite Z.gtb_ltb in E;
      [apply Z.ltb_lt in E | apply Z.ltb_ge in E];
      rewrite Z.leb_le; lia.
  - pose proof (Zrange_forallb 48 _ c lit_count_all ltac:(lia)) as H.
    cbv beta in H.
    pose proof (Zrange_forallb 13 _ e H ltac:(lia)) as H'.
    cbv beta in H'. apply Nat.eqb_eq in H'. exact H'.
Qed.

(** X24 for a burst that crosses the end of the ring. *)
Lemma shockwave_window_witness :
  shock_lit 47 1 3 = true /\ lit_count 1 3 = 7%nat.
Proof.
  destruct (shockwave_window 1 3) as (H & Hn);
    [unfold RING_LEDS; lia | lia |].
  split; [|exact Hn].
  apply H; [unfold RING_LEDS; lia | unfold ring_dist; lia].
Defined.

(** ** The output of the render task over a whole run *)

Lemma paced_app t u : paced t -> paced u -> paced (t ++ u).
Proof.
  intros Ht Hu. induction Ht as [|f d t Hl Hf Hd Ht IH]; [exact Hu|].
  cbn [app]. apply paced_cons; assumption.
Qed.

Lemma step_paced {P} (HP : PlatformOK P) (s s' : System P) :
  reachable s -> step s s' ->
  paced (out (machine s)) -> paced (out (machine s')).
Proof.
  intros Hr Hs Hp.
  destruct Hs as [s m b | s now | s Hn | s s' _ E | s w];
    cbn [sys_handleSet sys_buttons sys_ring_entry sys_world machine out];
    try exact Hp.
  destruct (reachable_ok HP s Hr) as (_ & Hst & Hm).
  apply sys_ring_iter_Some in E as (_ & _ & E).
  destruct (ledRingTask_iter_safe P HP (currentMode (config s))
              (ringBrightness (config s)) (statics s) Hst _ Hm)
    as (st1 & m1 & E1 & Hm1 & _).
  rewrite E in E1. injection E1 as <- <-.
  destruct Hm1 as [Hl1 Hf1]. destruct Hm as [Hl Hf].
  pose proof (mode_delay_range (currentMode (config s))) as Hd.
  destruct (Z.eq_dec (currentMode (config s)) 4) as [H4|H4].
  - destruct (sideWipeInitialized (wipe (statics s))) eqn:Ei.
    + rewrite (ledRingTask_iter_shows P _ _ _ (fun _ => Ei) _ _ _ E).
      apply paced_app; [exact Hp|].
      apply paced_cons; auto using paced_nil.
    + rewrite H4 in E. rewrite (mode4_first_pass P _ _ _ _ _ E Ei Hl).
      apply paced_app; [exact Hp|].
      apply paced_cons;
        [ apply length_replicate
        | apply Forall_replicate, crgb_ok_const | lia | ].
      apply paced_cons; auto using paced_nil. lia.
  - rewrite (ledRingTask_iter_shows P _ _ _
               (fun H => False_ind _ (H4 H)) _ _ _ E).
    apply paced_app; [exact Hp|].
    apply paced_cons; auto using paced_nil.
Qed.

(** X25: everything [ledRingTask] has shown on the rings and waited for,
    in any reachable state, is a sequence of pairs: a frame of 96 pixels
    with channel values in 0..255 handed to [FastLED.show()], then a
    [vTaskDelay] of between 10 and 100 ms. The render task never shows two
    frames without a wait between them. (The status LED and the waits of
    the other tasks are not part of this trace.) *)
Theorem trace_paced {P} (HP : PlatformOK P) (s : System P) :
  reachable s -> paced (out (machine s)).
Proof.
  induction 1 as [w | s s' Hr IH Hs].
  - apply paced_nil.
  - eapply step_paced; eassumption.
Qed.

(** X25 after a first pass of the side wipe, which shows two frames. *)
Lemma trace_paced_witness :
  exists s,
    sys_ring_iter (demo_start 4) = Some s /\ paced (out (machine s)).
Proof.
  destruct (sys_ring_iter_total demo_ok (demo_start 4)
              (demo_start_reachable 4)) as [s Es].
  exists s. split; [exact Es|].
  apply (trace_paced demo_ok).
  eapply reachable_ring_iter; [apply demo_start_reachable | reflexivity | exact Es].
Defined.

(** ** The liquid ripple on both rings *)

Lemma for_each_run {P} n i (g : Z -> Z) (c : Z -> CRGB) (s : Machine P) :
  (forall j, i <= j < i + Z.of_nat n -> 0 <= g j < NUM_LEDS) ->
  length (leds s) = Z.to_nat NUM_LEDS ->
  for_loop n i (fun j => store (g j) (c j)) s
  = Some (tt, mkMachine (paint n i (fun _ => true) g c (leds s))
                        (world s) (out s)).
Proof.
  intros Hg Hl.
  apply (for_paint_run n i (fun _ => true) g c s); [|exact Hl].
  intros j Hj _. apply Hg, Hj.
Qed.

Lemma case18_run {P} c1 c2 g (m : Machine P) :
  length (leds m) = Z.to_nat NUM_LEDS ->
  exists f,
    case18 P (mkRipple c1 c2) g m
    = Some ((mkRipple ((c1 +i 1) %i RING_LEDS) ((c2 +i 1) %i RING_LEDS),
             u8 (g + 1)),
            mkMachine f (sleep P 40 (world m))
                      (out m ++ [EvShow f; EvDelay 40]))
    /\ forall i, 0 <= i < RING_LEDS ->
         f !! Z.to_nat i = Some (hsv P g 255 (ripple_bri i c1))
         /\ f !! Z.to_nat (95 - i)
            = Some (hsv P (g +i 128) 255 (ripple_bri i c2)).
Proof.
  intros Hl. unfold case18. cbn [rippleCenter1 rippleCenter2]. cbv zeta.
  unfold for_. unfold bind at 1.
  rewrite (for_each_run _ 0 (fun i => i)
             (fun i => hsv P g 255 (ripple_bri i c1)))
    by (try exact Hl; intros j Hj; unfold RING_LEDS, NUM_LEDS in *; lia).
  unfold bind at 1.
  rewrite (for_each_run _ 0 (fun i => RING_LEDS +i ((RING_LEDS - 1) -i i))
             (fun i => hsv P (g +i 128) 255 (ripple_bri i c2)));
    [ | intros j Hj; unfold RING_LEDS, NUM_LEDS in *;
        rewrite int_sub_small, int_add_small by lia; lia
      | cbn [leds]; rewrite paint_length; exact Hl ].
  unfold bind, show, delay, ret. cbn [leds world out].
  rewrite <- app_assoc. cbn [app].
  eexists. split; [reflexivity|].
  intros i Hi. unfold RING_LEDS, NUM_LEDS in *.
  change (Z.to_nat (48 - 0)) with 48%nat.
  assert (Hg : forall j, 0 <= j < 48 ->
                         48 +i ((48 - 1) -i j) = 95 - j)
    by (intros j Hj; rewrite int_sub_small, int_add_small by lia; lia).
  split.
  - rewrite paint_miss
      by (intros j Hj _; cbv beta; rewrite Hg by lia; lia).
    apply (paint_hit 48 0 (fun _ => true) (fun i => i)
             (fun i => hsv P g 255 (ripple_bri i c1)) (leds m) i);
      [lia | reflexivity | lia | intros j' Hj' _; lia].
  - rewrite <- (Hg i) by lia.
    apply (paint_hit 48 0 (fun _ => true)
             (fun i => 48 +i ((48 - 1) -i i))
             (fun i => hsv P (g +i 128) 255 (ripple_bri i c2)) _ i);
      [ lia | reflexivity | rewrite paint_length, Hg by lia; lia
      | intros j' Hj' _; rewrite !Hg by lia; lia ].
Qed.

(** X26: a pass of the liquid ripple from a reachable state shows the
    second ring as the mirror image of the first with the hue half a turn
    on: pixel [i] of ring 1 has hue [gHue] and brightness [ripple_bri i c],
    pixel [95 - i] has hue [gHue + 128] and the same brightness, [c] being
    the centre that both rings share. *)
Theorem ripple_mirror {P} (HP : PlatformOK P) (s : System P) :
  reachable s -> currentMode (config s) = 18 ->
  exists s',
    sys_ring_iter s = Some s'
    /\ forall i, 0 <= i < RING_LEDS ->
         leds (machine s') !! Z.to_nat i
         = Some (hsv P (gHue (statics s)) 255
                     (ripple_bri i (rippleCenter1 (ripple (statics s)))))
         /\ leds (machine s') !! Z.to_nat (95 - i)
            = Some (hsv P (gHue (statics s) +i 128) 255
                        (ripple_bri i (rippleCenter1 (ripple (statics s))))).
Proof.
  intros Hr Hmode.
  destruct (reachable_ok HP s Hr) as (_ & _ & Hl & _).
  destruct (reachable_paired s Hr) as (_ & _ & _ & _ & _ & _ & Hc & _).
  unfold sys_ring_iter. rewrite Hmode. cbn [ledRingTask_iter].
  unfold bind at 1.
  destruct (ripple (statics s)) as [c1 c2] eqn:Er.
  cbn [rippleCenter1 rippleCenter2] in *. subst c2.
  destruct (case18_run c1 c1 (gHue (statics s)) (machine s) Hl)
    as (f & E & Hf).
  rewrite E. unfold ret. eexists. split; [reflexivity|].
  cbn [machine leds]. exact Hf.
Qed.

(** X26 on the first pass of the ripple after the start. *)
Lemma ripple_mirror_witness :
  exists s',
    sys_ring_iter (demo_start 18) = Some s'
    /\ leds (machine s') !! 24%nat
       = Some (hsv demoPlatform 0 255 (ripple_bri 24 0))
    /\ leds (machine s') !! 71%nat
       = Some (hsv demoPlatform (0 +i 128) 255 (ripple_bri 24 0)).
Proof.
  destruct (ripple_mirror demo_ok (demo_start 18)
              (demo_start_reachable 18) eq_refl) as (s' & E & H).
  exists s'. split; [exact E|]. apply (H 24). unfold RING_LEDS. lia.
Defined.

(** ** The two writers, access by access *)

(** A task left alone runs its handler as the handler-at-a-time functions
    say. *)
Lemma web_solo_handleSet mode brightness c :
  web_solo 4 (web_start mode brightness) c = handleSet mode brightness c.
Proof.
  unfold web_start, handleSet.
  destruct mode as [modeVal|], brightness as [brightVal|];
    cbn [web_bright];
    try destruct ((0 <=? modeVal) && (modeVal <? numModes));
    try destruct ((0 <=? brightVal) && (brightVal <=? 255)) eqn:E;
    do 4 (cbn [web_solo web_step fst snd web_bright]; rewrite ?E);
    reflexivity.
Qed.

Lemma btn_solo_handler h c :
  btn_solo 5 (btn_begin h c) c = handler_run h c.
Proof. destruct h; reflexivity. Qed.

Lemma handlers_of_pass now last c :
  fold_left (fun c h => handler_run h c) (handlers_of now last) c
  = fst (buttonTask_iter now last c).
Proof.
  unfold handlers_of, buttonTask_iter.
  destruct (pressed (pinModeInc now) (pinModeInc last)),
           (pressed (pinModeDec now) (pinModeDec last)),
           (pressed (pinBrightInc now) (pinBrightInc last)),
           (pressed (pinBrightDec now) (pinBrightDec last)); reflexivity.
Qed.

Lemma mode_up_range t : 0 <= t <= 26 -> 0 <= (t +i 1) %i numModes <= 26.
Proof.
  intros H. unfold numModes. rewrite int_add_small by lia.
  pose proof (int_rem_range (t + 1) 27 ltac:(lia) ltac:(lia)). lia.
Qed.

Lemma web_start_inv mode brightness : web_inv (web_start mode brightness).
Proof.
  unfold web_start, web_bright, numModes.
  destruct mode as [modeVal|], brightness as [brightVal|]; cbn [web_inv];
    repeat match goal with
      | |- context [if ?b then _ else _] => destruct b eqn:?
      end; cbn [web_inv];
    repeat match goal with
      | H : (_ && _) = true |- _ => apply andb_prop in H as [? ?]
      end; try exact I; lia.
Qed.

Lemma web_bright_inv brightness : web_inv (web_bright brightness).
Proof. exact (web_start_inv None brightness). Qed.

Ltac cfg_unfold :=
  unfold config_ok, in_sync, set_currentMode, set_ringBrightness,
         FastLED_setBrightness, numModes in *;
  cbn [currentMode ringBrightness fastledBrightness fst snd] in *.

(** A step of the web task keeps what holds at the button task's
    position. *)
Lemma web_step_btn_inv w b c :
  web_inv w -> btn_inv b c -> btn_inv b (snd (web_step w c)).
Proof.
  intros Hw Hb.
  destruct w; cbn [web_step snd web_inv] in *; try exact Hb;
    destruct b; cbn [btn_inv] in *; cfg_unfold; intuition lia.
Qed.

Lemma web_step_inv w c : web_inv w -> web_inv (fst (web_step w c)).
Proof.
  intros Hw. destruct w; cbn [web_step fst web_inv]; auto.
  apply web_bright_inv.
Qed.

Lemma btn_begin_inv h c : config_ok c -> btn_inv (btn_begin h c) c.
Proof. intros H. destruct h; cbn [btn_begin btn_inv]; cfg_unfold; lia. Qed.

Lemma btn_step_inv b c :
  btn_inv b c -> btn_inv (fst (btn_step b c)) (snd (btn_step b c)).
Proof.
  intros Hb.
  destruct b; cbn [btn_step fst snd btn_inv] in *; try exact Hb.
  - pose proof (mode_up_range t ltac:(tauto)). cfg_unfold. lia.
  - cfg_unfold. rewrite int_sub_small by lia. lia.
  - cfg_unfold. lia.
  - cfg_unfold. destruct (t <? 0) eqn:E;
      [apply Z.ltb_lt in E | apply Z.ltb_ge in E];
      cbn [currentMode ringBrightness]; rewrite ?int_sub_small by lia; lia.
  - cfg_unfold. rewrite int_add_small by lia. lia.
  - cfg_unfold. lia.
  - cfg_unfold. destruct (t >? 255) eqn:E; rewrite Z.gtb_ltb in E;
      [apply Z.ltb_lt in E | apply Z.ltb_ge in E];
      cbn [currentMode ringBrightness]; lia.
  - cfg_unfold. lia.
  - cfg_unfold. lia.
  - cfg_unfold. rewrite int_sub_small by lia. lia.
  - cfg_unfold. lia.
  - cfg_unfold. destruct (t <? 0) eqn:E;
      [apply Z.ltb_lt in E | apply Z.ltb_ge in E];
      cbn [currentMode ringBrightness]; lia.
  - cfg_unfold. lia.
  - cfg_unfold. lia.
Qed.

Lemma wstep_inv s s' :
  wstep s s' ->
  web_inv (web s) /\ btn_inv (btn s) (globals s) ->
  web_inv (web s') /\ btn_inv (btn s') (globals s').
Proof.
  intros Hs [Hw Hb].
  destruct Hs as [s mode brightness _ | s _ | s now Hi _ | s Hi Ht | s _].
  - cbn [w_request web btn globals]. split; [apply web_start_inv | exact Hb].
  - cbn [w_web web btn globals].
    split; [apply web_step_inv, Hw | apply web_step_btn_inv; assumption].
  - cbn [w_pass web btn globals]. rewrite Hi in Hb. split; assumption.
  - unfold w_begin. destruct (todo s) as [|h rest]; [contradiction|].
    cbn [web btn globals]. split; [exact Hw|].
    apply btn_begin_inv. rewrite Hi in Hb. exact Hb.
  - cbn [w_btn web btn globals]. split; [exact Hw | apply btn_step_inv, Hb].
Qed.

Lemma wreachable_inv s :
  wreachable s -> web_inv (web s) /\ btn_inv (btn s) (globals s).
Proof.
  induction 1 as [|s s' _ IH Hs].
  - cbn. unfold config_ok. cbn. lia.
  - eapply wstep_inv; eassumption.
Qed.

Ltac differs := let E := fresh in intros E; vm_compute in E; discriminate E.

(** Follows a run written with [w_request], [w_web], [w_pass], [w_begin]
    and [w_btn] back to the initial state. *)
Ltac run_steps :=
  repeat (eapply wreach_step;
          [ | first [ apply ws_btn; differs
                    | apply ws_web; differs
                    | apply ws_request; reflexivity
                    | apply ws_begin; [reflexivity | differs]
                    | apply ws_pass; reflexivity ] ]);
  apply wreach_init.

(** The runs of the definitions are runs of the two tasks. *)
Lemma mode_down_at_0_reachable : wreachable mode_down_at_0.
Proof. unfold mode_down_at_0. run_steps. Qed.

Lemma bright_up_at_250_reachable : wreachable bright_up_at_250.
Proof. unfold bright_up_at_250. run_steps. Qed.

Lemma bright_down_at_0_reachable : wreachable bright_down_at_0.
Proof. unfold bright_down_at_0. run_steps. Qed.

Lemma set_during_up_reachable : wreachable set_during_up.
Proof. unfold set_during_up. run_steps. Qed.

(** C5: the handlers of the mode-down and of the two brightness buttons
    store the unclamped value in the volatile global and repair it in
    their next statement. Pressing mode down in mode 0 stores -1 in
    [currentMode]; brightness up at 250 stores 260 and brightness down at
    0 stores -10 in [ringBrightness]. In every state that the two writer
    tasks reach, access by access and interleaved in any way, the globals
    are in range whenever the button task is outside its handlers, the
    mode is within [-1,26] and the brightness within [-10,265], and an
    out-of-range value is in the global only between the store and the
    repair of the handler that stored it. *)
Theorem config_range_transient :
  (wreachable mode_down_at_0
   /\ globals mode_down_at_0 = mkConfig (-1) 50 50
   /\ btn mode_down_at_0 = BDecTest)
  /\ (wreachable bright_up_at_250
      /\ globals bright_up_at_250 = mkConfig 0 260 250
      /\ btn bright_up_at_250 = BUpTest)
  /\ (wreachable bright_down_at_0
      /\ globals bright_down_at_0 = mkConfig 0 (-10) 0
      /\ btn bright_down_at_0 = BDownTest)
  /\ forall s, wreachable s ->
       (btn s = BIdle -> config_ok (globals s))
       /\ -1 <= currentMode (globals s) <= 26
       /\ -10 <= ringBrightness (globals s) <= 265
       /\ (currentMode (globals s) < 0 ->
           btn s = BDecTest \/ exists t, t < 0 /\ btn s = BDecFix t)
       /\ (255 < ringBrightness (globals s) ->
           btn s = BUpTest \/ exists t, 255 < t /\ btn s = BUpFix t)
       /\ (ringBrightness (globals s) < 0 ->
           btn s = BDownTest \/ exists t, t < 0 /\ btn s = BDownFix t).
Proof.
  split; [|split; [|split]].
  - split; [apply mode_down_at_0_reachable|]. split; reflexivity.
  - split; [apply bright_up_at_250_reachable|]. split; reflexivity.
  - split; [apply bright_down_at_0_reachable|]. split; reflexivity.
  - intros s Hr. destruct (wreachable_inv s Hr) as [_ Hb].
    destruct (btn s) as [ |t|t| |t|t| |t| |t|t| |t| |t];
      cbn [btn_inv] in Hb; unfold config_ok in *;
      (split; [intros E; first [discriminate E | exact Hb | tauto]|]);
      (split; [lia|]); (split; [lia|]);
      (split; [intros H|split; intros H]);
      first [ lia
            | left; reflexivity
            | right; exists t; split; [lia | reflexivity] ].
Qed.

(** *** When the writers take turns *)

Lemma wstep_sync s s' :
  wstep s s' -> one_at_a_time s' -> sync_inv s -> sync_inv s'.
Proof.
  intros Hs Ho Hi. unfold sync_inv, one_at_a_time in *.
  destruct Hs as [s mode brightness Hw | s Hw | s now Hb Ht | s Hb Ht | s Hb].
  - cbn [w_request web btn globals] in *. rewrite Hw in Hi.
    destruct Ho as [Ho | Ho].
    + rewrite Ho. exact Hi.
    + rewrite Ho in *. cbn [btn_sync] in Hi.
      unfold web_start, web_bright, numModes.
      destruct mode as [modeVal|], brightness as [brightVal|];
        repeat match goal with
          | |- context [if ?b then _ else _] => destruct b eqn:?
          end; cbn [web_sync btn_sync];
        repeat match goal with
          | H : (_ && _) = true |- _ => apply andb_prop in H as [? ?]
          end; try exact Hi; lia.
  - cbn [w_web web btn globals] in *.
    destruct (web s) as [ |modeVal brightness|brightVal| |t] eqn:Ew;
      [contradiction| | | |];
      (destruct (btn s) eqn:Eb; try contradiction);
      cbn [web_step fst snd web_sync btn_sync] in *.
    + unfold web_bright.
      destruct brightness as [brightVal|];
        repeat match goal with
          | |- context [if ?b then _ else _] => destruct b eqn:?
          end; cbn [web_sync btn_sync];
        repeat match goal with
          | H : (_ && _) = true |- _ => apply andb_prop in H as [? ?]
          end; cfg_unfold; lia.
    + cfg_unfold. lia.
    + cfg_unfold. lia.
    + cfg_unfold. rewrite u8_small by lia. lia.
  - cbn [w_pass web btn globals] in *. rewrite Hb in Hi.
    destruct (web s); exact Hi.
  - unfold w_begin in *. destruct (todo s) as [|h rest]; [contradiction|].
    cbn [web btn globals] in *. rewrite Hb in Hi.
    destruct Ho as [Ho | Ho]; [|destruct h; discriminate Ho].
    rewrite Ho in *. cbn [web_sync btn_sync] in Hi.
    destruct h; cbn [btn_begin btn_sync]; cfg_unfold; first [exact Hi | lia].
  - cbn [w_btn web btn globals] in *.
    destruct (web s) eqn:Ew;
      [|destruct (btn s); first [contradiction | exfalso; exact Hi]..].
    destruct (btn s) as [ |t|t| |t|t| |t| |t|t| |t| |t] eqn:Eb;
      [contradiction|..];
      cbn [btn_step fst snd btn_sync] in *; cfg_unfold;
      try (destruct (t <? 0) eqn:E1;
           [apply Z.ltb_lt in E1 | apply Z.ltb_ge in E1]);
      try (destruct (t >? 255) eqn:E2; rewrite Z.gtb_ltb in E2;
           [apply Z.ltb_lt in E2 | apply Z.ltb_ge in E2]);
      cbn [currentMode ringBrightness fastledBrightness];
      rewrite ?int_add_small, ?int_sub_small by lia;
      rewrite ?u8_small by lia; lia.
Qed.

Lemma sreachable_sync s : sreachable s -> sync_inv s.
Proof.
  induction 1 as [|s s' _ IH Hs Ho].
  - unfold sync_inv. cbn [initWriters web btn globals btn_sync].
    split; [reflexivity | cbn; lia].
  - eapply wstep_sync; eassumption.
Qed.

Lemma sreachable_wreachable s : sreachable s -> wreachable s.
Proof.
  induction 1 as [|s s' _ IH Hs _]; [apply wreach_init|].
  eapply wreach_step; eassumption.
Qed.

Lemma sreachable_web g w td sn :
  w <> WIdle ->
  sreachable (mkWriters g w BIdle td sn) ->
  sreachable (mkWriters (snd (web_step w g)) (fst (web_step w g)) BIdle td sn).
Proof.
  intros Hw Hr.
  apply (sreach_step _ _ Hr (ws_web (mkWriters g w BIdle td sn) Hw)).
  right. reflexivity.
Qed.

Lemma sreachable_setBrightness g brightVal td sn :
  sreachable (mkWriters g (WBright brightVal) BIdle td sn) ->
  sreachable (mkWriters
                (FastLED_setBrightness
                   (ringBrightness (set_ringBrightness brightVal g))
                   (set_ringBrightness brightVal g))
                WIdle BIdle td sn).
Proof.
  intros Hr.
  apply sreachable_web in Hr; [|discriminate]. cbn [web_step fst snd] in Hr.
  apply sreachable_web in Hr; [|discriminate]. cbn [web_step fst snd] in Hr.
  apply sreachable_web in Hr; [|discriminate]. exact Hr.
Qed.

(** A whole [handleSet] run while the button task is outside its
    handlers is a run in which the writers take turns, and ends as
    [handleSet] says. *)
Lemma sreachable_handleSet mode brightness s :
  sreachable s -> web s = WIdle -> btn s = BIdle ->
  sreachable (mkWriters (handleSet mode brightness (globals s))
                        WIdle BIdle (todo s) (seen s)).
Proof.
  intros Hr Hw Hb. destruct s as [g w b td sn]. cbn [web btn] in Hw, Hb.
  subst w b. cbn [globals todo seen].
  assert (H0 : sreachable (w_request mode brightness
                             (mkWriters g WIdle BIdle td sn))).
  { eapply sreach_step; [exact Hr | apply ws_request; reflexivity|].
    right. reflexivity. }
  unfold w_request in H0. cbn [globals btn todo seen] in H0.
  assert (Hbright : forall g0,
            sreachable (mkWriters g0 (web_bright brightness) BIdle td sn) ->
            sreachable
              (mkWriters
                 match brightness with
                 | Some brightVal =>
                     if (0 <=? brightVal) && (brightVal <=? 255)
                     then FastLED_setBrightness
                            (ringBrightness (set_ringBrightness brightVal g0))
                            (set_ringBrightness brightVal g0)
                     else g0
                 | None => g0
                 end WIdle BIdle td sn)).
  { intros g0 H. unfold web_bright in H.
    destruct brightness as [brightVal|]; [|exact H].
    destruct ((0 <=? brightVal) && (brightVal <=? 255)); [|exact H].
    apply sreachable_setBrightness, H. }
  unfold handleSet, web_start in *.
  destruct mode as [modeVal|]; [|apply Hbright, H0].
  destruct ((0 <=? modeVal) && (modeVal <? numModes)); [|apply Hbright, H0].
  apply Hbright.
  apply sreachable_web in H0; [exact H0 | discriminate].
Qed.

Lemma sreachable_btn g b td sn :
  b <> BIdle ->
  sreachable (mkWriters g WIdle b td sn) ->
  sreachable (mkWriters (snd (btn_step b g)) WIdle (fst (btn_step b g)) td sn).
Proof.
  intros Hb Hr.
  apply (sreach_step _ _ Hr (ws_btn (mkWriters g WIdle b td sn) Hb)).
  left. reflexivity.
Qed.

(** A handler run while the web task is outside [handleSet] ends as the
    handler's function says. *)
Lemma sreachable_handler g h rest sn :
  sreachable (mkWriters g WIdle BIdle (h :: rest) sn) ->
  sreachable (mkWriters (handler_run h g) WIdle BIdle rest sn).
Proof.
  intros Hr.
  assert (H0 : sreachable (mkWriters g WIdle (btn_begin h g) rest sn)).
  { apply (sreach_step _ _ Hr).
    - apply (ws_begin (mkWriters g WIdle BIdle (h :: rest) sn));
        [reflexivity | discriminate].
    - left. reflexivity. }
  destruct h; cbn [btn_begin handler_run] in *;
    repeat (apply sreachable_btn in H0; [|discriminate];
            cbn [btn_step fst snd] in H0);
    exact H0.
Qed.

Lemma sreachable_handlers sn l :
  forall g,
    sreachable (mkWriters g WIdle BIdle l sn) ->
    sreachable (mkWriters (fold_left (fun c h => handler_run h c) l g)
                          WIdle BIdle [] sn).
Proof.
  induction l as [|h rest IH]; intros g Hr; [exact Hr|].
  cbn [fold_left]. apply IH, sreachable_handler, Hr.
Qed.

(** A whole pass of the button loop while the web task is outside
    [handleSet] ends as [buttonTask_iter] says. *)
Lemma sreachable_pass now s :
  sreachable s -> web s = WIdle -> btn s = BIdle -> todo s = [] ->
  sreachable (mkWriters (fst (buttonTask_iter now (seen s) (globals s)))
                        WIdle BIdle [] now).
Proof.
  intros Hr Hw Hb Ht. destruct s as [g w b td sn].
  cbn [web btn todo globals seen] in *. subst w b td.
  rewrite <- handlers_of_pass. apply sreachable_handlers.
  apply (sreach_step _ _ Hr).
  - apply (ws_pass (mkWriters g WIdle BIdle [] sn) now); reflexivity.
  - left. reflexivity.
Qed.

(** The states of [reachable], where requests and button passes are taken
    whole, are those of the runs in which the two writers take turns. *)
Lemma reachable_by_turns {P} (s : System P) :
  reachable s ->
  sreachable (mkWriters (config s) WIdle BIdle [] (lastPins s)).
Proof.
  induction 1 as [w | s s' _ IH Hs]; [apply sreach_init|].
  destruct Hs as [s mode brightness | s now | s _ | s s' _ E | s w];
    cbn [sys_handleSet sys_buttons sys_ring_entry sys_world config lastPins];
    try exact IH.
  - exact (sreachable_handleSet mode brightness _ IH eq_refl eq_refl).
  - exact (sreachable_pass now _ IH eq_refl eq_refl eq_refl).
  - unfold sys_ring_iter in E.
    destruct (ledRingTask_iter P _ _ _ _) as [[st' m']|]; [|discriminate].
    injection E as <-. exact IH.
Qed.

(** X8: when the network setter and the button handlers take turns, the
    scale given to [FastLED.setBrightness] equals [ringBrightness]
    whenever both tasks are outside their handlers. When they overlap the
    two can be left apart: if a [/set?brightness=200] request runs between
    the read and the call of line 818 of a brightness-up press at 50, both
    tasks end with [ringBrightness] at 200 and the scale at 60. *)
Theorem brightness_sync_by_turns :
  (forall s, sreachable s -> web s = WIdle -> btn s = BIdle ->
             fastledBrightness (globals s) = ringBrightness (globals s))
  /\ (wreachable set_during_up
      /\ web set_during_up = WIdle /\ btn set_during_up = BIdle
      /\ todo set_during_up = []
      /\ ringBrightness (globals set_during_up) = 200
      /\ fastledBrightness (globals set_during_up) = 60).
Proof.
  split.
  - intros s Hr Hw Hb. apply sreachable_sync in Hr.
    unfold sync_inv in Hr. rewrite Hw, Hb in Hr. apply Hr.
  - split; [apply set_during_up_reachable|]. repeat split; reflexivity.
Qed.
